(** * RxJs-Tetris: the game reducer and the board/tetromino geometry

    A shallow embedding of [tetromino.ts], [board.ts] and the reducer part of
    [main.ts] ([spawnNewBlock], [initialState], [clearRows], [updateState]),
    followed by the properties of the specification that concern them.

    Conventions of the embedding.
    - A JavaScript [number] that the program uses as an index or a coordinate
      is a [Z]; array lengths and loop counters are [Z] as well. The sums
      and differences of the program are those of [Z] as long as they stay
      among the safe integers ([safeInteger], up to 2^53 - 1 in absolute
      value): a statement whose conclusion is the result of such a sum
      carries that bound as a hypothesis.
    - An array is a [list]; a read past its end yields [undefined], which is
      why the two cell types below carry an extra [undefined] constructor
      next to the values their TypeScript types announce.
    - A function that may read a property of [undefined] returns an
      [outcome]: [Throw] stands for the TypeError raised by the engine.
      [Hang] stands for a loop that never exits.
    - [Math.random] is an oracle: the key it selects is an argument. *)

From stdpp Require Import base list strings gmap.
From Stdlib Require Import ZArith Lia.

Local Open Scope Z_scope.

(** ** Outcomes of a call *)

Inductive outcome (A : Type) : Type :=
| Return (a : A)
| Throw
| Hang.
Arguments Return {A} a.
Arguments Throw {A}.
Arguments Hang {A}.

Definition bind {A B : Type} (o : outcome A) (k : A → outcome B) : outcome B :=
  match o with
  | Return a => k a
  | Throw => Throw
  | Hang => Hang
  end.

Notation "'let*' p ':=' o 'in' k" := (bind o (fun p => k))
  (at level 10, p pattern, o at level 100, k at level 200).

(** ** tetromino.ts *)

(** An entry of a [number[][]]. [NoNumber] is the [undefined] that a read
    past the end of a row produces. *)
Inductive number : Type :=
| Num (n : Z)
| NoNumber.

Abbreviation Matrix := (list (list number)).

(** The literal [[0, 1, 0], ...] of the source. *)
Definition literal (rows : list (list Z)) : Matrix := map (map Num) rows.

(** JavaScript truthiness of a matrix entry: [0] and [undefined] are falsy. *)
Definition truthy (v : number) : bool :=
  match v with
  | Num n => negb (n =? 0)
  | NoNumber => false
  end.

Record Tetromino : Type := mkTetromino {
  shape : Matrix;
  color : string;
}.

(** [matrix.map(row => [...row])] *)
Definition deepCopy (matrix : Matrix) : Matrix :=
  map (fun row => row) matrix.

(** The keys of the [TETROMINOES] object. *)
Module Key.
Inductive t : Type := I | O | T | S | Z | J | L.
End Key.

Definition TETROMINOES (key : Key.t) : Tetromino :=
  match key with
  | Key.I => {| shape := literal [[0; 0; 0; 0];
                                  [1; 1; 1; 1];
                                  [0; 0; 0; 0];
                                  [0; 0; 0; 0]];
                color := "cyan" |}
  | Key.O => {| shape := literal [[1; 1];
                                  [1; 1]];
                color := "yellow" |}
  | Key.T => {| shape := literal [[0; 1; 0];
                                  [1; 1; 1];
                                  [0; 0; 0]];
                color := "purple" |}
  | Key.S => {| shape := literal [[0; 1; 1];
                                  [1; 1; 0];
                                  [0; 0; 0]];
                color := "green" |}
  | Key.Z => {| shape := literal [[1; 1; 0];
                                  [0; 1; 1];
                                  [0; 0; 0]];
                color := "red" |}
  | Key.J => {| shape := literal [[1; 0; 0];
                                  [1; 1; 1];
                                  [0; 0; 0]];
                color := "blue" |}
  | Key.L => {| shape := literal [[0; 0; 1];
                                  [1; 1; 1];
                                  [0; 0; 0]];
                color := "orange" |}
  end.

(** [Object.keys(TETROMINOES)], in insertion order. *)
Definition keys : list Key.t :=
  [Key.I; Key.O; Key.T; Key.S; Key.Z; Key.J; Key.L].

(** [randKey] is [keys[Math.floor(Math.random() * keys.length)]]: since
    [Math.random()] lies in [0, 1), it ranges over the seven keys. *)
Definition randomTetromino (randKey : Key.t) : Tetromino :=
  {| shape := deepCopy (shape (TETROMINOES randKey));
     color := color (TETROMINOES randKey) |}.

(** [matrix[i][j]] for [i] inside the matrix. *)
Definition entry (matrix : Matrix) (i j : nat) : number :=
  match matrix !! i with
  | Some row => default NoNumber (row !! j)
  | None => NoNumber
  end.

(** [rotated[j][k] = v] for a position inside [rotated]. *)
Definition setEntry (rotated : Matrix) (j k : nat) (v : number) : Matrix :=
  alter (fun row => <[k := v]> row) j rotated.

Definition rotate (matrix : Matrix) : outcome Matrix :=
  match matrix with
  | [] => Throw (* matrix[0].length *)
  | row0 :: _ =>
      let n := length matrix in
      let m := length row0 in
      let rotated := replicate m (replicate n (Num 0)) in
      Return
        (foldl (fun rotated i =>
                  foldl (fun rotated j =>
                           setEntry rotated j (n - 1 - i)%nat (entry matrix i j))
                        rotated (seq 0 m))
               rotated (seq 0 n))
  end.

(** ** board.ts *)

Definition GRID_WIDTH : Z := 10.
Definition GRID_HEIGHT : Z := 20.

(** A cell of the board, [string | null]. [NoCell] is the [undefined] read
    past the end of a row (or left behind when a write extends a row). *)
Inductive Cell : Type :=
| Null
| Color (c : string)
| NoCell.

Abbreviation Board := (list (list Cell)).

Definition createEmptyBoard : Board :=
  replicate (Z.to_nat GRID_HEIGHT) (replicate (Z.to_nat GRID_WIDTH) Null).

(** [cell !== null] *)
Definition notNull (cell : Cell) : bool :=
  match cell with
  | Null => false
  | _ => true
  end.

(** [cell === null] *)
Definition isNull (cell : Cell) : bool := negb (notNull cell).

(** [row[boardX]] for [0 <= boardX]. *)
Definition cellOf (row : list Cell) (boardX : Z) : Cell :=
  default NoCell (row !! Z.to_nat boardX).

(** One run of the inner loop of [canPlaceTetromino], from column [col] on.
    [Return true] means that the loop ran to its end, [Return false] that
    the function returned [false]. *)
Fixpoint canPlaceCols (board : Board) (posX posY row col : Z)
    (cells : list number) : outcome bool :=
  match cells with
  | [] => Return true
  | v :: cells' =>
      if truthy v then
        let boardX := posX + col in
        let boardY := posY + row in
        if (boardX <? 0) || (boardX >=? GRID_WIDTH) ||
           (boardY <? 0) || (boardY >=? GRID_HEIGHT)
        then Return false
        else
          match board !! Z.to_nat boardY with
          | None => Throw (* board[boardY][boardX] *)
          | Some boardRow =>
              if notNull (cellOf boardRow boardX) then Return false
              else canPlaceCols board posX posY row (col + 1) cells'
          end
      else canPlaceCols board posX posY row (col + 1) cells'
  end.

(** The outer loop, from row [row] on. *)
Fixpoint canPlaceRows (board : Board) (posX posY row : Z)
    (rows : Matrix) : outcome bool :=
  match rows with
  | [] => Return true
  | cells :: rows' =>
      let* fits := canPlaceCols board posX posY row 0 cells in
      if fits then canPlaceRows board posX posY (row + 1) rows'
      else Return false
  end.

Definition canPlaceTetromino (board : Board) (tetromino : Tetromino)
    (posX posY : Z) : outcome bool :=
  canPlaceRows board posX posY 0 (shape tetromino).

Record FallingBlock : Type := mkFallingBlock {
  tetromino : Tetromino;
  x : Z;
  y : Z;
}.

(** [row[boardX] = v] for [0 <= boardX]: a write past the end extends the
    array. *)
Definition setCell (row : list Cell) (boardX : Z) (v : Cell) : list Cell :=
  let i := Z.to_nat boardX in
  if decide (i < length row)%nat then <[i := v]> row
  else row ++ replicate (i - length row) NoCell ++ [v].

(** [newBoard[boardY][boardX] = v] for [0 <= boardY]. *)
Definition setBoard (newBoard : Board) (boardX boardY : Z) (v : Cell)
  : outcome Board :=
  match newBoard !! Z.to_nat boardY with
  | None => Throw
  | Some boardRow =>
      Return (<[Z.to_nat boardY := setCell boardRow boardX v]> newBoard)
  end.

Fixpoint mergeCols (newBoard : Board) (block : FallingBlock) (row col : Z)
    (cells : list number) : outcome Board :=
  match cells with
  | [] => Return newBoard
  | v :: cells' =>
      if truthy v then
        let boardX := x block + col in
        let boardY := y block + row in
        if (boardX >=? 0) && (boardX <? GRID_WIDTH) &&
           (boardY >=? 0) && (boardY <? GRID_HEIGHT)
        then
          let* newBoard :=
            setBoard newBoard boardX boardY (Color (color (tetromino block))) in
          mergeCols newBoard block row (col + 1) cells'
        else mergeCols newBoard block row (col + 1) cells'
      else mergeCols newBoard block row (col + 1) cells'
  end.

Fixpoint mergeRows (newBoard : Board) (block : FallingBlock) (row : Z)
    (rows : Matrix) : outcome Board :=
  match rows with
  | [] => Return newBoard
  | cells :: rows' =>
      let* newBoard := mergeCols newBoard block row 0 cells in
      mergeRows newBoard block (row + 1) rows'
  end.

Definition mergeTetromino (board : Board) (block : FallingBlock)
  : outcome Board :=
  let newBoard := map (fun row => row) board in
  mergeRows newBoard block 0 (shape (tetromino block)).

(** ** main.ts: the reducer *)

Record Action : Type := mkAction { type : string }.

Record State : Type := mkState {
  board : Board;
  currentBlock : FallingBlock;
  nextTetromino : Tetromino;
  gameOver : bool;
  score : Z;
}.

Definition spawnNewBlock (board : Board) (tetromino : Tetromino)
  : outcome FallingBlock :=
  match shape tetromino with
  | [] => Throw (* tetromino.shape[0].length *)
  | row0 :: _ =>
      let tetrominoWidth := Z.of_nat (length row0) in
      let x := (GRID_WIDTH - tetrominoWidth) `div` 2 in
      Return {| tetromino := tetromino; x := x; y := 0 |}
  end.

(** The two keys are the results of the two calls of [randomTetromino]. *)
Definition initialState (key1 key2 : Key.t) : outcome State :=
  let* block := spawnNewBlock createEmptyBoard (randomTetromino key1) in
  Return {| board := createEmptyBoard;
            currentBlock := block;
            nextTetromino := randomTetromino key2;
            gameOver := false;
            score := 0 |}.

(** [Array.from({ length }, ...)] takes a negative length for 0, as
    [Z.to_nat] does. *)
Definition clearRows (board : Board) : Board * Z :=
  let remainingRows := List.filter (fun row => existsb isNull row) board in
  let rowsCleared := GRID_HEIGHT - Z.of_nat (length remainingRows) in
  let newRows :=
    replicate (Z.to_nat rowsCleared) (replicate (Z.to_nat GRID_WIDTH) Null) in
  (newRows ++ remainingRows, rowsCleared).

(** The [while] loop of the "drop" case. [fuel] bounds the number of times
    the condition is evaluated; [Hang] is returned when it runs out. *)
Fixpoint dropLoop (fuel : nat) (board : Board) (block : FallingBlock)
    (dropY : Z) : outcome Z :=
  match fuel with
  | O => Hang
  | S fuel' =>
      let* fits := canPlaceTetromino board (tetromino block) (x block) (dropY + 1) in
      if fits then dropLoop fuel' board block (dropY + 1)
      else Return dropY
  end.

(** The condition of the loop can hold at most [GRID_HEIGHT] times in a row
    unless it holds forever (lemma [dropLoop_fuel] below), so this much fuel
    decides the loop. *)
Definition dropFuel : nat := S (Z.to_nat GRID_HEIGHT).

Definition withY (currentBlock : FallingBlock) (newY : Z) : FallingBlock :=
  {| tetromino := tetromino currentBlock; x := x currentBlock; y := newY |}.

Definition withX (currentBlock : FallingBlock) (newX : Z) : FallingBlock :=
  {| tetromino := tetromino currentBlock; x := newX; y := y currentBlock |}.

Definition withBlock (state : State) (block : FallingBlock) : State :=
  {| board := board state;
     currentBlock := block;
     nextTetromino := nextTetromino state;
     gameOver := gameOver state;
     score := score state |}.

Definition named (action : Action) (name : string) : bool :=
  String.eqb (type action) name.

(** [randKey] is the key drawn by the call of [randomTetromino] in the
    branches that make one. *)
Definition updateState (state : State) (action : Action) (randKey : Key.t)
  : outcome State :=
  if gameOver state then Return state else
  let board := board state in
  let currentBlock := currentBlock state in
  if named action "tick" || named action "down" then
    let* fits := canPlaceTetromino board (tetromino currentBlock)
                   (x currentBlock) (y currentBlock + 1) in
    if fits then
      Return (withBlock state (withY currentBlock (y currentBlock + 1)))
    else
      let* newBoard := mergeTetromino board currentBlock in
      let '(clearedBoard, rowsCleared) := clearRows newBoard in
      let scoreIncrement := rowsCleared * 100 in
      let* newBlock := spawnNewBlock clearedBoard (nextTetromino state) in
      let nextTetromino := randomTetromino randKey in
      let* fits := canPlaceTetromino clearedBoard (tetromino newBlock)
                     (x newBlock) (y newBlock) in
      if negb fits then
        Return {| board := clearedBoard; currentBlock := newBlock;
                  nextTetromino := nextTetromino; gameOver := true;
                  score := score state + scoreIncrement |}
      else
        Return {| board := clearedBoard; currentBlock := newBlock;
                  nextTetromino := nextTetromino; gameOver := false;
                  score := score state + scoreIncrement |}
  else if named action "left" then
    let* fits := canPlaceTetromino board (tetromino currentBlock)
                   (x currentBlock - 1) (y currentBlock) in
    if fits then
      Return (withBlock state (withX currentBlock (x currentBlock - 1)))
    else Return state
  else if named action "right" then
    let* fits := canPlaceTetromino board (tetromino currentBlock)
                   (x currentBlock + 1) (y currentBlock) in
    if fits then
      Return (withBlock state (withX currentBlock (x currentBlock + 1)))
    else Return state
  else if named action "rotate" then
    let* rotatedShape := rotate (shape (tetromino currentBlock)) in
    let rotatedTetromino :=
      {| shape := rotatedShape; color := color (tetromino currentBlock) |} in
    let* fits := canPlaceTetromino board rotatedTetromino
                   (x currentBlock) (y currentBlock) in
    if fits then
      Return (withBlock state
                {| tetromino := rotatedTetromino;
                   x := x currentBlock; y := y currentBlock |})
    else Return state
  else if named action "drop" then
    let* dropY := dropLoop dropFuel board currentBlock (y currentBlock) in
    let droppedBlock := withY currentBlock dropY in
    let* newBoardAfterDrop := mergeTetromino board droppedBlock in
    let '(clearedBoardAfterDrop, rowsClearedDrop) := clearRows newBoardAfterDrop in
    let scoreIncrementDrop := rowsClearedDrop * 100 in
    let* newBlockAfterDrop :=
      spawnNewBlock clearedBoardAfterDrop (nextTetromino state) in
    let nextTetrominoAfterDrop := randomTetromino randKey in
    let* fits := canPlaceTetromino clearedBoardAfterDrop
                   (tetromino newBlockAfterDrop)
                   (x newBlockAfterDrop) (y newBlockAfterDrop) in
    if negb fits then
      Return {| board := clearedBoardAfterDrop;
                currentBlock := newBlockAfterDrop;
                nextTetromino := nextTetrominoAfterDrop; gameOver := true;
                score := score state + scoreIncrementDrop |}
    else
      Return {| board := clearedBoardAfterDrop;
                currentBlock := newBlockAfterDrop;
                nextTetromino := nextTetrominoAfterDrop; gameOver := false;
                score := score state + scoreIncrementDrop |}
  else Return state.

(** Folding a list of actions, each with the key its transition would draw. *)
Fixpoint run (state : State) (actions : list (Action * Key.t)) : outcome State :=
  match actions with
  | [] => Return state
  | (action, randKey) :: actions' =>
      let* state' := updateState state action randKey in
      run state' actions'
  end.

(** ** The arrays as objects

    [rotate] and [mergeTetromino] write into arrays. The definitions above
    give the values they compute; the ones below say which objects they
    allocate and write, so that "the argument is not mutated" can be stated.
    A heap is the list of the arrays allocated so far, a reference is an
    index into it, and a two-dimensional array is an array of references to
    its rows. *)

Inductive array (E : Type) : Type :=
| Cells (cells : list E)
| Rows (rows : list nat).
Arguments Cells {E} cells.
Arguments Rows {E} rows.

Abbreviation heap E := (list (array E)).

(** A new array, at the next free reference. *)
Definition alloc {E} (h : heap E) (a : array E) : heap E * nat :=
  (h ++ [a], length h).

Definition readCells {E} (h : heap E) (ref : nat) : option (list E) :=
  match h !! ref with
  | Some (Cells cells) => Some cells
  | _ => None
  end.

(** The two-dimensional array that [ref] denotes in [h]. *)
Definition readTable {E} (h : heap E) (ref : nat) : option (list (list E)) :=
  match h !! ref with
  | Some (Rows rows) => mapM (readCells h) rows
  | _ => None
  end.

Definition mapOutcome {A B} (f : A → B) (o : outcome A) : outcome B :=
  let* a := o in Return (f a).

(** [table[j] = f(table[j])], in place: for the assignments to an entry of
    row [j]. A missing row is a TypeError. *)
Definition updateRowH {E} (h : heap E) (table : nat) (j : nat)
    (f : list E → list E) : outcome (heap E) :=
  match h !! table with
  | Some (Rows rows) =>
      match rows !! j with
      | Some ref =>
          match h !! ref with
          | Some (Cells cells) => Return (<[ref := Cells (f cells)]> h)
          | _ => Throw
          end
      | None => Throw
      end
  | _ => Throw
  end.

(** A [for] loop over [xs] whose body may throw. *)
Fixpoint forEach {A S} (xs : list A) (s : S) (body : S → A → outcome S)
  : outcome S :=
  match xs with
  | [] => Return s
  | a :: xs' => let* s := body s a in forEach xs' s body
  end.

(** [rows.map(row => [...row])]: a new array for each row. *)
Fixpoint copyRows {E} (h : heap E) (rows : list nat)
  : outcome (heap E * list nat) :=
  match rows with
  | [] => Return (h, [])
  | ref :: rows' =>
      match h !! ref with
      | Some (Cells cells) =>
          let '(h, ref') := alloc h (Cells cells) in
          let* (h, refs') := copyRows h rows' in
          Return (h, ref' :: refs')
      | _ => Throw
      end
  end.

(** [Array.from({ length: m }, () => new Array(n).fill(0))] *)
Fixpoint allocRows (h : heap number) (m n : nat) : heap number * list nat :=
  match m with
  | O => (h, [])
  | S m' =>
      let '(h, ref) := alloc h (Cells (replicate n (Num 0))) in
      let '(h, refs) := allocRows h m' n in
      (h, ref :: refs)
  end.

(** [matrix[i][j]] *)
Definition entryH (h : heap number) (matrix : nat) (i j : nat) : outcome number :=
  match h !! matrix with
  | Some (Rows rows) =>
      match rows !! i with
      | Some ref =>
          match h !! ref with
          | Some (Cells cells) => Return (default NoNumber (cells !! j))
          | _ => Throw
          end
      | None => Throw
      end
  | _ => Throw
  end.

(** [rotate] on the heap: the argument and the result are references. *)
Definition rotateH (h : heap number) (matrix : nat) : outcome (heap number * nat) :=
  match h !! matrix with
  | Some (Rows rows) =>
      let n := length rows in
      match rows with
      | [] => Throw
      | ref0 :: _ =>
          match h !! ref0 with
          | Some (Cells row0) =>
              let m := length row0 in
              let '(h, refs) := allocRows h m n in
              let '(h, rotated) := alloc h (Rows refs) in
              let* h :=
                forEach (seq 0 n) h (fun h i =>
                  forEach (seq 0 m) h (fun h j =>
                    let* v := entryH h matrix i j in
                    updateRowH h rotated j
                      (fun cells => <[(n - 1 - i)%nat := v]> cells))) in
              Return (h, rotated)
          | _ => Throw
          end
      end
  | _ => Throw
  end.

Fixpoint mergeColsH (h : heap Cell) (newBoard : nat) (block : FallingBlock)
    (row col : Z) (cells : list number) : outcome (heap Cell) :=
  match cells with
  | [] => Return h
  | v :: cells' =>
      if truthy v then
        let boardX := x block + col in
        let boardY := y block + row in
        if (boardX >=? 0) && (boardX <? GRID_WIDTH) &&
           (boardY >=? 0) && (boardY <? GRID_HEIGHT)
        then
          let* h :=
            updateRowH h newBoard (Z.to_nat boardY)
              (fun boardRow =>
                 setCell boardRow boardX (Color (color (tetromino block)))) in
          mergeColsH h newBoard block row (col + 1) cells'
        else mergeColsH h newBoard block row (col + 1) cells'
      else mergeColsH h newBoard block row (col + 1) cells'
  end.

Fixpoint mergeRowsH (h : heap Cell) (newBoard : nat) (block : FallingBlock)
    (row : Z) (rows : Matrix) : outcome (heap Cell) :=
  match rows with
  | [] => Return h
  | cells :: rows' =>
      let* h := mergeColsH h newBoard block row 0 cells in
      mergeRowsH h newBoard block (row + 1) rows'
  end.

(** [mergeTetromino] on the heap: the board and the result are references;
    the shape of the block is only read. *)
Definition mergeTetrominoH (h : heap Cell) (board : nat) (block : FallingBlock)
  : outcome (heap Cell * nat) :=
  match h !! board with
  | Some (Rows rows) =>
      let* (h, refs) := copyRows h rows in
      let '(h, newBoard) := alloc h (Rows refs) in
      let* h := mergeRowsH h newBoard block 0 (shape (tetromino block)) in
      Return (h, newBoard)
  | _ => Throw
  end.

(** The heap [h0] followed by a new two-dimensional array of value [table]:
    its rows, then the array of their references. *)
Definition layout {E} (h0 : heap E) (table : list (list E)) : heap E :=
  h0 ++ (Cells <$> table) ++ [Rows (seq (length h0) (length table))].

(** A heap that holds [table] and nothing else, for the examples. *)
Definition store {E} (table : list (list E)) : heap E * nat :=
  (layout [] table, length table).

(** ** Notions used by the statements *)

(** The shape has a truthy entry at [row], [col]. *)
Definition occupiedAt (shape : Matrix) (row col : nat) : Prop :=
  ∃ cells v, shape !! row = Some cells ∧ cells !! col = Some v ∧ truthy v = true.

(** The coordinate lies in [0,W) x [0,H). *)
Definition inBounds (boardX boardY : Z) : Prop :=
  0 ≤ boardX < GRID_WIDTH ∧ 0 ≤ boardY < GRID_HEIGHT.

(** [board[boardY][boardX]] as a read sees it, for non-negative coordinates. *)
Definition boardCell (board : Board) (boardX boardY : Z) : Cell :=
  match board !! Z.to_nat boardY with
  | Some boardRow => cellOf boardRow boardX
  | None => NoCell
  end.

(** The board has its [GRID_HEIGHT] rows. *)
Definition hasHeight (board : Board) : Prop :=
  Z.of_nat (length board) = GRID_HEIGHT.

(** What stops the scan at a truthy entry mapped to [(boardX, boardY)]. *)
Definition blocked (board : Board) (boardX boardY : Z) : Prop :=
  ¬ inBounds boardX boardY ∨ boardCell board boardX boardY ≠ Null.

(** A row is full when it holds no empty cell. *)
Definition fullRow (row : list Cell) : Prop := Null ∉ row.

Global Instance Cell_eq_dec : EqDecision Cell.
Proof. solve_decision. Defined.

Global Instance number_eq_dec : EqDecision number.
Proof. solve_decision. Defined.

Global Instance fullRow_dec row : Decision (fullRow row).
Proof. unfold fullRow. apply _. Defined.

(** The moves that [updateState] turns down: the placement it tests is
    invalid. *)
Inductive rejected (state : State) : Action → Prop :=
| rejected_left :
    canPlaceTetromino (board state) (tetromino (currentBlock state))
      (x (currentBlock state) - 1) (y (currentBlock state)) = Return false →
    rejected state (mkAction "left")
| rejected_right :
    canPlaceTetromino (board state) (tetromino (currentBlock state))
      (x (currentBlock state) + 1) (y (currentBlock state)) = Return false →
    rejected state (mkAction "right")
| rejected_rotate rotatedShape :
    rotate (shape (tetromino (currentBlock state))) = Return rotatedShape →
    canPlaceTetromino (board state)
      {| shape := rotatedShape; color := color (tetromino (currentBlock state)) |}
      (x (currentBlock state)) (y (currentBlock state)) = Return false →
    rejected state (mkAction "rotate").

(** The states that the game can be in: the initial state for some pair of
    draws, and what [updateState] returns from there. *)
Inductive reachable : State → Prop :=
| reachable_initial key1 key2 state :
    initialState key1 key2 = Return state → reachable state
| reachable_step state action randKey state' :
    reachable state →
    updateState state action randKey = Return state' →
    reachable state'.

(** The block has a truthy entry that maps to [(boardX, boardY)]. *)
Definition coveredBy (block : FallingBlock) (boardX boardY : Z) : Prop :=
  ∃ row col : nat, occupiedAt (shape (tetromino block)) row col ∧
    boardX = x block + Z.of_nat col ∧ boardY = y block + Z.of_nat row.

(** Every row of the board has [GRID_WIDTH] cells. *)
Definition hasWidth (board : Board) : Prop :=
  Forall (fun row => length row = Z.to_nat GRID_WIDTH) board.

(** The coordinates that the loops of [mergeTetromino] write to, in the
    order of the writes. *)
Fixpoint writtenCols (block : FallingBlock) (row col : Z)
    (cells : list number) : list (Z * Z) :=
  match cells with
  | [] => []
  | v :: cells' =>
      let boardX := x block + col in
      let boardY := y block + row in
      (if truthy v && ((boardX >=? 0) && (boardX <? GRID_WIDTH) &&
                       (boardY >=? 0) && (boardY <? GRID_HEIGHT))
       then [(boardX, boardY)] else [])
      ++ writtenCols block row (col + 1) cells'
  end.

Fixpoint writtenRows (block : FallingBlock) (row : Z) (rows : Matrix)
  : list (Z * Z) :=
  match rows with
  | [] => []
  | cells :: rows' =>
      writtenCols block row 0 cells ++ writtenRows block (row + 1) rows'
  end.

(** [new] is [old] with [v] at the coordinates of [ws]: as many rows, rows
    of full width if they were, and every other cell as it was. *)
Definition paints (v : Cell) (ws : list (Z * Z)) (old new : Board) : Prop :=
  length new = length old ∧
  (hasWidth old → hasWidth new) ∧
  ∀ boardX boardY, 0 ≤ boardX → 0 ≤ boardY →
    boardCell new boardX boardY
    = if decide ((boardX, boardY) ∈ ws) then v else boardCell old boardX boardY.

(** An [N] x [M] matrix: [N] rows of [M] entries. *)
Definition rect (N M : nat) (matrix : Matrix) : Prop :=
  length matrix = N ∧ Forall (fun row => length row = M) matrix.

(** The shapes that pieces have: a rectangle that is not degenerate and has
    a truthy entry. *)
Definition wellShaped (matrix : Matrix) : Prop :=
  ∃ N M : nat, (0 < N)%nat ∧ (0 < M)%nat ∧ rect N M matrix ∧
    ∃ row col, occupiedAt matrix row col.

(** Whether the shape has a truthy entry at all. *)
Definition hasOccupied (matrix : Matrix) : bool :=
  existsb (existsb truthy) matrix.

(** The lock sequence as the "tick"/"down" case of [updateState] writes it,
    for the block [block] of [state]. *)
Definition lockSequence (state : State) (block : FallingBlock)
    (randKey : Key.t) : outcome State :=
  let* newBoard := mergeTetromino (board state) block in
  let '(clearedBoard, rowsCleared) := clearRows newBoard in
  let scoreIncrement := rowsCleared * 100 in
  let* newBlock := spawnNewBlock clearedBoard (nextTetromino state) in
  let nextTetromino := randomTetromino randKey in
  let* fits := canPlaceTetromino clearedBoard (tetromino newBlock)
                 (x newBlock) (y newBlock) in
  if negb fits then
    Return {| board := clearedBoard; currentBlock := newBlock;
              nextTetromino := nextTetromino; gameOver := true;
              score := score state + scoreIncrement |}
  else
    Return {| board := clearedBoard; currentBlock := newBlock;
              nextTetromino := nextTetromino; gameOver := false;
              score := score state + scoreIncrement |}.

(** What the reducer maintains: the board keeps its height, the two pieces
    keep a proper shape, and the active block of a running game is where
    [canPlaceTetromino] accepts it. *)
Definition invariant (state : State) : Prop :=
  hasHeight (board state) ∧
  wellShaped (shape (tetromino (currentBlock state))) ∧
  wellShaped (shape (nextTetromino state)) ∧
  (gameOver state = false →
   canPlaceTetromino (board state) (tetromino (currentBlock state))
     (x (currentBlock state)) (y (currentBlock state)) = Return true).

(** Sample states for the statements below. *)
Definition stateOf (board : Board) (key : Key.t) (x y : Z) (next : Key.t)
  : State :=
  {| board := board;
     currentBlock := {| tetromino := randomTetromino key; x := x; y := y |};
     nextTetromino := randomTetromino next;
     gameOver := false;
     score := 0 |}.

Definition finished (state : State) : State :=
  {| board := board state;
     currentBlock := currentBlock state;
     nextTetromino := nextTetromino state;
     gameOver := true;
     score := score state |}.

(** An O piece resting on the floor of the empty board, a T piece queued. *)
Definition landedO : State := stateOf createEmptyBoard Key.O 4 18 Key.T.

(** A T piece just spawned on the empty board, an I piece queued:
    [initialState Key.T Key.I]. *)
Definition startT : State := stateOf createEmptyBoard Key.T 3 0 Key.I.

(** An upright I piece against the left wall of the empty board. *)
Definition uprightI : State :=
  {| board := createEmptyBoard;
     currentBlock :=
       {| tetromino := {| shape := literal [[0; 0; 1; 0];
                                            [0; 0; 1; 0];
                                            [0; 0; 1; 0];
                                            [0; 0; 1; 0]];
                          color := "cyan" |};
          x := -2; y := 0 |};
     nextTetromino := randomTetromino Key.T;
     gameOver := false;
     score := 0 |}.

(** One "tick" per draw. *)
Definition ticks (randKeys : list Key.t) : list (Action * Key.t) :=
  map (fun randKey => (mkAction "tick", randKey)) randKeys.

(** A row of the board that is empty but for the cells of [cols]. *)
Definition rowWith (c : string) (cols : list nat) : list Cell :=
  foldr (fun col row => <[col := Color c]> row)
        (replicate (Z.to_nat GRID_WIDTH) Null) cols.

(** The empty board with the given two rows at the bottom. *)
Definition bottomRows (row18 row19 : list Cell) : Board :=
  replicate 18 (replicate (Z.to_nat GRID_WIDTH) Null) ++ [row18; row19].

(** The number of rows of the matrix of a piece. *)
Definition shapeHeight (tetromino : Tetromino) : Z :=
  Z.of_nat (length (shape tetromino)).

(** A heap that holds the matrix of the T piece, and one that holds the
    empty board. *)
Definition shapeT : Matrix := shape (TETROMINOES Key.T).
Definition heapT : heap number := (store shapeT).1.
Definition refT : nat := (store shapeT).2.
Definition heapEmpty : heap Cell := (store createEmptyBoard).1.
Definition refEmpty : nat := (store createEmptyBoard).2.

(** [rotate] applied [times] times. *)
Fixpoint rotateTimes (times : nat) (matrix : Matrix) : outcome Matrix :=
  match times with
  | O => Return matrix
  | S times' => let* rotated := rotate matrix in rotateTimes times' rotated
  end.

(** [deepCopy] on the heap: [matrix.map(row => [...row])]. *)
Definition deepCopyH (h : heap number) (matrix : nat)
  : outcome (heap number * nat) :=
  match h !! matrix with
  | Some (Rows rows) =>
      let* (h, refs) := copyRows h rows in
      Return (alloc h (Rows refs))
  | _ => Throw
  end.

(** A board as the game keeps it: [GRID_HEIGHT] rows of [GRID_WIDTH] cells,
    each [null] or a colour, and no row full. *)
Definition tidy (board : Board) : Prop :=
  hasHeight board ∧ hasWidth board ∧
  Forall (fun row => ¬ fullRow row) board ∧
  Forall (fun row => NoCell ∉ row) board.

(** A matrix of at most 4 rows and 4 columns. *)
Definition boxed (matrix : Matrix) : Prop :=
  ∃ N M : nat, (N ≤ 4)%nat ∧ (M ≤ 4)%nat ∧ rect N M matrix.

(** What the reducer maintains besides [invariant]. *)
Definition housekeeping (state : State) : Prop :=
  invariant state ∧
  tidy (board state) ∧
  boxed (shape (tetromino (currentBlock state))) ∧
  boxed (shape (nextTetromino state)) ∧
  0 ≤ score state ∧ (100 | score state).

(** The stream of [main]: [scan(updateState, initialState)] over the merged
    actions, then [takeWhile(state => !state.gameOver, true)]. For the
    actions that arrive, in their order (each with the key its transition
    would draw), these are the states handed to the subscriber: [scan]
    emits every state it computes, and [takeWhile] passes them on up to and
    including the first one with [gameOver], after which it completes and
    no more actions are consumed. A transition that throws ends the stream
    with that error. *)
Fixpoint emitted (state : State) (actions : list (Action * Key.t))
  : outcome (list State) :=
  match actions with
  | [] => Return []
  | (action, randKey) :: actions' =>
      let* state' := updateState state action randKey in
      if gameOver state' then Return [state']
      else
        let* states := emitted state' actions' in
        Return (state' :: states)
  end.

(** One "rotate" per draw. *)
Definition rotations (randKeys : list Key.t) : list (Action * Key.t) :=
  map (fun randKey => (mkAction "rotate", randKey)) randKeys.

(** Nine O pieces dropped one on another from [initialState Key.O Key.O], a
    tenth one spawned. *)
Definition stackedO : State :=
  stateOf (replicate 2 (replicate (Z.to_nat GRID_WIDTH) Null)
           ++ replicate 18 (rowWith "yellow" [4; 5]%nat))
          Key.O 4 0 Key.O.

(** [Number.MAX_SAFE_INTEGER]. Up to it in absolute value the integers are
    numbers of the language, and a sum or difference of two of them that
    stays in that range is computed exactly. *)
Definition MAX_SAFE_INTEGER : Z := 2 ^ 53 - 1.

Definition safeInteger (n : Z) : Prop :=
  - MAX_SAFE_INTEGER ≤ n ≤ MAX_SAFE_INTEGER.


(** * Properties *)

(** ** Outcomes *)

Lemma bind_Return {A B} (o : outcome A) (k : A → outcome B) (b : B) :
  bind o k = Return b → ∃ a, o = Return a ∧ k a = Return b.
Proof. destruct o; simpl; intros; [eauto | done | done]. Qed.

(** ** canPlaceTetromino *)

Lemma inBounds_test boardX boardY :
  (boardX <? 0) || (boardX >=? GRID_WIDTH) ||
  (boardY <? 0) || (boardY >=? GRID_HEIGHT) = false ↔ inBounds boardX boardY.
Proof. unfold inBounds. rewrite !orb_false_iff. lia. Qed.

Lemma hasHeight_lookup board boardY :
  hasHeight board → 0 ≤ boardY < GRID_HEIGHT →
  ∃ boardRow, board !! Z.to_nat boardY = Some boardRow.
Proof.
  unfold hasHeight. intros Hh Hy.
  apply lookup_lt_is_Some_2. lia.
Qed.

Lemma notNull_true cell : notNull cell = true ↔ cell ≠ Null.
Proof. destruct cell; simpl; split; congruence. Qed.

Lemma canPlaceCols_spec board posX posY row cells :
  hasHeight board → ∀ col,
  ∃ fits, canPlaceCols board posX posY row col cells = Return fits ∧
    (fits = false ↔
     ∃ (k : nat) v, cells !! k = Some v ∧ truthy v = true ∧
       blocked board (posX + (col + Z.of_nat k)) (posY + row)).
Proof.
  intros Hh. induction cells as [|v cells IH]; intros col; simpl.
  - exists true. split; [done|]. split; [done|]. intros (k & w & Hk & _). done.
  - assert (Hshift : ∀ fits,
      (fits = false ↔ ∃ (k : nat) w, cells !! k = Some w ∧ truthy w = true ∧
          blocked board (posX + (col + 1 + Z.of_nat k)) (posY + row)) →
      truthy v = false ∨ ¬ blocked board (posX + col) (posY + row) →
      (fits = false ↔ ∃ (k : nat) w, (v :: cells) !! k = Some w ∧ truthy w = true ∧
          blocked board (posX + (col + Z.of_nat k)) (posY + row))).
    { intros fits Hiff Hhead. rewrite Hiff. split.
      - intros (k & w & Hk & Hw & Hb). exists (S k), w. simpl.
        split; [done|]. split; [done|].
        replace (col + Z.of_nat (S k)) with (col + 1 + Z.of_nat k) by lia. done.
      - intros ([|k] & w & Hk & Hw & Hb); simpl in Hk.
        + simplify_eq. replace (col + Z.of_nat 0) with col in Hb by lia.
          destruct Hhead; [congruence | done].
        + exists k, w. split; [done|]. split; [done|].
          replace (col + 1 + Z.of_nat k) with (col + Z.of_nat (S k)) by lia. done. }
    destruct (truthy v) eqn:Hv.
    + destruct ((posX + col <? 0) || (posX + col >=? GRID_WIDTH) ||
                (posY + row <? 0) || (posY + row >=? GRID_HEIGHT)) eqn:Hb.
      * exists false. split; [done|]. split; [|done]. intros _.
        exists 0%nat, v. split; [done|]. split; [done|]. left.
        rewrite <- inBounds_test. replace (col + Z.of_nat 0) with col by lia.
        congruence.
      * apply inBounds_test in Hb.
        destruct (hasHeight_lookup board (posY + row) Hh) as [boardRow Hrow];
          [apply Hb|].
        rewrite Hrow.
        destruct (notNull (cellOf boardRow (posX + col))) eqn:Hcell.
        -- exists false. split; [done|]. split; [|done]. intros _.
           exists 0%nat, v. split; [done|]. split; [done|]. right.
           replace (col + Z.of_nat 0) with col by lia.
           unfold boardCell. rewrite Hrow. by apply notNull_true.
        -- destruct (IH (col + 1)) as (fits & Heq & Hiff).
           exists fits. split; [done|]. apply Hshift; [done|]. right.
           intros [Hnb | Hocc]; [done|].
           unfold boardCell in Hocc. rewrite Hrow in Hocc.
           apply notNull_true in Hocc. congruence.
    + destruct (IH (col + 1)) as (fits & Heq & Hiff).
      exists fits. split; [done|]. apply Hshift; [done|]. by left.
Qed.

Lemma canPlaceRows_spec board posX posY rows :
  hasHeight board → ∀ row,
  ∃ fits, canPlaceRows board posX posY row rows = Return fits ∧
    (fits = false ↔
     ∃ (r c : nat), occupiedAt rows r c ∧
       blocked board (posX + Z.of_nat c) (posY + (row + Z.of_nat r))).
Proof.
  intros Hh. induction rows as [|cells rows IH]; intros row; simpl.
  - exists true. split; [done|]. split; [done|].
    intros (r & c & (cs & v & Hr & _) & _). done.
  - destruct (canPlaceCols_spec board posX posY row cells Hh 0)
      as (fits0 & Heq0 & Hiff0).
    rewrite Heq0. simpl.
    destruct fits0.
    + destruct (IH (row + 1)) as (fits & Heq & Hiff).
      exists fits. split; [done|]. rewrite Hiff. split.
      * intros (r & c & (cs & v & Hr & Hc & Hv) & Hb).
        exists (S r), c. split; [by exists cs, v|].
        replace (row + Z.of_nat (S r)) with (row + 1 + Z.of_nat r) by lia. done.
      * intros ([|r] & c & (cs & v & Hr & Hc & Hv) & Hb); simpl in Hr.
        -- simplify_eq. exfalso.
           assert (true = false); [|done]. apply Hiff0.
           exists c, v. split; [done|]. split; [done|].
           replace (row + Z.of_nat 0) with row in Hb by lia. done.
        -- exists r, c. split; [by exists cs, v|].
           replace (row + 1 + Z.of_nat r) with (row + Z.of_nat (S r)) by lia. done.
    + exists false. split; [done|]. split; [|done]. intros _.
      destruct Hiff0 as [Hiff0 _].
      destruct (Hiff0 eq_refl) as (k & v & Hk & Hv & Hb).
      exists 0%nat, k. split; [by exists cells, v|].
      replace (row + Z.of_nat 0) with row by lia. done.
Qed.

(** C2. On a board with its [GRID_HEIGHT] rows, [canPlaceTetromino] returns
    (it does not throw), and it returns [false] exactly when some truthy
    entry of the shape, mapped to [(posX + col, posY + row)], falls outside
    [0,W) x [0,H) or onto a cell that is not [null]. Falsy entries are never
    looked at: it returns [true] exactly when every truthy entry maps inside
    the bounds onto a [null] cell, wherever the falsy entries map. *)
Theorem canPlaceTetromino_false_iff board tetromino posX posY :
  hasHeight board →
  ∃ fits, canPlaceTetromino board tetromino posX posY = Return fits ∧
    (fits = false ↔
       ∃ row col : nat, occupiedAt (shape tetromino) row col ∧
         (¬ inBounds (posX + Z.of_nat col) (posY + Z.of_nat row) ∨
          boardCell board (posX + Z.of_nat col) (posY + Z.of_nat row) ≠ Null)) ∧
    (fits = true ↔
       ∀ row col : nat, occupiedAt (shape tetromino) row col →
         inBounds (posX + Z.of_nat col) (posY + Z.of_nat row) ∧
         boardCell board (posX + Z.of_nat col) (posY + Z.of_nat row) = Null).
Proof.
  intros Hh. unfold canPlaceTetromino.
  destruct (canPlaceRows_spec board posX posY (shape tetromino) Hh 0)
    as (fits & Heq & Hiff).
  exists fits. split; [done|].
  assert (Hiff' : fits = false ↔
       ∃ row col : nat, occupiedAt (shape tetromino) row col ∧
         (¬ inBounds (posX + Z.of_nat col) (posY + Z.of_nat row) ∨
          boardCell board (posX + Z.of_nat col) (posY + Z.of_nat row) ≠ Null)).
  { rewrite Hiff. unfold blocked. by setoid_rewrite Z.add_0_l. }
  split; [done|]. split.
  - intros -> row col Hocc. split.
    + destruct (decide (inBounds (posX + Z.of_nat col) (posY + Z.of_nat row)))
        as [|Hn]; [done|].
      assert (true = false); [|done]. apply Hiff'. eauto.
    + destruct (decide (boardCell board (posX + Z.of_nat col)
                          (posY + Z.of_nat row) = Null)) as [|Hn]; [done|].
      assert (true = false); [|done]. apply Hiff'. eauto.
  - intros Hall. destruct fits; [done|].
    destruct Hiff' as [Hex _]. destruct (Hex eq_refl) as (row & col & Hocc & Hb).
    destruct (Hall row col Hocc) as [Hin Hnull]. destruct Hb; done.
Qed.

Lemma canPlaceTetromino_false_iff_witness :
  hasHeight createEmptyBoard ∧
  ∃ fits, canPlaceTetromino createEmptyBoard (TETROMINOES Key.T) 3 0 = Return fits ∧
    (fits = false ↔
       ∃ row col : nat, occupiedAt (shape (TETROMINOES Key.T)) row col ∧
         (¬ inBounds (3 + Z.of_nat col) (0 + Z.of_nat row) ∨
          boardCell createEmptyBoard (3 + Z.of_nat col) (0 + Z.of_nat row) ≠ Null)) ∧
    (fits = true ↔
       ∀ row col : nat, occupiedAt (shape (TETROMINOES Key.T)) row col →
         inBounds (3 + Z.of_nat col) (0 + Z.of_nat row) ∧
         boardCell createEmptyBoard (3 + Z.of_nat col) (0 + Z.of_nat row) = Null).
Proof.
  split; [reflexivity|].
  apply (canPlaceTetromino_false_iff createEmptyBoard (TETROMINOES Key.T) 3 0).
  reflexivity.
Defined.

(** ** clearRows *)

Lemma existsb_isNull row : existsb isNull row = true ↔ ¬ fullRow row.
Proof.
  unfold fullRow. rewrite existsb_exists. split.
  - intros (cell & Hin & Hnull) Hfull. apply Hfull.
    destruct cell; try done. by apply list_elem_of_In.
  - intros Hn. exists Null. split; [|done].
    apply list_elem_of_In. destruct (decide (Null ∈ row)); [done|].
    exfalso. by apply Hn.
Qed.

Lemma remainingRows_filter (board : Board) :
  List.filter (fun row => existsb isNull row) board
  = filter (fun row => ¬ fullRow row) board.
Proof.
  induction board as [|row board IH]; [done|].
  rewrite filter_cons. cbn [List.filter]. rewrite IH.
  destruct (existsb isNull row) eqn:Hrow, (decide (¬ fullRow row)) as [Hn | Hn];
    try done.
  - exfalso. apply Hn. by apply existsb_isNull.
  - apply existsb_isNull in Hn. congruence.
Qed.

Lemma filter_fullRow_length (board : Board) :
  (length (filter fullRow board)
   + length (filter (fun row => ¬ fullRow row) board))%nat = length board.
Proof.
  induction board as [|row board IH]; [done|].
  destruct (decide (fullRow row)) as [Hfull | Hfull].
  - rewrite (filter_cons_True fullRow); [|done].
    rewrite (filter_cons_False (fun row => ¬ fullRow row)); [|tauto].
    simpl. lia.
  - rewrite (filter_cons_False fullRow); [|done].
    rewrite (filter_cons_True (fun row => ¬ fullRow row)); [|done].
    simpl. lia.
Qed.

(** What [clearRows] returns, in terms of the full rows of the board. *)
Lemma clearRows_filter board :
  hasHeight board →
  let cleared := length (filter fullRow board) in
  clearRows board
  = (replicate cleared (replicate (Z.to_nat GRID_WIDTH) Null)
       ++ filter (fun row => ¬ fullRow row) board,
     Z.of_nat cleared)
  ∧ hasHeight (clearRows board).1.
Proof.
  intros Hh cleared. unfold clearRows. rewrite remainingRows_filter.
  pose proof (filter_fullRow_length board) as Hlen.
  unfold hasHeight in *. fold cleared in Hlen.
  assert (Hcleared :
    GRID_HEIGHT - Z.of_nat (length (filter (fun row => ¬ fullRow row) board))
    = Z.of_nat cleared) by lia.
  rewrite Hcleared, Nat2Z.id. split; [done|].
  simpl. rewrite length_app, length_replicate. lia.
Qed.

(** C3. For a board of [GRID_HEIGHT] rows, [clearRows] returns the rows that
    are not full, in the order they had, below as many fresh rows of
    [GRID_WIDTH] [null] cells as the board has full rows; that number is the
    reported [rowsCleared], and the returned board has [GRID_HEIGHT] rows
    again (of full width, if those of the board were). *)
Theorem clearRows_spec board :
  hasHeight board →
  let cleared := length (filter fullRow board) in
  let remaining := filter (fun row => ¬ fullRow row) board in
  clearRows board
  = (replicate cleared (replicate (Z.to_nat GRID_WIDTH) Null) ++ remaining,
     Z.of_nat cleared)
  ∧ remaining `sublist_of` board
  ∧ hasHeight (clearRows board).1
  ∧ (hasWidth board → hasWidth (clearRows board).1).
Proof.
  intros Hh cleared remaining.
  destruct (clearRows_filter board Hh) as [Heq Hheight].
  split; [done|]. split; [apply sublist_filter|]. split; [done|].
  rewrite Heq. cbn [fst]. intros Hw. apply Forall_app. split.
  - apply Forall_replicate. by rewrite length_replicate.
  - apply Forall_forall. intros row Hrow.
    apply list_elem_of_filter in Hrow as [_ Hrow].
    by apply (proj1 (Forall_forall _ _) Hw).
Qed.

Lemma clearRows_spec_witness :
  hasHeight createEmptyBoard ∧
  let cleared := length (filter fullRow createEmptyBoard) in
  let remaining := filter (fun row => ¬ fullRow row) createEmptyBoard in
  clearRows createEmptyBoard
  = (replicate cleared (replicate (Z.to_nat GRID_WIDTH) Null) ++ remaining,
     Z.of_nat cleared)
  ∧ remaining `sublist_of` createEmptyBoard
  ∧ hasHeight (clearRows createEmptyBoard).1
  ∧ (hasWidth createEmptyBoard → hasWidth (clearRows createEmptyBoard).1).
Proof.
  split; [reflexivity|].
  apply (clearRows_spec createEmptyBoard). reflexivity.
Defined.

(** ** updateState: the no-op transitions *)

(** C6. Once [gameOver] is set, [updateState] returns the state it was
    given, whatever the action (one of the six or any other) and whatever
    the draw. *)
Theorem gameOver_absorbing state action randKey :
  gameOver state = true →
  updateState state action randKey = Return state.
Proof. intros Hover. unfold updateState. by rewrite Hover. Qed.

(** C8. When the placement that a "left", "right" or "rotate" action tests
    is invalid (at [x - 1], at [x + 1], or at the same [(x, y)] with the
    rotated shape), [updateState] returns the state it was given: nothing
    is thrown and no other offset is tried. *)
Theorem rejected_move_keeps_state state action randKey :
  rejected state action →
  updateState state action randKey = Return state.
Proof.
  intros Hrej. unfold updateState.
  destruct (gameOver state); [done|].
  destruct Hrej as [Hleft | Hright | rotatedShape Hrot Hplace].
  - change (named (mkAction "left") "tick") with false.
    change (named (mkAction "left") "down") with false.
    change (named (mkAction "left") "left") with true.
    simpl. by rewrite Hleft.
  - change (named (mkAction "right") "tick") with false.
    change (named (mkAction "right") "down") with false.
    change (named (mkAction "right") "left") with false.
    change (named (mkAction "right") "right") with true.
    simpl. by rewrite Hright.
  - change (named (mkAction "rotate") "tick") with false.
    change (named (mkAction "rotate") "down") with false.
    change (named (mkAction "rotate") "left") with false.
    change (named (mkAction "rotate") "right") with false.
    change (named (mkAction "rotate") "rotate") with true.
    simpl. rewrite Hrot. simpl. by rewrite Hplace.
Qed.

(** ** mergeTetromino *)

Lemma cellOf_setCell row boardX0 v boardX :
  0 ≤ boardX0 → 0 ≤ boardX →
  cellOf (setCell row boardX0 v) boardX
  = if decide (boardX = boardX0) then v else cellOf row boardX.
Proof.
  intros H0 HX. unfold cellOf, setCell.
  destruct (decide (Z.to_nat boardX0 < length row)%nat) as [Hlt | Hge].
  - destruct (decide (boardX = boardX0)) as [-> | Hne].
    + by rewrite list_lookup_insert_eq.
    + rewrite list_lookup_insert_ne; [done | lia].
  - destruct (decide (boardX = boardX0)) as [-> | Hne].
    + rewrite lookup_app_r; [|lia].
      rewrite lookup_app_r; rewrite length_replicate; [|lia].
      by replace (Z.to_nat boardX0 - length row - (Z.to_nat boardX0 - length row))%nat
        with 0%nat by lia.
    + destruct (decide (Z.to_nat boardX < length row)%nat) as [Hin | Hout].
      * by rewrite lookup_app_l.
      * rewrite (lookup_ge_None_2 row); [|lia].
        rewrite lookup_app_r; [|lia].
        destruct (decide (Z.to_nat boardX < Z.to_nat boardX0)%nat).
        -- rewrite lookup_app_l; [|rewrite length_replicate; lia].
           rewrite lookup_replicate_2; [done | lia].
        -- rewrite lookup_ge_None_2; [done|].
           rewrite length_app, length_replicate. simpl. lia.
Qed.

Lemma length_setCell row boardX v :
  0 ≤ boardX < GRID_WIDTH → length row = Z.to_nat GRID_WIDTH →
  length (setCell row boardX v) = Z.to_nat GRID_WIDTH.
Proof.
  intros HX Hlen. unfold setCell.
  rewrite decide_True by lia. by rewrite length_insert.
Qed.

Lemma paints_nil v board : paints v [] board board.
Proof.
  split; [done|]. split; [done|]. intros boardX boardY _ _.
  rewrite decide_False; [done|]. apply not_elem_of_nil.
Qed.

Lemma paints_write v board boardX0 boardY0 board' :
  0 ≤ boardX0 < GRID_WIDTH → 0 ≤ boardY0 →
  setBoard board boardX0 boardY0 v = Return board' →
  paints v [(boardX0, boardY0)] board board'.
Proof.
  intros HX0 HY0. unfold setBoard.
  destruct (board !! Z.to_nat boardY0) as [boardRow|] eqn:Hrow; [|done].
  intros [= <-]. split; [by rewrite length_insert|]. split.
  - intros Hw. apply Forall_insert; [done|].
    apply length_setCell; [done|].
    by apply (Forall_lookup_1 _ _ _ _ Hw Hrow).
  - intros boardX boardY HX HY. unfold boardCell.
    destruct (decide (boardY = boardY0)) as [-> | Hne].
    + rewrite list_lookup_insert_eq; [|by eapply lookup_lt_Some].
      rewrite Hrow, cellOf_setCell; [|lia|lia].
      destruct (decide (boardX = boardX0)) as [-> | HneX].
      * rewrite decide_True; [done|]. by apply list_elem_of_singleton.
      * rewrite decide_False; [done|].
        rewrite list_elem_of_singleton. congruence.
    + rewrite list_lookup_insert_ne; [|lia].
      rewrite decide_False; [done|].
      rewrite list_elem_of_singleton. congruence.
Qed.

Lemma paints_app v ws ws' board board' board'' :
  paints v ws board board' → paints v ws' board' board'' →
  paints v (ws ++ ws') board board''.
Proof.
  intros (Hlen & Hw & Hcell) (Hlen' & Hw' & Hcell').
  split; [congruence|]. split; [tauto|].
  intros boardX boardY HX HY.
  rewrite Hcell', Hcell by done.
  destruct (decide ((boardX, boardY) ∈ ws')) as [Hin' | Hnin'].
  - rewrite decide_True; [done|]. apply elem_of_app. by right.
  - destruct (decide ((boardX, boardY) ∈ ws)) as [Hin | Hnin].
    + rewrite decide_True; [done|]. apply elem_of_app. by left.
    + rewrite decide_False; [done|]. rewrite elem_of_app. tauto.
Qed.

Lemma mergeCols_paints block row cells :
  ∀ newBoard col, hasHeight newBoard →
  ∃ newBoard', mergeCols newBoard block row col cells = Return newBoard' ∧
    paints (Color (color (tetromino block))) (writtenCols block row col cells)
      newBoard newBoard'.
Proof.
  induction cells as [|v cells IH]; intros newBoard col Hh; simpl.
  - exists newBoard. split; [done|]. apply paints_nil.
  - destruct (truthy v); simpl.
    + destruct ((x block + col >=? 0) && (x block + col <? GRID_WIDTH) &&
                (y block + row >=? 0) && (y block + row <? GRID_HEIGHT)) eqn:Hb.
      * assert (Hin : inBounds (x block + col) (y block + row)).
        { unfold inBounds. rewrite !andb_true_iff in Hb. lia. }
        destruct (hasHeight_lookup newBoard (y block + row) Hh) as [boardRow Hrow];
          [apply Hin|].
        destruct (setBoard newBoard (x block + col) (y block + row)
                    (Color (color (tetromino block)))) as [board1| |] eqn:Hset;
          try (unfold setBoard in Hset; rewrite Hrow in Hset; done).
        simpl.
        pose proof (paints_write _ _ _ _ _ (proj1 Hin) (proj1 (proj2 Hin)) Hset)
          as Hp1.
        destruct (IH board1 (col + 1)) as (newBoard' & Heq & Hp).
        { unfold hasHeight in *. destruct Hp1 as [-> _]. done. }
        exists newBoard'. split; [done|].
        exact (paints_app _ [(x block + col, y block + row)] _ _ _ _ Hp1 Hp).
      * destruct (IH newBoard (col + 1) Hh) as (newBoard' & Heq & Hp).
        exists newBoard'. by split.
    + destruct (IH newBoard (col + 1) Hh) as (newBoard' & Heq & Hp).
      exists newBoard'. by split.
Qed.

Lemma mergeRows_paints block rows :
  ∀ newBoard row, hasHeight newBoard →
  ∃ newBoard', mergeRows newBoard block row rows = Return newBoard' ∧
    paints (Color (color (tetromino block))) (writtenRows block row rows)
      newBoard newBoard'.
Proof.
  induction rows as [|cells rows IH]; intros newBoard row Hh; simpl.
  - exists newBoard. split; [done|]. apply paints_nil.
  - destruct (mergeCols_paints block row cells newBoard 0 Hh)
      as (board1 & Heq1 & Hp1).
    rewrite Heq1. simpl.
    destruct (IH board1 (row + 1)) as (newBoard' & Heq & Hp).
    { unfold hasHeight in *. destruct Hp1 as [-> _]. done. }
    exists newBoard'. split; [done|]. by eapply paints_app.
Qed.

Lemma elem_of_writtenCols block row cells boardX boardY :
  ∀ col,
  (boardX, boardY) ∈ writtenCols block row col cells ↔
  inBounds boardX boardY ∧ boardY = y block + row ∧
  ∃ (k : nat) v, cells !! k = Some v ∧ truthy v = true ∧
    boardX = x block + (col + Z.of_nat k).
Proof.
  induction cells as [|v cells IH]; intros col; simpl.
  - split; [by intros ?%not_elem_of_nil|]. intros (_ & _ & k & v & Hk & _). done.
  - rewrite elem_of_app, IH. split.
    + intros [Hhere | (Hin & HY & k & w & Hk & Hw & HX)].
      * destruct (truthy v) eqn:Hv; simpl in Hhere;
          [|by apply not_elem_of_nil in Hhere].
        destruct ((x block + col >=? 0) && (x block + col <? GRID_WIDTH) &&
                  (y block + row >=? 0) && (y block + row <? GRID_HEIGHT)) eqn:Hb;
          [|by apply not_elem_of_nil in Hhere].
        apply list_elem_of_singleton in Hhere. injection Hhere as -> ->.
        split; [unfold inBounds; rewrite !andb_true_iff in Hb; lia|].
        split; [done|]. exists 0%nat, v. split; [done|]. split; [done|]. lia.
      * split; [done|]. split; [done|]. exists (S k), w.
        split; [done|]. split; [done|]. lia.
    + intros (Hin & HY & [|k] & w & Hk & Hw & HX); simpl in Hk.
      * left. simplify_eq. rewrite Hw. simpl.
        replace (x block + (col + Z.of_nat 0)) with (x block + col) in * by lia.
        assert (Hb : (x block + col >=? 0) && (x block + col <? GRID_WIDTH) &&
                  (y block + row >=? 0) && (y block + row <? GRID_HEIGHT) = true).
        { unfold inBounds in Hin. rewrite !andb_true_iff. lia. }
        rewrite Hb. by apply list_elem_of_singleton.
      * right. split; [done|]. split; [done|]. exists k, w.
        split; [done|]. split; [done|]. lia.
Qed.

Lemma elem_of_writtenRows block rows boardX boardY :
  ∀ row,
  (boardX, boardY) ∈ writtenRows block row rows ↔
  inBounds boardX boardY ∧
  ∃ (r c : nat), occupiedAt rows r c ∧
    boardX = x block + Z.of_nat c ∧ boardY = y block + (row + Z.of_nat r).
Proof.
  induction rows as [|cells rows IH]; intros row; simpl.
  - split; [by intros ?%not_elem_of_nil|].
    intros (_ & r & c & (cs & v & Hr & _) & _). done.
  - rewrite elem_of_app, IH, elem_of_writtenCols. split.
    + intros [(Hin & HY & k & v & Hk & Hv & HX) | (Hin & r & c & Hocc & HX & HY)].
      * split; [done|]. exists 0%nat, k. split; [by exists cells, v|]. lia.
      * split; [done|]. destruct Hocc as (cs & v & Hr & Hc & Hv).
        exists (S r), c. split; [by exists cs, v|]. lia.
    + intros (Hin & [|r] & c & (cs & v & Hr & Hc & Hv) & HX & HY); simpl in Hr.
      * left. simplify_eq. split; [done|]. split; [lia|].
        exists c, v. split; [done|]. split; [done|]. lia.
      * right. split; [done|]. exists r, c. split; [by exists cs, v|]. lia.
Qed.

(** The pure reading of C7: what [mergeTetromino] returns, cell by cell. *)
Lemma mergeTetromino_cells board block :
  hasHeight board →
  ∃ newBoard, mergeTetromino board block = Return newBoard ∧
    length newBoard = length board ∧
    (hasWidth board → hasWidth newBoard) ∧
    ∀ boardX boardY, 0 ≤ boardX → 0 ≤ boardY →
      (coveredBy block boardX boardY ∧ inBounds boardX boardY →
       boardCell newBoard boardX boardY = Color (color (tetromino block))) ∧
      (¬ (coveredBy block boardX boardY ∧ inBounds boardX boardY) →
       boardCell newBoard boardX boardY = boardCell board boardX boardY).
Proof.
  intros Hh. unfold mergeTetromino. rewrite map_id.
  destruct (mergeRows_paints block (shape (tetromino block)) board 0 Hh)
    as (newBoard & Heq & Hlen & Hw & Hcell).
  exists newBoard. split; [done|]. split; [done|]. split; [done|].
  intros boardX boardY HX HY. rewrite Hcell by done.
  assert (Hiff : (boardX, boardY) ∈ writtenRows block 0 (shape (tetromino block))
                 ↔ coveredBy block boardX boardY ∧ inBounds boardX boardY).
  { rewrite elem_of_writtenRows. unfold coveredBy.
    setoid_rewrite Z.add_0_l. tauto. }
  split; intros Hc.
  - rewrite decide_True; [done|]. by apply Hiff.
  - rewrite decide_False; [done|]. by rewrite Hiff.
Qed.

(** ** rotate *)

Lemma setEntry_rect N M rotated j k v :
  rect N M rotated → rect N M (setEntry rotated j k v).
Proof.
  intros [Hlen Hrows]. unfold setEntry. split; [by rewrite length_alter|].
  apply Forall_lookup. intros i row Hi.
  destruct (decide (i = j)) as [-> | Hne].
  - rewrite list_lookup_alter_eq in Hi.
    destruct (rotated !! j) as [row0|] eqn:Hj; simplify_eq/=.
    rewrite length_insert. by apply (Forall_lookup_1 _ _ _ _ Hrows Hj).
  - rewrite list_lookup_alter_ne in Hi by done.
    by apply (Forall_lookup_1 _ _ _ _ Hrows Hi).
Qed.

Lemma entry_setEntry N M rotated j k v j' k' :
  rect N M rotated → (j < N)%nat → (k < M)%nat →
  entry (setEntry rotated j k v) j' k'
  = if decide (j' = j ∧ k' = k) then v else entry rotated j' k'.
Proof.
  intros [Hlen Hrows] Hj Hk. unfold entry, setEntry.
  destruct (decide (j' = j)) as [-> | Hne].
  - rewrite list_lookup_alter_eq.
    destruct (lookup_lt_is_Some_2 rotated j) as [row Hrow]; [lia|].
    rewrite Hrow. simpl.
    pose proof (Forall_lookup_1 _ _ _ _ Hrows Hrow) as Hrowlen. simpl in Hrowlen.
    destruct (decide (k' = k)) as [-> | Hnek].
    + rewrite decide_True by done.
      rewrite list_lookup_insert_eq; [done | lia].
    + rewrite decide_False by tauto.
      by rewrite list_lookup_insert_ne.
  - rewrite list_lookup_alter_ne by done.
    rewrite decide_False by tauto. done.
Qed.

(** The inner loop of [rotate] for the row [i] of the matrix: column [c] of
    [rotated] receives [f j] at each row [j] visited. *)
Lemma rotate_inner N M (f : nat → number) c js :
  (c < M)%nat → Forall (fun j => (j < N)%nat) js →
  ∀ rotated, rect N M rotated →
  let rotated' := foldl (fun rotated j => setEntry rotated j c (f j)) rotated js in
  rect N M rotated' ∧
  ∀ j' k', entry rotated' j' k'
           = if decide (k' = c ∧ j' ∈ js) then f j' else entry rotated j' k'.
Proof.
  intros Hc. induction js as [|j js IH]; intros Hjs rotated Hrect; simpl.
  - split; [done|]. intros j' k'. rewrite decide_False; [done|].
    intros [_ Hin]. by apply not_elem_of_nil in Hin.
  - apply Forall_cons in Hjs as [Hj Hjs].
    destruct (IH Hjs (setEntry rotated j c (f j))) as [Hrect' Hentry];
      [by apply setEntry_rect|].
    split; [done|]. intros j' k'. rewrite Hentry.
    rewrite (entry_setEntry N M) by done.
    destruct (decide (k' = c ∧ j' ∈ js)) as [[-> Hin] | Hnin].
    + rewrite decide_True; [done|]. split; [done|]. by apply elem_of_cons; right.
    + destruct (decide (j' = j ∧ k' = c)) as [[-> ->] | Hne].
      * rewrite decide_True; [done|]. split; [done|]. by apply elem_of_cons; left.
      * rewrite decide_False; [done|]. rewrite elem_of_cons. tauto.
Qed.

(** The outer loop: after the rows [ixs] of the matrix, the columns
    [n - 1 - i] of [rotated] hold them. *)
Lemma rotate_outer (matrix : Matrix) n m ixs :
  Forall (fun i => (i < n)%nat) ixs →
  ∀ rotated, rect m n rotated →
  let rotated' :=
    foldl (fun rotated i =>
             foldl (fun rotated j =>
                      setEntry rotated j (n - 1 - i)%nat (entry matrix i j))
                   rotated (seq 0 m))
          rotated ixs in
  rect m n rotated' ∧
  ∀ j' k', (j' < m)%nat → (k' < n)%nat →
    entry rotated' j' k'
    = if decide ((n - 1 - k')%nat ∈ ixs) then entry matrix (n - 1 - k') j'
      else entry rotated j' k'.
Proof.
  induction ixs as [|i ixs IH]; intros Hixs rotated Hrect; cbv zeta; cbn [foldl].
  - split; [done|]. intros j' k' _ _. rewrite decide_False; [done|].
    apply not_elem_of_nil.
  - apply Forall_cons in Hixs as [Hi Hixs].
    destruct (rotate_inner m n (entry matrix i) (n - 1 - i) (seq 0 m))
      with (rotated := rotated) as [Hrect1 Hentry1]; [lia| |done|].
    { apply Forall_forall. intros j Hj. apply elem_of_seq in Hj. lia. }
    destruct (IH Hixs _ Hrect1) as [Hrect' Hentry'].
    split; [done|]. intros j' k' Hj' Hk'.
    rewrite Hentry' by done. rewrite Hentry1.
    destruct (decide ((n - 1 - k')%nat ∈ ixs)) as [Hin | Hnin].
    + rewrite decide_True; [done|]. by apply elem_of_cons; right.
    + destruct (decide (k' = (n - 1 - i)%nat ∧ j' ∈ seq 0 m)) as [[-> _] | Hne].
      * rewrite decide_True; [|apply elem_of_cons; left; lia].
        by replace (n - 1 - (n - 1 - i))%nat with i by lia.
      * rewrite decide_False; [done|]. rewrite elem_of_cons.
        intros [Heq | Hin]; [|done]. apply Hne. split; [lia|].
        apply elem_of_seq. lia.
Qed.

(** What [rotate] returns for a matrix that has a first row, rectangular or
    not: [m] rows of [n] entries, the reads of the matrix turned clockwise. *)
Lemma rotate_entries row0 rows :
  let matrix := row0 :: rows in
  let n := length matrix in
  let m := length row0 in
  ∃ rotated, rotate matrix = Return rotated ∧ rect m n rotated ∧
    ∀ i j, (i < n)%nat → (j < m)%nat →
      entry rotated j (n - 1 - i) = entry matrix i j.
Proof.
  intros matrix n m. unfold rotate. fold matrix n m.
  destruct (rotate_outer matrix n m (seq 0 n))
    with (rotated := replicate m (replicate n (Num 0))) as [Hrect Hentry].
  { apply Forall_forall. intros i Hi. apply elem_of_seq in Hi. lia. }
  { split; [by rewrite length_replicate|].
    apply Forall_replicate. by rewrite length_replicate. }
  eexists. split; [done|]. split; [done|].
  intros i j Hi Hj. rewrite Hentry by lia.
  rewrite decide_True; [|apply elem_of_seq; lia].
  by replace (n - 1 - (n - 1 - i))%nat with i by lia.
Qed.

Lemma occupiedAt_entry matrix row col :
  occupiedAt matrix row col ↔ truthy (entry matrix row col) = true.
Proof.
  unfold occupiedAt, entry. split.
  - intros (cells & v & -> & Hc & Hv). by rewrite Hc.
  - destruct (matrix !! row) as [cells|]; [|done].
    destruct (cells !! col) as [v|] eqn:Hc; [|done]. simpl. eauto.
Qed.

Lemma occupiedAt_rect N M matrix row col :
  rect N M matrix → occupiedAt matrix row col → (row < N)%nat ∧ (col < M)%nat.
Proof.
  intros [Hlen Hrows] (cells & v & Hr & Hc & _).
  pose proof (Forall_lookup_1 _ _ _ _ Hrows Hr) as Hcells. simpl in Hcells.
  apply lookup_lt_Some in Hr, Hc. lia.
Qed.

Lemma rotate_wellShaped matrix :
  wellShaped matrix →
  ∃ rotated, rotate matrix = Return rotated ∧ wellShaped rotated.
Proof.
  intros (N & M & HN & HM & Hrect & row & col & Hocc).
  destruct (occupiedAt_rect _ _ _ _ _ Hrect Hocc) as [Hrow Hcol].
  destruct Hrect as [Hlen Hrows].
  destruct matrix as [|row0 rows]; [simpl in Hlen; lia|].
  assert (Hrow0 : length row0 = M) by (by apply Forall_cons in Hrows as [? _]).
  destruct (rotate_entries row0 rows) as (rotated & Heq & Hrect' & Hentry).
  rewrite Hlen, Hrow0 in Hrect', Hentry.
  exists rotated. split; [done|]. exists M, N.
  split; [done|]. split; [done|]. split; [done|].
  exists col, (N - 1 - row)%nat. apply occupiedAt_entry.
  rewrite Hentry by done. by apply occupiedAt_entry.
Qed.

Lemma randomTetromino_wellShaped randKey :
  wellShaped (shape (randomTetromino randKey)).
Proof.
  destruct randKey; simpl.
  - exists 4%nat, 4%nat. split; [lia|]. split; [lia|].
    split; [split; [done | by repeat constructor]|].
    exists 1%nat, 0%nat. by eexists _, _.
  - exists 2%nat, 2%nat. split; [lia|]. split; [lia|].
    split; [split; [done | by repeat constructor]|].
    exists 0%nat, 0%nat. by eexists _, _.
  - exists 3%nat, 3%nat. split; [lia|]. split; [lia|].
    split; [split; [done | by repeat constructor]|].
    exists 1%nat, 0%nat. by eexists _, _.
  - exists 3%nat, 3%nat. split; [lia|]. split; [lia|].
    split; [split; [done | by repeat constructor]|].
    exists 1%nat, 0%nat. by eexists _, _.
  - exists 3%nat, 3%nat. split; [lia|]. split; [lia|].
    split; [split; [done | by repeat constructor]|].
    exists 0%nat, 0%nat. by eexists _, _.
  - exists 3%nat, 3%nat. split; [lia|]. split; [lia|].
    split; [split; [done | by repeat constructor]|].
    exists 1%nat, 0%nat. by eexists _, _.
  - exists 3%nat, 3%nat. split; [lia|]. split; [lia|].
    split; [split; [done | by repeat constructor]|].
    exists 1%nat, 0%nat. by eexists _, _.
Qed.

(** ** More on canPlaceTetromino: what the "drop" loop needs *)

Lemma canPlaceTetromino_returns board tetromino posX posY :
  hasHeight board →
  ∃ fits, canPlaceTetromino board tetromino posX posY = Return fits.
Proof.
  intros Hh.
  destruct (canPlaceRows_spec board posX posY (shape tetromino) Hh 0)
    as (fits & Heq & _).
  by exists fits.
Qed.

Lemma canPlaceCols_true board posX posY row cells :
  ∀ col (k : nat) v,
  canPlaceCols board posX posY row col cells = Return true →
  cells !! k = Some v → truthy v = true →
  inBounds (posX + (col + Z.of_nat k)) (posY + row).
Proof.
  induction cells as [|w cells IH]; intros col k v Hfit Hk Hv; [done|].
  simpl in Hfit. destruct k as [|k]; simpl in Hk.
  - simplify_eq. rewrite Hv in Hfit.
    destruct ((posX + col <? 0) || (posX + col >=? GRID_WIDTH) ||
              (posY + row <? 0) || (posY + row >=? GRID_HEIGHT)) eqn:Hb;
      [done|].
    apply inBounds_test in Hb. by replace (col + Z.of_nat 0) with col by lia.
  - replace (col + Z.of_nat (S k)) with (col + 1 + Z.of_nat k) by lia.
    apply (IH (col + 1) k v); [|done|done].
    destruct (truthy w); [|done].
    destruct ((posX + col <? 0) || (posX + col >=? GRID_WIDTH) ||
              (posY + row <? 0) || (posY + row >=? GRID_HEIGHT)); [done|].
    destruct (board !! Z.to_nat (posY + row)); [|done].
    by destruct (notNull _).
Qed.

Lemma canPlaceRows_true board posX posY rows :
  ∀ row (r c : nat),
  canPlaceRows board posX posY row rows = Return true →
  occupiedAt rows r c →
  inBounds (posX + Z.of_nat c) (posY + (row + Z.of_nat r)).
Proof.
  induction rows as [|cells rows IH]; intros row r c Hfit (cs & v & Hr & Hc & Hv);
    [done|].
  simpl in Hfit. apply bind_Return in Hfit as (fits0 & Hcols & Hrest).
  destruct fits0; [|done].
  destruct r as [|r]; simpl in Hr.
  - simplify_eq. replace (row + Z.of_nat 0) with row by lia.
    by apply (canPlaceCols_true _ _ _ _ _ 0 c v Hcols).
  - replace (row + Z.of_nat (S r)) with (row + 1 + Z.of_nat r) by lia.
    apply IH; [done|]. by exists cs, v.
Qed.

Lemma canPlaceTetromino_true_inBounds board tetromino posX posY row col :
  canPlaceTetromino board tetromino posX posY = Return true →
  occupiedAt (shape tetromino) row col →
  inBounds (posX + Z.of_nat col) (posY + Z.of_nat row).
Proof.
  intros Hfit Hocc.
  by apply (canPlaceRows_true _ _ _ _ 0 row col Hfit Hocc).
Qed.

Lemma canPlaceCols_falsy board posX posY row cells :
  existsb truthy cells = false →
  ∀ col, canPlaceCols board posX posY row col cells = Return true.
Proof.
  induction cells as [|v cells IH]; intros Hf col; [done|].
  simpl in *. apply orb_false_iff in Hf as [-> Hf]. by apply IH.
Qed.

Lemma canPlaceRows_falsy board posX posY rows :
  hasOccupied rows = false →
  ∀ row, canPlaceRows board posX posY row rows = Return true.
Proof.
  unfold hasOccupied.
  induction rows as [|cells rows IH]; intros Hf row; [done|].
  simpl in *. apply orb_false_iff in Hf as [Hcells Hf].
  rewrite canPlaceCols_falsy by done. simpl. by apply IH.
Qed.

Lemma hasOccupied_true matrix :
  hasOccupied matrix = true ↔ ∃ row col, occupiedAt matrix row col.
Proof.
  unfold hasOccupied, occupiedAt. rewrite existsb_exists. split.
  - intros (cells & Hin & Hex). apply existsb_exists in Hex as (v & Hv & Ht).
    apply list_elem_of_In, list_elem_of_lookup in Hin as [row Hrow].
    apply list_elem_of_In, list_elem_of_lookup in Hv as [col Hcol].
    by exists row, col, cells, v.
  - intros (row & col & cells & v & Hrow & Hcol & Hv).
    exists cells. split.
    + apply list_elem_of_In, list_elem_of_lookup. by exists row.
    + apply existsb_exists. exists v. split; [|done].
      apply list_elem_of_In, list_elem_of_lookup. by exists col.
Qed.

(** ** The loop of the "drop" case *)

Lemma canPlaceCols_not_Hang board posX posY row cells :
  ∀ col, canPlaceCols board posX posY row col cells ≠ Hang.
Proof.
  induction cells as [|v cells IH]; intros col; simpl; [done|].
  destruct (truthy v); [|done].
  destruct (_ || _); [done|].
  destruct (board !! _); [|done].
  by destruct (notNull _).
Qed.

Lemma canPlaceTetromino_not_Hang board tetromino posX posY :
  canPlaceTetromino board tetromino posX posY ≠ Hang.
Proof.
  unfold canPlaceTetromino. generalize 0.
  induction (shape tetromino) as [|cells rows IH]; intros row; simpl; [done|].
  pose proof (canPlaceCols_not_Hang board posX posY row cells 0) as Hcols.
  destruct (canPlaceCols board posX posY row 0 cells) as [[|]| |]; simpl; done.
Qed.

Lemma dropLoop_S fuel board block dropY :
  dropLoop (S fuel) board block dropY
  = let* fits := canPlaceTetromino board (tetromino block) (x block) (dropY + 1) in
    if fits then dropLoop fuel board block (dropY + 1) else Return dropY.
Proof. done. Qed.

(** While the block has a truthy entry in its row [row], the condition of
    the loop can only hold as long as that entry stays above the floor. *)
Lemma dropLoop_falling board block row col :
  occupiedAt (shape (tetromino block)) row col → hasHeight board →
  ∀ fuel dropY,
  Z.max 0 (GRID_HEIGHT - Z.of_nat row - (dropY + 1)) < Z.of_nat fuel →
  ∃ restY, dropLoop fuel board block dropY = Return restY ∧ dropY ≤ restY ∧
    canPlaceTetromino board (tetromino block) (x block) (restY + 1) = Return false ∧
    ∀ y', dropY < y' ≤ restY →
      canPlaceTetromino board (tetromino block) (x block) y' = Return true.
Proof.
  intros Hocc Hh. induction fuel as [|fuel IH]; intros dropY Hfuel; [lia|].
  simpl.
  destruct (canPlaceTetromino_returns board (tetromino block) (x block)
              (dropY + 1) Hh) as [fits Hfits].
  rewrite Hfits. simpl. destruct fits.
  - pose proof (canPlaceTetromino_true_inBounds _ _ _ _ _ _ Hfits Hocc) as [_ Hin].
    destruct (IH (dropY + 1)) as (restY & Heq & Hle & Hstop & Hfall); [lia|].
    exists restY. split; [done|]. split; [lia|]. split; [done|].
    intros y' Hy'. destruct (decide (y' = dropY + 1)) as [-> | Hne]; [done|].
    apply Hfall. lia.
  - exists dropY. split; [done|]. split; [lia|]. split; [done|]. intros y' Hy'. lia.
Qed.

Lemma dropLoop_returns board block row col dropY :
  occupiedAt (shape (tetromino block)) row col → hasHeight board →
  ∃ restY, dropLoop dropFuel board block dropY = Return restY ∧ dropY ≤ restY ∧
    canPlaceTetromino board (tetromino block) (x block) (restY + 1) = Return false ∧
    ∀ y', dropY < y' ≤ restY →
      canPlaceTetromino board (tetromino block) (x block) y' = Return true.
Proof.
  intros Hocc Hh. unfold dropFuel.
  change (Z.to_nat GRID_HEIGHT) with 20%nat. rewrite dropLoop_S.
  destruct (canPlaceTetromino_returns board (tetromino block) (x block)
              (dropY + 1) Hh) as [fits Hfits].
  rewrite Hfits. cbn [bind]. destruct fits.
  - pose proof (canPlaceTetromino_true_inBounds _ _ _ _ _ _ Hfits Hocc) as [_ Hin].
    destruct (dropLoop_falling board block row col Hocc Hh 20 (dropY + 1))
      as (restY & Heq & Hle & Hstop & Hfall).
    { unfold GRID_HEIGHT in *. lia. }
    exists restY. split; [done|]. split; [lia|]. split; [done|].
    intros y' Hy'. destruct (decide (y' = dropY + 1)) as [-> | Hne]; [done|].
    apply Hfall. lia.
  - exists dropY. split; [done|]. split; [lia|]. split; [done|]. intros y' Hy'. lia.
Qed.

Lemma dropLoop_not_Hang board block row col :
  occupiedAt (shape (tetromino block)) row col →
  ∀ fuel dropY,
  Z.max 0 (GRID_HEIGHT - Z.of_nat row - (dropY + 1)) < Z.of_nat fuel →
  dropLoop fuel board block dropY ≠ Hang.
Proof.
  intros Hocc. induction fuel as [|fuel IH]; intros dropY Hfuel; [lia|].
  simpl.
  pose proof (canPlaceTetromino_not_Hang board (tetromino block) (x block)
                (dropY + 1)) as HnH.
  destruct (canPlaceTetromino board (tetromino block) (x block) (dropY + 1))
    as [[|]| |] eqn:Hfits; simpl; try done.
  pose proof (canPlaceTetromino_true_inBounds _ _ _ _ _ _ Hfits Hocc) as [_ Hin].
  apply IH. lia.
Qed.

Lemma dropLoop_more_fuel board block :
  ∀ fuel fuel' dropY,
  dropLoop fuel board block dropY ≠ Hang → (fuel ≤ fuel')%nat →
  dropLoop fuel' board block dropY = dropLoop fuel board block dropY.
Proof.
  induction fuel as [|fuel IH]; intros fuel' dropY HnH Hle; [done|].
  destruct fuel' as [|fuel']; [lia|]. simpl in *.
  destruct (canPlaceTetromino board (tetromino block) (x block) (dropY + 1))
    as [[|]| |]; simpl in *; try done.
  apply IH; [done | lia].
Qed.

Lemma dropLoop_Hang board block :
  hasOccupied (shape (tetromino block)) = false →
  ∀ fuel dropY, dropLoop fuel board block dropY = Hang.
Proof.
  intros Hf. induction fuel as [|fuel IH]; intros dropY; [done|]. simpl.
  unfold canPlaceTetromino. rewrite canPlaceRows_falsy by done. simpl.
  apply IH.
Qed.

(** The fuel of [updateState] decides the loop: more fuel never changes its
    outcome, so [Hang] stands for a loop that does not exit. *)
Lemma dropLoop_fuel board block dropY fuel :
  (dropFuel ≤ fuel)%nat →
  dropLoop fuel board block dropY = dropLoop dropFuel board block dropY.
Proof.
  intros Hle.
  destruct (hasOccupied (shape (tetromino block))) eqn:Hocc.
  - apply hasOccupied_true in Hocc as (row & col & Hocc).
    apply dropLoop_more_fuel; [|done].
    unfold dropFuel. change (Z.to_nat GRID_HEIGHT) with 20%nat. rewrite dropLoop_S.
    pose proof (canPlaceTetromino_not_Hang board (tetromino block) (x block)
                  (dropY + 1)) as HnH.
    destruct (canPlaceTetromino board (tetromino block) (x block) (dropY + 1))
      as [[|]| |] eqn:Hfits; cbn [bind]; try done.
    pose proof (canPlaceTetromino_true_inBounds _ _ _ _ _ _ Hfits Hocc) as [_ Hin].
    apply (dropLoop_not_Hang board block row col Hocc).
    unfold GRID_HEIGHT in *. lia.
  - by rewrite !dropLoop_Hang.
Qed.

(** ** updateState, case by case *)

Lemma updateState_tick state action randKey :
  gameOver state = false →
  named action "tick" || named action "down" = true →
  updateState state action randKey
  = let* fits := canPlaceTetromino (board state) (tetromino (currentBlock state))
                   (x (currentBlock state)) (y (currentBlock state) + 1) in
    if fits then
      Return (withBlock state
                (withY (currentBlock state) (y (currentBlock state) + 1)))
    else lockSequence state (currentBlock state) randKey.
Proof. intros Hover Hname. unfold updateState. by rewrite Hover, Hname. Qed.

Lemma updateState_drop state action randKey :
  gameOver state = false →
  named action "tick" || named action "down" = false →
  named action "left" = false → named action "right" = false →
  named action "rotate" = false → named action "drop" = true →
  updateState state action randKey
  = let* dropY := dropLoop dropFuel (board state) (currentBlock state)
                    (y (currentBlock state)) in
    lockSequence state (withY (currentBlock state) dropY) randKey.
Proof.
  intros Hover H1 H2 H3 H4 H5. unfold updateState.
  by rewrite Hover, H1, H2, H3, H4, H5.
Qed.

(** What the lock sequence returns, in terms of the board that
    [mergeTetromino] returns. *)
Lemma lockSequence_returns state block randKey row0 rows :
  hasHeight (board state) →
  shape (nextTetromino state) = row0 :: rows →
  ∃ merged fits,
    mergeTetromino (board state) block = Return merged ∧
    hasHeight merged ∧
    let cleared := length (filter fullRow merged) in
    let clearedBoard :=
      replicate cleared (replicate (Z.to_nat GRID_WIDTH) Null)
        ++ filter (fun row => ¬ fullRow row) merged in
    let spawned :=
      {| tetromino := nextTetromino state;
         x := (GRID_WIDTH - Z.of_nat (length row0)) `div` 2;
         y := 0 |} in
    hasHeight clearedBoard ∧
    canPlaceTetromino clearedBoard (nextTetromino state) (x spawned) 0
      = Return fits ∧
    lockSequence state block randKey
    = Return {| board := clearedBoard;
                currentBlock := spawned;
                nextTetromino := randomTetromino randKey;
                gameOver := negb fits;
                score := score state + Z.of_nat cleared * 100 |}.
Proof.
  intros Hh Hnext.
  destruct (mergeTetromino_cells (board state) block Hh)
    as (merged & Hmerge & Hlen & _).
  assert (Hhm : hasHeight merged) by (unfold hasHeight in *; by rewrite Hlen).
  destruct (clearRows_filter merged Hhm) as [Hclear Hhc].
  rewrite Hclear in Hhc. cbn [fst] in Hhc.
  destruct (canPlaceTetromino_returns _ (nextTetromino state)
              ((GRID_WIDTH - Z.of_nat (length row0)) `div` 2) 0 Hhc)
    as [fits Hfits].
  exists merged, fits. split; [done|]. split; [done|].
  split; [done|]. split; [done|].
  unfold lockSequence. rewrite Hmerge. cbn [bind]. rewrite Hclear.
  unfold spawnNewBlock. rewrite Hnext. cbn [bind tetromino x y].
  rewrite Hfits. cbn [bind]. by destruct fits.
Qed.

Lemma named_true action name : named action name = true ↔ type action = name.
Proof. unfold named. apply String.eqb_eq. Qed.

(** C1. In a running game whose board has its rows, whose queued piece has
    a first row and whose score is a safe integer that stays one when 100
    times [GRID_HEIGHT] is added, a "tick" or "down" action on a block that
    cannot move to [(x, y + 1)] returns the locked state. The block is
    merged: the board [merged] has the rows of the board, with the colour of
    the block in the cells that a truthy entry of its shape maps to inside
    the bounds and every other cell as it was. The full rows of [merged]
    are removed and as many empty rows put on top, the score grows by 100
    times their number, the queued piece becomes the active block at
    [x = floor((W - pieceWidth) / 2)], [y = 0], the piece of the drawn key
    becomes the preview, and [gameOver] is set exactly when the new block
    cannot be placed on the cleared board. *)
Theorem lock_sequence state action randKey row0 rows :
  gameOver state = false →
  type action = "tick" ∨ type action = "down" →
  hasHeight (board state) →
  shape (nextTetromino state) = row0 :: rows →
  safeInteger (score state) →
  safeInteger (score state + GRID_HEIGHT * 100) →
  canPlaceTetromino (board state) (tetromino (currentBlock state))
    (x (currentBlock state)) (y (currentBlock state) + 1) = Return false →
  ∃ merged fits,
    mergeTetromino (board state) (currentBlock state) = Return merged ∧
    length merged = length (board state) ∧
    (∀ boardX boardY, 0 ≤ boardX → 0 ≤ boardY →
       (coveredBy (currentBlock state) boardX boardY ∧ inBounds boardX boardY →
        boardCell merged boardX boardY
        = Color (color (tetromino (currentBlock state)))) ∧
       (¬ (coveredBy (currentBlock state) boardX boardY
           ∧ inBounds boardX boardY) →
        boardCell merged boardX boardY = boardCell (board state) boardX boardY)) ∧
    let rowsCleared := length (filter fullRow merged) in
    let clearedBoard :=
      replicate rowsCleared (replicate (Z.to_nat GRID_WIDTH) Null)
        ++ filter (fun row => ¬ fullRow row) merged in
    let pieceWidth := Z.of_nat (length row0) in
    let spawned :=
      {| tetromino := nextTetromino state;
         x := (GRID_WIDTH - pieceWidth) `div` 2;
         y := 0 |} in
    Z.of_nat rowsCleared ≤ GRID_HEIGHT ∧
    safeInteger (score state + Z.of_nat rowsCleared * 100) ∧
    randomTetromino randKey = TETROMINOES randKey ∧
    canPlaceTetromino clearedBoard (tetromino spawned) (x spawned) (y spawned)
      = Return fits ∧
    updateState state action randKey
    = Return {| board := clearedBoard;
                currentBlock := spawned;
                nextTetromino := randomTetromino randKey;
                gameOver := negb fits;
                score := score state + Z.of_nat rowsCleared * 100 |}.
Proof.
  intros Hover Haction Hh Hnext Hscore Hscore' Hland.
  destruct (lockSequence_returns state (currentBlock state) randKey row0 rows
              Hh Hnext) as (merged & fits & Hmerge & Hhm & _ & Hfits & Hlock).
  destruct (mergeTetromino_cells (board state) (currentBlock state) Hh)
    as (merged' & Hmerge' & Hlen & _ & Hcells).
  rewrite Hmerge in Hmerge'. injection Hmerge' as <-.
  assert (Hcleared : Z.of_nat (length (filter fullRow merged)) ≤ GRID_HEIGHT).
  { pose proof (length_filter fullRow merged) as Hle.
    unfold hasHeight in Hhm. lia. }
  exists merged, fits. split; [done|]. split; [done|]. split; [done|].
  split; [done|]. split.
  { unfold safeInteger in *. lia. }
  split; [by destruct randKey|]. split; [done|].
  rewrite updateState_tick, Hland; [done | done |].
  apply orb_true_iff. rewrite !named_true. done.
Qed.

Lemma lock_sequence_witness :
  gameOver landedO = false ∧
  safeInteger (score landedO) ∧
  safeInteger (score landedO + GRID_HEIGHT * 100) ∧
  canPlaceTetromino (board landedO) (tetromino (currentBlock landedO))
    (x (currentBlock landedO)) (y (currentBlock landedO) + 1) = Return false ∧
  ∃ merged fits,
    mergeTetromino (board landedO) (currentBlock landedO) = Return merged ∧
    length merged = length (board landedO) ∧
    (∀ boardX boardY, 0 ≤ boardX → 0 ≤ boardY →
       (coveredBy (currentBlock landedO) boardX boardY ∧ inBounds boardX boardY →
        boardCell merged boardX boardY
        = Color (color (tetromino (currentBlock landedO)))) ∧
       (¬ (coveredBy (currentBlock landedO) boardX boardY
           ∧ inBounds boardX boardY) →
        boardCell merged boardX boardY
        = boardCell (board landedO) boardX boardY)) ∧
    let rowsCleared := length (filter fullRow merged) in
    let clearedBoard :=
      replicate rowsCleared (replicate (Z.to_nat GRID_WIDTH) Null)
        ++ filter (fun row => ¬ fullRow row) merged in
    let pieceWidth := 3 in
    let spawned :=
      {| tetromino := nextTetromino landedO;
         x := (GRID_WIDTH - pieceWidth) `div` 2;
         y := 0 |} in
    Z.of_nat rowsCleared ≤ GRID_HEIGHT ∧
    safeInteger (score landedO + Z.of_nat rowsCleared * 100) ∧
    randomTetromino Key.L = TETROMINOES Key.L ∧
    canPlaceTetromino clearedBoard (tetromino spawned) (x spawned) (y spawned)
      = Return fits ∧
    updateState landedO (mkAction "tick") Key.L
    = Return {| board := clearedBoard;
                currentBlock := spawned;
                nextTetromino := randomTetromino Key.L;
                gameOver := negb fits;
                score := score landedO + Z.of_nat rowsCleared * 100 |}.
Proof.
  assert (Hsafe : safeInteger (score landedO)) by (vm_compute; split; discriminate).
  assert (Hsafe' : safeInteger (score landedO + GRID_HEIGHT * 100))
    by (vm_compute; split; discriminate).
  split; [reflexivity|]. split; [exact Hsafe|]. split; [exact Hsafe'|].
  split; [reflexivity|].
  apply (lock_sequence landedO (mkAction "tick") Key.L
           [Num 0; Num 1; Num 0] [[Num 1; Num 1; Num 1]; [Num 0; Num 0; Num 0]]);
    [reflexivity | left; reflexivity | reflexivity | reflexivity
    | exact Hsafe | exact Hsafe' | reflexivity].
Defined.

(** ** The invariant of the reducer *)

Lemma wellShaped_cons matrix :
  wellShaped matrix → ∃ row0 rows, matrix = row0 :: rows.
Proof.
  intros (N & M & HN & _ & [Hlen _] & _).
  destruct matrix as [|row0 rows]; [simpl in Hlen; lia | eauto].
Qed.

Lemma invariant_initial key1 key2 state :
  initialState key1 key2 = Return state → invariant state.
Proof.
  unfold initialState. intros Hinit.
  apply bind_Return in Hinit as (block & Hspawn & [= <-]).
  assert (Hblock : tetromino block = randomTetromino key1 ∧
            canPlaceTetromino createEmptyBoard (randomTetromino key1)
              (x block) (y block) = Return true).
  { destruct key1; vm_compute in Hspawn; injection Hspawn as <-; by split. }
  destruct Hblock as [Htet Hfits].
  split; [reflexivity|]. cbn [board currentBlock nextTetromino gameOver].
  rewrite Htet. split; [apply randomTetromino_wellShaped|].
  split; [apply randomTetromino_wellShaped|]. done.
Qed.

Lemma invariant_lock state block randKey :
  hasHeight (board state) → wellShaped (shape (nextTetromino state)) →
  ∃ state', lockSequence state block randKey = Return state' ∧ invariant state'.
Proof.
  intros Hh Hnext.
  destruct (wellShaped_cons _ Hnext) as (row0 & rows & Hshape).
  destruct (lockSequence_returns state block randKey row0 rows Hh Hshape)
    as (merged & fits & _ & _ & Hhc & Hfits & ->).
  eexists. split; [done|].
  split; [done|]. split; [done|].
  split; [apply randomTetromino_wellShaped|].
  cbn [gameOver board currentBlock tetromino x y]. intros Hover.
  destruct fits; [done | discriminate].
Qed.

Lemma invariant_step state action randKey :
  invariant state →
  ∃ state', updateState state action randKey = Return state' ∧ invariant state'.
Proof.
  intros Hinv. pose proof Hinv as (Hh & Hcur & Hnext & Hplaced).
  destruct (gameOver state) eqn:Hover.
  { exists state. split; [|done]. unfold updateState. by rewrite Hover. }
  destruct (named action "tick" || named action "down") eqn:Htick.
  { rewrite updateState_tick by done.
    destruct (canPlaceTetromino_returns (board state)
                (tetromino (currentBlock state)) (x (currentBlock state))
                (y (currentBlock state) + 1) Hh) as [fits Hfits].
    rewrite Hfits. cbn [bind]. destruct fits.
    - eexists. split; [done|]. by split.
    - by apply invariant_lock. }
  destruct (named action "left") eqn:Hleft.
  { unfold updateState. rewrite Hover, Htick, Hleft.
    destruct (canPlaceTetromino_returns (board state)
                (tetromino (currentBlock state)) (x (currentBlock state) - 1)
                (y (currentBlock state)) Hh) as [fits Hfits].
    rewrite Hfits. cbn [bind]. destruct fits.
    - eexists. split; [done|]. by split.
    - by exists state. }
  destruct (named action "right") eqn:Hright.
  { unfold updateState. rewrite Hover, Htick, Hleft, Hright.
    destruct (canPlaceTetromino_returns (board state)
                (tetromino (currentBlock state)) (x (currentBlock state) + 1)
                (y (currentBlock state)) Hh) as [fits Hfits].
    rewrite Hfits. cbn [bind]. destruct fits.
    - eexists. split; [done|]. by split.
    - by exists state. }
  destruct (named action "rotate") eqn:Hrotate.
  { unfold updateState. rewrite Hover, Htick, Hleft, Hright, Hrotate.
    destruct (rotate_wellShaped _ Hcur) as (rotated & Hrot & Hshaped).
    rewrite Hrot. cbn [bind].
    destruct (canPlaceTetromino_returns (board state)
                {| shape := rotated;
                   color := color (tetromino (currentBlock state)) |}
                (x (currentBlock state)) (y (currentBlock state)) Hh)
      as [fits Hfits].
    rewrite Hfits. cbn [bind]. destruct fits.
    - eexists. split; [done|]. by split.
    - by exists state. }
  destruct (named action "drop") eqn:Hdrop.
  { rewrite updateState_drop by done.
    destruct Hcur as (N & M & _ & _ & _ & row & col & Hocc).
    destruct (dropLoop_returns (board state) (currentBlock state) row col
                (y (currentBlock state)) Hocc Hh) as (restY & -> & _).
    cbn [bind]. by apply invariant_lock. }
  exists state. split; [|done].
  unfold updateState. by rewrite Hover, Htick, Hleft, Hright, Hrotate, Hdrop.
Qed.

Lemma reachable_invariant state : reachable state → invariant state.
Proof.
  induction 1 as [key1 key2 state Hinit | state action randKey state' _ IH Hstep].
  - by eapply invariant_initial.
  - destruct (invariant_step state action randKey IH) as (state'' & Heq & Hinv).
    congruence.
Qed.

Lemma initialState_returns key1 key2 :
  ∃ state, initialState key1 key2 = Return state.
Proof. destruct key1; by eexists. Qed.

Lemma canPlaceTetromino_true_cells board tetromino posX posY row col :
  hasHeight board →
  canPlaceTetromino board tetromino posX posY = Return true →
  occupiedAt (shape tetromino) row col →
  inBounds (posX + Z.of_nat col) (posY + Z.of_nat row) ∧
  boardCell board (posX + Z.of_nat col) (posY + Z.of_nat row) = Null.
Proof.
  intros Hh Hfits Hocc.
  destruct (canPlaceRows_spec board posX posY (shape tetromino) Hh 0)
    as (fits & Heq & Hiff).
  unfold canPlaceTetromino in Hfits. rewrite Hfits in Heq. injection Heq as <-.
  assert (Hfree : ¬ blocked board (posX + Z.of_nat col) (posY + Z.of_nat row)).
  { intros Hb. assert (true = false); [|done]. apply Hiff.
    exists row, col. split; [done|]. by rewrite Z.add_0_l. }
  unfold blocked in Hfree. split.
  - destruct (decide (inBounds (posX + Z.of_nat col) (posY + Z.of_nat row)));
      [done | tauto].
  - destruct (decide (boardCell board (posX + Z.of_nat col)
                        (posY + Z.of_nat row) = Null)); [done | tauto].
Qed.

(** C4. In every state that the game reaches from an initial state, while
    [gameOver] is false the active block is validly placed:
    [canPlaceTetromino] accepts it where it is, that is, every truthy entry
    of its shape maps inside the bounds onto a [null] cell. Every action
    keeps it so: from a reached state [updateState] returns a state (it
    neither throws nor loops), and the returned state has the property
    again. *)
Theorem active_block_placed state :
  reachable state →
  (gameOver state = false →
   canPlaceTetromino (board state) (tetromino (currentBlock state))
     (x (currentBlock state)) (y (currentBlock state)) = Return true ∧
   ∀ row col : nat,
     occupiedAt (shape (tetromino (currentBlock state))) row col →
     inBounds (x (currentBlock state) + Z.of_nat col)
              (y (currentBlock state) + Z.of_nat row) ∧
     boardCell (board state) (x (currentBlock state) + Z.of_nat col)
               (y (currentBlock state) + Z.of_nat row) = Null) ∧
  ∀ action randKey,
    ∃ state', updateState state action randKey = Return state' ∧
      (gameOver state' = false →
       canPlaceTetromino (board state') (tetromino (currentBlock state'))
         (x (currentBlock state')) (y (currentBlock state')) = Return true).
Proof.
  intros Hreach. pose proof (reachable_invariant state Hreach) as Hinv.
  split.
  - intros Hover. destruct Hinv as (Hh & _ & _ & Hplaced).
    split; [by apply Hplaced|]. intros row col Hocc.
    apply (canPlaceTetromino_true_cells (board state)
             (tetromino (currentBlock state)));
      [done | by apply Hplaced | done].
  - intros action randKey.
    destruct (invariant_step state action randKey Hinv) as (state' & Heq & Hinv').
    exists state'. split; [done|]. apply Hinv'.
Qed.

Lemma active_block_placed_witness :
  reachable startT ∧
  (gameOver startT = false →
   canPlaceTetromino (board startT) (tetromino (currentBlock startT))
     (x (currentBlock startT)) (y (currentBlock startT)) = Return true ∧
   ∀ row col : nat,
     occupiedAt (shape (tetromino (currentBlock startT))) row col →
     inBounds (x (currentBlock startT) + Z.of_nat col)
              (y (currentBlock startT) + Z.of_nat row) ∧
     boardCell (board startT) (x (currentBlock startT) + Z.of_nat col)
               (y (currentBlock startT) + Z.of_nat row) = Null) ∧
  ∀ action randKey,
    ∃ state', updateState startT action randKey = Return state' ∧
      (gameOver state' = false →
       canPlaceTetromino (board state') (tetromino (currentBlock state'))
         (x (currentBlock state')) (y (currentBlock state')) = Return true).
Proof.
  assert (Hreach : reachable startT).
  { apply (reachable_initial Key.T Key.I). reflexivity. }
  split; [exact Hreach|]. exact (active_block_placed startT Hreach).
Defined.

Lemma gameOver_absorbing_witness :
  gameOver (finished landedO) = true ∧
  updateState (finished landedO) (mkAction "drop") Key.S
  = Return (finished landedO).
Proof.
  split; [reflexivity|].
  apply (gameOver_absorbing (finished landedO) (mkAction "drop") Key.S).
  reflexivity.
Defined.

Lemma rejected_move_keeps_state_witness :
  (rejected (stateOf createEmptyBoard Key.O 0 0 Key.T) (mkAction "left") ∧
   updateState (stateOf createEmptyBoard Key.O 0 0 Key.T) (mkAction "left") Key.L
   = Return (stateOf createEmptyBoard Key.O 0 0 Key.T)) ∧
  (rejected (stateOf createEmptyBoard Key.O 8 0 Key.T) (mkAction "right") ∧
   updateState (stateOf createEmptyBoard Key.O 8 0 Key.T) (mkAction "right") Key.L
   = Return (stateOf createEmptyBoard Key.O 8 0 Key.T)) ∧
  (rejected uprightI (mkAction "rotate") ∧
   updateState uprightI (mkAction "rotate") Key.L = Return uprightI).
Proof.
  assert (Hleft : rejected (stateOf createEmptyBoard Key.O 0 0 Key.T)
                    (mkAction "left")).
  { apply rejected_left. reflexivity. }
  assert (Hright : rejected (stateOf createEmptyBoard Key.O 8 0 Key.T)
                     (mkAction "right")).
  { apply rejected_right. reflexivity. }
  assert (Hrotate : rejected uprightI (mkAction "rotate")).
  { eapply rejected_rotate; reflexivity. }
  split; [|split].
  - split; [exact Hleft|]. exact (rejected_move_keeps_state _ _ Key.L Hleft).
  - split; [exact Hright|]. exact (rejected_move_keeps_state _ _ Key.L Hright).
  - split; [exact Hrotate|]. exact (rejected_move_keeps_state _ _ Key.L Hrotate).
Defined.

(** No wall kick: the upright I piece against the left wall is refused its
    rotation although the rotated piece would fit two columns to the right. *)
Example rotate_without_wall_kick :
  ∃ rotatedShape,
    rotate (shape (tetromino (currentBlock uprightI))) = Return rotatedShape ∧
    canPlaceTetromino (board uprightI)
      {| shape := rotatedShape; color := "cyan" |}
      (x (currentBlock uprightI) + 2) (y (currentBlock uprightI)) = Return true ∧
    updateState uprightI (mkAction "rotate") Key.L = Return uprightI.
Proof. eexists. split; [reflexivity|]. split; reflexivity. Qed.

(** ** Scenarios *)

Lemma run_app state actions actions' :
  run state (actions ++ actions')
  = let* state' := run state actions in run state' actions'.
Proof.
  revert state. induction actions as [|[action randKey] actions IH];
    intros state; simpl; [done|].
  destruct (updateState state action randKey); simpl; [apply IH | done | done].
Qed.

(** The O piece on the empty board falls by one row as long as it is above
    row 18. *)
Lemma O_falls next posY randKey :
  0 ≤ posY < 18 →
  updateState (stateOf createEmptyBoard Key.O 4 posY next) (mkAction "tick") randKey
  = Return (stateOf createEmptyBoard Key.O 4 (posY + 1) next).
Proof.
  intros Hy. rewrite updateState_tick by done.
  assert (Hfits : canPlaceTetromino createEmptyBoard (randomTetromino Key.O) 4
                    (posY + 1) = Return true).
  { assert (Hcases : posY = 0 ∨ posY = 1 ∨ posY = 2 ∨ posY = 3 ∨ posY = 4 ∨
                     posY = 5 ∨ posY = 6 ∨ posY = 7 ∨ posY = 8 ∨ posY = 9 ∨
                     posY = 10 ∨ posY = 11 ∨ posY = 12 ∨ posY = 13 ∨
                     posY = 14 ∨ posY = 15 ∨ posY = 16 ∨ posY = 17) by lia.
    repeat (destruct Hcases as [-> | Hcases]; [reflexivity|]).
    by subst posY. }
  cbn [stateOf board currentBlock tetromino x y]. by rewrite Hfits.
Qed.

Lemma O_falls_run next randKeys :
  ∀ posY, 0 ≤ posY → posY + Z.of_nat (length randKeys) ≤ 18 →
  run (stateOf createEmptyBoard Key.O 4 posY next) (ticks randKeys)
  = Return (stateOf createEmptyBoard Key.O 4
              (posY + Z.of_nat (length randKeys)) next).
Proof.
  induction randKeys as [|randKey randKeys IH]; intros posY Hy Hlen; simpl.
  - by rewrite Z.add_0_r.
  - simpl in Hlen. rewrite O_falls by lia. cbn [bind].
    rewrite IH by lia. do 2 f_equal. lia.
Qed.

(** C9, as amended. On the empty board with an O piece spawned at [y = 0],
    each of the first 18 ticks moves the block down by one row without
    locking it (after [n <= 18] ticks it is at [y = n] and the board is
    still empty), so 18 ticks bring it to [y = 18]; the 19th tick locks it
    into rows 18 and 19 and spawns the queued piece. *)
Theorem scenario_O_falls_18_rows next randKeys randKey :
  (length randKeys ≤ 18)%nat →
  run (stateOf createEmptyBoard Key.O 4 0 next) (ticks randKeys)
  = Return (stateOf createEmptyBoard Key.O 4 (Z.of_nat (length randKeys)) next)
  ∧
  ∃ spawned,
    spawnNewBlock createEmptyBoard (randomTetromino next) = Return spawned ∧
    updateState (stateOf createEmptyBoard Key.O 4 18 next) (mkAction "tick") randKey
    = Return {| board := bottomRows (rowWith "yellow" [4; 5]%nat)
                                     (rowWith "yellow" [4; 5]%nat);
                currentBlock := spawned;
                nextTetromino := randomTetromino randKey;
                gameOver := false;
                score := 0 |}.
Proof.
  intros Hlen. split.
  - rewrite O_falls_run by lia. by rewrite Z.add_0_l.
  - destruct next; eexists; (split; [reflexivity|]);
      destruct randKey; reflexivity.
Qed.

Lemma scenario_O_falls_18_rows_witness :
  (length (replicate 18 Key.J) ≤ 18)%nat ∧
  run (stateOf createEmptyBoard Key.O 4 0 Key.T) (ticks (replicate 18 Key.J))
  = Return (stateOf createEmptyBoard Key.O 4
              (Z.of_nat (length (replicate 18 Key.J))) Key.T)
  ∧
  ∃ spawned,
    spawnNewBlock createEmptyBoard (randomTetromino Key.T) = Return spawned ∧
    updateState (stateOf createEmptyBoard Key.O 4 18 Key.T) (mkAction "tick") Key.J
    = Return {| board := bottomRows (rowWith "yellow" [4; 5]%nat)
                                     (rowWith "yellow" [4; 5]%nat);
                currentBlock := spawned;
                nextTetromino := randomTetromino Key.J;
                gameOver := false;
                score := 0 |}.
Proof.
  split; [vm_compute; lia|].
  apply (scenario_O_falls_18_rows Key.T (replicate 18 Key.J) Key.J).
  vm_compute; lia.
Defined.

(** C9, as stated, fails: after 19 ticks the O piece is no longer falling
    at [y = 18]; it has been locked (its colour is on the board) and the
    queued T piece is the active block at [y = 0]. *)
Lemma scenario_19_ticks_lock :
  ∃ state,
    run (stateOf createEmptyBoard Key.O 4 0 Key.T) (ticks (replicate 19 Key.J))
    = Return state ∧
    state ≠ stateOf createEmptyBoard Key.O 4 18 Key.T ∧
    boardCell (board state) 4 19 = Color "yellow" ∧
    tetromino (currentBlock state) = randomTetromino Key.T ∧
    y (currentBlock state) = 0.
Proof.
  eexists. split; [vm_compute; reflexivity|]. split; [|by vm_compute].
  intros Heq. apply (f_equal (fun s => y (currentBlock s))) in Heq.
  vm_compute in Heq. discriminate Heq.
Qed.

(** C10, as amended. The "drop" action on the empty board with a T piece at
    [y = 0] lands the piece in a single transition at the resting offset
    [y = 18 = H - 2]: the lowest truthy row of its shape (row 1; row 2 of
    the 3 x 3 matrix is empty) comes to lie on board row [H - 1 = 19]. The
    resting row is the one the loop finds: the placement is valid at every
    [y'] with [0 < y' <= 18] and invalid at 19. The transition then is the
    lock sequence at that position, the one a "tick" performs on the landed
    block. *)
Theorem scenario_T_drops_to_18 next randKey :
  let state := stateOf createEmptyBoard Key.T 3 0 next in
  let landed := stateOf createEmptyBoard Key.T 3 18 next in
  dropLoop dropFuel (board state) (currentBlock state) (y (currentBlock state))
  = Return 18
  ∧ 18 = GRID_HEIGHT - 2
  ∧ (∀ y', 0 < y' ≤ 18 →
       canPlaceTetromino (board state) (tetromino (currentBlock state))
         (x (currentBlock state)) y' = Return true)
  ∧ canPlaceTetromino (board state) (tetromino (currentBlock state))
      (x (currentBlock state)) 19 = Return false
  ∧ updateState state (mkAction "drop") randKey
    = lockSequence state (currentBlock landed) randKey
  ∧ updateState state (mkAction "drop") randKey
    = updateState landed (mkAction "tick") randKey
  ∧ ∃ spawned,
      spawnNewBlock createEmptyBoard (randomTetromino next) = Return spawned ∧
      updateState state (mkAction "drop") randKey
      = Return {| board := bottomRows (rowWith "purple" [4]%nat)
                                       (rowWith "purple" [3; 4; 5]%nat);
                  currentBlock := spawned;
                  nextTetromino := randomTetromino randKey;
                  gameOver := false;
                  score := 0 |}.
Proof.
  intros state landed.
  assert (Hloop : dropLoop dropFuel (board state) (currentBlock state)
                    (y (currentBlock state)) = Return 18) by reflexivity.
  split; [done|]. split; [done|].
  destruct (dropLoop_returns (board state) (currentBlock state) 0 1 0)
    as (restY & Heq & _ & Hstop & Hfall); [by eexists _, _ | reflexivity |].
  assert (HrestY : Return restY = Return 18).
  { rewrite <- Heq. exact Hloop. }
  injection HrestY as ->.
  split; [exact Hfall|]. split; [exact Hstop|].
  assert (Hdrop : updateState state (mkAction "drop") randKey
                  = lockSequence state (currentBlock landed) randKey).
  { rewrite updateState_drop by done. by rewrite Hloop. }
  split; [done|]. split.
  - rewrite Hdrop. by rewrite updateState_tick.
  - rewrite Hdrop. destruct next; eexists; (split; [reflexivity|]);
      destruct randKey; reflexivity.
Qed.

(** C10, as stated, fails: the resting offset is not [H - shapeHeight = 17].
    The loop stops at 18, and the board that the "drop" returns is not the
    one with the T piece merged at [y = 17]. *)
Lemma scenario_T_does_not_rest_at_17 :
  GRID_HEIGHT - shapeHeight (randomTetromino Key.T) = 17 ∧
  dropLoop dropFuel (board startT) (currentBlock startT) (y (currentBlock startT))
  ≠ Return (GRID_HEIGHT - shapeHeight (randomTetromino Key.T)) ∧
  ∃ state merged17,
    updateState startT (mkAction "drop") Key.O = Return state ∧
    mergeTetromino createEmptyBoard
      (withY (currentBlock startT) (GRID_HEIGHT - shapeHeight (randomTetromino Key.T))) = Return merged17 ∧
    board state ≠ merged17 ∧
    boardCell (board state) 4 17 = Null ∧
    boardCell (board state) 4 19 = Color "purple".
Proof.
  split; [reflexivity|]. split; [by vm_compute|].
  eexists _, _. split; [reflexivity|]. split; [reflexivity|].
  split; [by vm_compute | done].
Qed.

(** ** The heap: a new array next to an old heap *)

Section layout.
Context {E : Type}.

Lemma lookup_layout_old (h0 : heap E) (table : list (list E)) ref a :
  h0 !! ref = Some a → layout h0 table !! ref = Some a.
Proof. apply lookup_app_l_Some. Qed.

Lemma lookup_layout_row (h0 : heap E) (table : list (list E)) j row :
  table !! j = Some row →
  layout h0 table !! (length h0 + j)%nat = Some (Cells row).
Proof.
  intros Hj. unfold layout. rewrite lookup_app_r by lia.
  replace (length h0 + j - length h0)%nat with j by lia.
  apply lookup_app_l_Some. by rewrite list_lookup_fmap, Hj.
Qed.

Lemma lookup_layout_table (h0 : heap E) (table : list (list E)) :
  layout h0 table !! (length h0 + length table)%nat
  = Some (Rows (seq (length h0) (length table))).
Proof.
  unfold layout. rewrite lookup_app_r by lia.
  rewrite lookup_app_r by (rewrite length_fmap; lia).
  rewrite length_fmap.
  by replace (length h0 + length table - length h0 - length table)%nat
    with 0%nat by lia.
Qed.

Lemma insert_layout_row (h0 : heap E) (table : list (list E)) j row row' :
  table !! j = Some row →
  <[(length h0 + j)%nat := Cells row']> (layout h0 table)
  = layout h0 (<[j := row']> table).
Proof.
  intros Hj. apply lookup_lt_Some in Hj. unfold layout.
  rewrite insert_app_r, insert_app_l by (rewrite length_fmap; lia).
  by rewrite list_fmap_insert, length_insert.
Qed.

Lemma updateRowH_layout (h0 : heap E) (table : list (list E)) j f :
  updateRowH (layout h0 table) (length h0 + length table) j f
  = match table !! j with
    | Some row => Return (layout h0 (<[j := f row]> table))
    | None => Throw
    end.
Proof.
  unfold updateRowH. rewrite lookup_layout_table.
  destruct (table !! j) as [row|] eqn:Hj.
  - rewrite lookup_seq_lt by (by eapply lookup_lt_Some).
    rewrite (lookup_layout_row _ _ _ _ Hj).
    by rewrite (insert_layout_row _ _ _ _ _ Hj).
  - rewrite lookup_seq_ge; [done|]. by apply lookup_ge_None.
Qed.

Lemma readCells_app (h k : heap E) ref cells :
  readCells h ref = Some cells → readCells (h ++ k) ref = Some cells.
Proof.
  unfold readCells. destruct (h !! ref) as [a|] eqn:Href; [|done].
  by rewrite (lookup_app_l_Some _ _ _ _ Href).
Qed.

Lemma mapM_readCells_app (h k : heap E) refs table :
  mapM (readCells h) refs = Some table →
  mapM (readCells (h ++ k)) refs = Some table.
Proof.
  rewrite !mapM_Some. intros Hread. eapply Forall2_impl; [exact Hread|].
  intros ref cells. apply readCells_app.
Qed.

Lemma readTable_app (h k : heap E) ref table :
  readTable h ref = Some table → readTable (h ++ k) ref = Some table.
Proof.
  unfold readTable. destruct (h !! ref) as [[cells|refs]|] eqn:Href; try done.
  rewrite (lookup_app_l_Some _ _ _ _ Href). apply mapM_readCells_app.
Qed.

(** The new array reads back as [table]. *)
Lemma readTable_layout (h0 : heap E) (table : list (list E)) :
  readTable (layout h0 table) (length h0 + length table) = Some table.
Proof.
  unfold readTable. rewrite lookup_layout_table. apply mapM_Some.
  apply Forall2_same_length_lookup_2; [by rewrite length_seq|].
  intros j ref row Href Hrow. apply lookup_seq in Href as [-> _].
  unfold readCells. by rewrite (lookup_layout_row _ _ _ _ Hrow).
Qed.

Lemma copyRows_layout refs :
  ∀ (h : heap E) table,
  mapM (readCells h) refs = Some table →
  copyRows h refs
  = Return (h ++ (Cells <$> table), seq (length h) (length table)).
Proof.
  induction refs as [|ref refs IH]; intros h table Hread.
  - injection Hread as <-. simpl. by rewrite app_nil_r.
  - apply mapM_Some in Hread.
    destruct table as [|cells table]; inversion Hread as [|? ? ? ? Hcells Hrest];
      subst.
    simpl. unfold readCells in Hcells.
    destruct (h !! ref) as [[cells'|]|]; try done. injection Hcells as ->.
    rewrite (IH (h ++ [Cells cells]) table).
    + simpl. rewrite length_app, <- app_assoc. simpl.
      by replace (length h + 1)%nat with (S (length h)) by lia.
    + apply mapM_readCells_app. by apply mapM_Some.
Qed.
End layout.

Lemma allocRows_layout m n :
  ∀ h : heap number,
  allocRows h m n
  = (h ++ (Cells <$> replicate m (replicate n (Num 0))), seq (length h) m).
Proof.
  induction m as [|m IH]; intros h; simpl.
  - by rewrite app_nil_r.
  - rewrite IH. rewrite length_app, <- app_assoc. simpl.
    by replace (length h + 1)%nat with (S (length h)) by lia.
Qed.

(** ** mergeTetromino on the heap *)

Lemma setBoard_length newBoard boardX boardY v newBoard' :
  setBoard newBoard boardX boardY v = Return newBoard' →
  length newBoard' = length newBoard.
Proof.
  unfold setBoard. destruct (newBoard !! _); [|done].
  intros [= <-]. by rewrite length_insert.
Qed.

Lemma mergeCols_length block row cells :
  ∀ newBoard col newBoard',
  mergeCols newBoard block row col cells = Return newBoard' →
  length newBoard' = length newBoard.
Proof.
  induction cells as [|v cells IH]; intros newBoard col newBoard' Heq;
    simpl in Heq; [by injection Heq as <-|].
  destruct (truthy v); [|by eapply IH].
  destruct (_ && _); [|by eapply IH].
  apply bind_Return in Heq as (board1 & Hset & Heq).
  apply setBoard_length in Hset. apply IH in Heq. congruence.
Qed.

Lemma mergeRows_length block rows :
  ∀ newBoard row newBoard',
  mergeRows newBoard block row rows = Return newBoard' →
  length newBoard' = length newBoard.
Proof.
  induction rows as [|cells rows IH]; intros newBoard row newBoard' Heq;
    simpl in Heq; [by injection Heq as <-|].
  apply bind_Return in Heq as (board1 & Hcols & Heq).
  apply mergeCols_length in Hcols. apply IH in Heq. congruence.
Qed.

(** The loops on the heap write the new board and nothing else: they take
    the heap [h0] followed by the new board to [h0] followed by what the
    loops on values compute. *)
Lemma mergeColsH_layout h0 block row cells :
  ∀ newBoard col,
  mergeColsH (layout h0 newBoard) (length h0 + length newBoard) block row col cells
  = mapOutcome (layout h0) (mergeCols newBoard block row col cells).
Proof.
  induction cells as [|v cells IH]; intros newBoard col; simpl; [done|].
  destruct (truthy v); [|apply IH].
  destruct (_ && _); [|apply IH].
  rewrite updateRowH_layout. unfold setBoard.
  destruct (newBoard !! Z.to_nat (y block + row)) as [boardRow|]; [|done].
  cbn [bind]. rewrite <- IH. by rewrite length_insert.
Qed.

Lemma mergeRowsH_layout h0 block rows :
  ∀ newBoard row,
  mergeRowsH (layout h0 newBoard) (length h0 + length newBoard) block row rows
  = mapOutcome (layout h0) (mergeRows newBoard block row rows).
Proof.
  induction rows as [|cells rows IH]; intros newBoard row; simpl; [done|].
  rewrite mergeColsH_layout.
  destruct (mergeCols newBoard block row 0 cells) as [board1| |] eqn:Hcols;
    [|done|done].
  cbn [mapOutcome bind]. rewrite <- IH.
  by rewrite (mergeCols_length _ _ _ _ _ _ Hcols).
Qed.

Lemma mergeTetrominoH_layout h0 boardRef board block :
  readTable h0 boardRef = Some board →
  mergeTetrominoH h0 boardRef block
  = mapOutcome (fun newBoard => (layout h0 newBoard, (length h0 + length board)%nat))
      (mergeTetromino board block).
Proof.
  unfold readTable, mergeTetrominoH, mergeTetromino.
  destruct (h0 !! boardRef) as [[cells|refs]|]; try done. intros Hread.
  rewrite (copyRows_layout refs h0 board Hread). cbn [bind alloc].
  rewrite map_id.
  replace ((h0 ++ (Cells <$> board)) ++ [Rows (seq (length h0) (length board))])
    with (layout h0 board) by (unfold layout; by rewrite <- app_assoc).
  rewrite length_app, length_fmap, mergeRowsH_layout.
  by destruct (mergeRows board block 0 (shape (tetromino block))).
Qed.

(** ** rotate on the heap *)

Lemma alter_lookup_insert {A} (f : A → A) (l : list A) i a :
  l !! i = Some a → alter f i l = <[i := f a]> l.
Proof.
  intros Hi. apply list_eq. intros j.
  destruct (decide (i = j)) as [<- | Hne].
  - rewrite list_lookup_alter_eq, Hi.
    rewrite list_lookup_insert_eq; [done | by eapply lookup_lt_Some].
  - by rewrite list_lookup_alter_ne, list_lookup_insert_ne.
Qed.

Lemma readTable_refs {E} (h : heap E) ref table :
  readTable h ref = Some table →
  ∃ refs, h !! ref = Some (Rows refs) ∧
    Forall2 (fun r cells => h !! r = Some (Cells cells)) refs table.
Proof.
  unfold readTable. destruct (h !! ref) as [[cells|refs]|]; try done.
  intros Hread. exists refs. split; [done|].
  apply mapM_Some in Hread. eapply Forall2_impl; [exact Hread|].
  intros r cells. unfold readCells.
  destruct (h !! r) as [[cells'|]|]; naive_solver.
Qed.

Lemma entryH_layout h0 rotated matrixRef (matrix : Matrix) i j :
  readTable h0 matrixRef = Some matrix →
  entryH (layout h0 rotated) matrixRef i j
  = match matrix !! i with
    | Some _ => Return (entry matrix i j)
    | None => Throw
    end.
Proof.
  intros Hread. apply readTable_refs in Hread as (refs & Href & Hrows).
  unfold entryH, entry. rewrite (lookup_layout_old _ _ _ _ Href).
  destruct (matrix !! i) as [row|] eqn:Hi.
  - destruct (Forall2_lookup_r _ _ _ _ _ Hrows Hi) as (r & -> & Hr).
    by rewrite (lookup_layout_old _ _ _ _ Hr).
  - rewrite (proj2 (lookup_ge_None refs i)); [done|].
    apply lookup_ge_None in Hi. by rewrite (Forall2_length _ _ _ Hrows).
Qed.

Lemma rotateH_inner h0 matrixRef (matrix : Matrix) i k js :
  readTable h0 matrixRef = Some matrix → is_Some (matrix !! i) →
  ∀ rotated : Matrix, Forall (fun j => (j < length rotated)%nat) js →
  forEach js (layout h0 rotated) (fun h j =>
    let* v := entryH h matrixRef i j in
    updateRowH h (length h0 + length rotated) j (fun cells => <[k := v]> cells))
  = Return (layout h0
      (foldl (fun rotated j => setEntry rotated j k (entry matrix i j))
             rotated js)).
Proof.
  intros Hread [row Hi]. induction js as [|j js IH]; intros rotated Hjs; [done|].
  apply Forall_cons in Hjs as [Hj Hjs]. cbn [forEach foldl].
  rewrite (entryH_layout _ _ _ _ _ _ Hread), Hi. cbn [bind].
  rewrite updateRowH_layout.
  destruct (lookup_lt_is_Some_2 rotated j Hj) as [cells Hcells].
  rewrite Hcells. cbn [bind].
  assert (Hset : <[j := <[k := entry matrix i j]> cells]> rotated
                 = setEntry rotated j k (entry matrix i j)).
  { unfold setEntry. symmetry. by apply alter_lookup_insert. }
  rewrite Hset.
  assert (Hlen : length (setEntry rotated j k (entry matrix i j)) = length rotated).
  { unfold setEntry. apply length_alter. }
  rewrite <- Hlen. apply IH. by rewrite Hlen.
Qed.

Lemma foldl_setEntry_length (f : nat → number) k js :
  ∀ rotated : Matrix,
  length (foldl (fun rotated j => setEntry rotated j k (f j)) rotated js)
  = length rotated.
Proof.
  induction js as [|j js IH]; intros rotated; [done|]. simpl.
  rewrite IH. unfold setEntry. apply length_alter.
Qed.

Lemma rotateH_outer h0 matrixRef (matrix : Matrix) n m ixs :
  readTable h0 matrixRef = Some matrix →
  Forall (fun i => is_Some (matrix !! i)) ixs →
  ∀ rotated : Matrix, length rotated = m →
  forEach ixs (layout h0 rotated) (fun h i =>
    forEach (seq 0 m) h (fun h j =>
      let* v := entryH h matrixRef i j in
      updateRowH h (length h0 + m) j
        (fun cells => <[(n - 1 - i)%nat := v]> cells)))
  = Return (layout h0
      (foldl (fun rotated i =>
                foldl (fun rotated j =>
                         setEntry rotated j (n - 1 - i)%nat (entry matrix i j))
                      rotated (seq 0 m))
             rotated ixs)).
Proof.
  intros Hread. induction ixs as [|i ixs IH]; intros Hixs rotated Hlen; [done|].
  apply Forall_cons in Hixs as [Hi Hixs]. cbn [forEach foldl].
  pose proof (rotateH_inner h0 matrixRef matrix i (n - 1 - i) (seq 0 m)
                Hread Hi rotated) as Hinner.
  rewrite Hlen in Hinner. rewrite Hinner.
  - cbn [bind]. apply IH; [done|]. by rewrite foldl_setEntry_length.
  - apply Forall_forall. intros j Hj. apply elem_of_seq in Hj. lia.
Qed.

Lemma rotateH_layout h0 matrixRef (matrix : Matrix) :
  readTable h0 matrixRef = Some matrix →
  rotateH h0 matrixRef
  = mapOutcome (fun rotated => (layout h0 rotated, (length h0 + length rotated)%nat))
      (rotate matrix).
Proof.
  intros Hread.
  destruct (readTable_refs _ _ _ Hread) as (refs & Href & Hrows).
  unfold rotateH. rewrite Href.
  destruct Hrows as [|ref0 row0 refs rows Hrow0 Hrows]; [done|].
  rewrite Hrow0. rewrite allocRows_layout. cbv zeta. cbn [alloc].
  assert (Hn : length (ref0 :: refs) = length (row0 :: rows)).
  { simpl. by rewrite (Forall2_length _ _ _ Hrows). }
  rewrite Hn.
  rewrite length_app, length_fmap, length_replicate.
  replace ((h0 ++ (Cells <$> replicate (length row0)
                     (replicate (length (row0 :: rows)) (Num 0))))
             ++ [Rows (seq (length h0) (length row0))])
    with (layout h0 (replicate (length row0)
                       (replicate (length (row0 :: rows)) (Num 0)))).
  2: { unfold layout. by rewrite <- app_assoc, length_replicate. }
  rewrite (rotateH_outer h0 matrixRef (row0 :: rows) (length (row0 :: rows))
             (length row0) (seq 0 (length (row0 :: rows))) Hread).
  - set (folded := foldl _ _ _).
    assert (Hfolded : rotate (row0 :: rows) = Return folded) by reflexivity.
    rewrite Hfolded. cbn [mapOutcome bind].
    destruct (rotate_entries row0 rows) as (rotated & Heq & [Hlen _] & _).
    rewrite Hfolded in Heq. injection Heq as <-. by rewrite Hlen.
  - apply Forall_forall. intros i Hi. apply elem_of_seq in Hi.
    apply lookup_lt_is_Some_2. lia.
  - by rewrite length_replicate.
Qed.

(** C5. For an [N] x [M] matrix ([N > 0]) held at [matrixRef], [rotate]
    returns a reference to a new [M] x [N] matrix with
    [rotated[j][N - 1 - i] = matrix[i][j]] for all [i < N], [j < M]; every
    array of the heap it was called in, the argument included, is left as
    it was. Rotating any of the seven catalog shapes four times gives the
    shape back. *)
Theorem rotate_clockwise (h : heap number) matrixRef (matrix : Matrix) N M key :
  readTable h matrixRef = Some matrix →
  (0 < N)%nat → rect N M matrix →
  (∃ h' rotatedRef rotated,
     rotateH h matrixRef = Return (h', rotatedRef) ∧
     rotate matrix = Return rotated ∧
     readTable h' rotatedRef = Some rotated ∧
     rect M N rotated ∧
     (∀ i j, (i < N)%nat → (j < M)%nat →
        entry rotated j (N - 1 - i) = entry matrix i j) ∧
     (∀ ref a, h !! ref = Some a → h' !! ref = Some a) ∧
     h !! rotatedRef = None ∧
     readTable h' matrixRef = Some matrix)
  ∧
  (let* r1 := rotate (shape (TETROMINOES key)) in
   let* r2 := rotate r1 in
   let* r3 := rotate r2 in
   rotate r3) = Return (shape (TETROMINOES key)).
Proof.
  intros Hread HN [Hlen Hrows]. split; [|by destruct key].
  destruct matrix as [|row0 rows]; [simpl in Hlen; lia|].
  assert (Hrow0 : length row0 = M) by (by apply Forall_cons in Hrows as [? _]).
  destruct (rotate_entries row0 rows) as (rotated & Heq & Hrect & Hentry).
  rewrite Hlen, Hrow0 in Hrect, Hentry.
  exists (layout h rotated), (length h + length rotated)%nat, rotated.
  split; [by rewrite (rotateH_layout _ _ _ Hread), Heq|].
  split; [done|]. split; [apply readTable_layout|].
  split; [done|]. split; [done|].
  split; [intros ref a; apply lookup_layout_old|].
  split; [apply lookup_ge_None; lia|].
  by apply readTable_app.
Qed.

Lemma rotate_clockwise_witness :
  readTable heapT refT = Some shapeT ∧ (0 < 3)%nat ∧ rect 3 3 shapeT ∧
  (∃ h' rotatedRef rotated,
     rotateH heapT refT = Return (h', rotatedRef) ∧
     rotate shapeT = Return rotated ∧
     readTable h' rotatedRef = Some rotated ∧
     rect 3 3 rotated ∧
     (∀ i j, (i < 3)%nat → (j < 3)%nat →
        entry rotated j (3 - 1 - i) = entry shapeT i j) ∧
     (∀ ref a, heapT !! ref = Some a → h' !! ref = Some a) ∧
     heapT !! rotatedRef = None ∧
     readTable h' refT = Some shapeT)
  ∧
  (let* r1 := rotate (shape (TETROMINOES Key.L)) in
   let* r2 := rotate r1 in
   let* r3 := rotate r2 in
   rotate r3) = Return (shape (TETROMINOES Key.L)).
Proof.
  assert (Hread : readTable heapT refT = Some shapeT) by reflexivity.
  assert (Hrect : rect 3 3 shapeT).
  { split; [reflexivity|]. by repeat constructor. }
  split; [exact Hread|]. split; [lia|]. split; [exact Hrect|].
  apply (rotate_clockwise heapT refT shapeT 3 3 Key.L Hread); [lia | exact Hrect].
Defined.

(** C7. For a board of [GRID_HEIGHT] rows held at [boardRef],
    [mergeTetromino] returns a reference to a new board with as many rows,
    in which the cells that a truthy entry of the block maps to inside the
    bounds hold the colour of the block and every other cell is as in the
    board: the truthy entries that map outside the bounds write nothing.
    Every array of the heap it was called in, the board included, is left
    as it was. *)
Theorem mergeTetromino_frame (h : heap Cell) boardRef (board : Board) block :
  readTable h boardRef = Some board → hasHeight board →
  ∃ h' newRef newBoard,
    mergeTetrominoH h boardRef block = Return (h', newRef) ∧
    mergeTetromino board block = Return newBoard ∧
    readTable h' newRef = Some newBoard ∧
    length newBoard = length board ∧
    (hasWidth board → hasWidth newBoard) ∧
    (∀ boardX boardY, 0 ≤ boardX → 0 ≤ boardY →
       (coveredBy block boardX boardY ∧ inBounds boardX boardY →
        boardCell newBoard boardX boardY = Color (color (tetromino block))) ∧
       (¬ (coveredBy block boardX boardY ∧ inBounds boardX boardY) →
        boardCell newBoard boardX boardY = boardCell board boardX boardY)) ∧
    (∀ ref a, h !! ref = Some a → h' !! ref = Some a) ∧
    h !! newRef = None ∧
    readTable h' boardRef = Some board.
Proof.
  intros Hread Hh.
  destruct (mergeTetromino_cells board block Hh)
    as (newBoard & Heq & Hlen & Hwidth & Hcells).
  exists (layout h newBoard), (length h + length newBoard)%nat, newBoard.
  split; [by rewrite (mergeTetrominoH_layout _ _ _ _ Hread), Heq, Hlen|].
  split; [done|]. split; [apply readTable_layout|].
  split; [done|]. split; [done|]. split; [done|].
  split; [intros ref a; apply lookup_layout_old|].
  split; [apply lookup_ge_None; lia|].
  by apply readTable_app.
Qed.

Lemma mergeTetromino_frame_witness :
  readTable heapEmpty refEmpty = Some createEmptyBoard ∧ hasHeight createEmptyBoard ∧
  ∃ h' newRef newBoard,
    mergeTetrominoH heapEmpty refEmpty (currentBlock landedO) = Return (h', newRef) ∧
    mergeTetromino createEmptyBoard (currentBlock landedO) = Return newBoard ∧
    readTable h' newRef = Some newBoard ∧
    length newBoard = length createEmptyBoard ∧
    (hasWidth createEmptyBoard → hasWidth newBoard) ∧
    (∀ boardX boardY, 0 ≤ boardX → 0 ≤ boardY →
       (coveredBy (currentBlock landedO) boardX boardY ∧ inBounds boardX boardY →
        boardCell newBoard boardX boardY = Color (color (tetromino (currentBlock landedO)))) ∧
       (¬ (coveredBy (currentBlock landedO) boardX boardY ∧ inBounds boardX boardY) →
        boardCell newBoard boardX boardY = boardCell createEmptyBoard boardX boardY)) ∧
    (∀ ref a, heapEmpty !! ref = Some a → h' !! ref = Some a) ∧
    heapEmpty !! newRef = None ∧
    readTable h' refEmpty = Some createEmptyBoard.
Proof.
  assert (Hread : readTable heapEmpty refEmpty = Some createEmptyBoard)
    by reflexivity.
  assert (Hh : hasHeight createEmptyBoard) by reflexivity.
  split; [exact Hread|]. split; [exact Hh|].
  exact (mergeTetromino_frame heapEmpty refEmpty createEmptyBoard
           (currentBlock landedO) Hread Hh).
Defined.

(** * Further properties of the code *)

(** ** rotate, in general *)

Lemma entry_lookup (matrix : Matrix) i j row v :
  matrix !! i = Some row → row !! j = Some v → entry matrix i j = v.
Proof. intros Hi Hj. unfold entry. by rewrite Hi, Hj. Qed.

(** Two rectangles of the same size with the same entries are equal. *)
Lemma rect_ext N M (a b : Matrix) :
  rect N M a → rect N M b →
  (∀ i j, (i < N)%nat → (j < M)%nat → entry a i j = entry b i j) → a = b.
Proof.
  intros [Hla Hra] [Hlb Hrb] Hentries. apply list_eq. intros i.
  destruct (decide (i < N)%nat) as [Hi | Hi].
  - destruct (lookup_lt_is_Some_2 a i) as [rowa Hrowa]; [lia|].
    destruct (lookup_lt_is_Some_2 b i) as [rowb Hrowb]; [lia|].
    rewrite Hrowa, Hrowb. f_equal.
    pose proof (Forall_lookup_1 _ _ _ _ Hra Hrowa) as Hlena.
    pose proof (Forall_lookup_1 _ _ _ _ Hrb Hrowb) as Hlenb.
    simpl in Hlena, Hlenb.
    apply list_eq. intros j.
    destruct (decide (j < M)%nat) as [Hj | Hj].
    + destruct (lookup_lt_is_Some_2 rowa j) as [va Hva]; [lia|].
      destruct (lookup_lt_is_Some_2 rowb j) as [vb Hvb]; [lia|].
      rewrite Hva, Hvb. f_equal.
      rewrite <- (entry_lookup a i j rowa va Hrowa Hva).
      rewrite <- (entry_lookup b i j rowb vb Hrowb Hvb).
      by apply Hentries.
    + rewrite !lookup_ge_None_2; [done | lia | lia].
  - rewrite !lookup_ge_None_2; [done | lia | lia].
Qed.

(** One rotation of a rectangle, entry by entry. *)
Lemma rotate_rect N M (matrix : Matrix) :
  (0 < N)%nat → rect N M matrix →
  ∃ rotated, rotate matrix = Return rotated ∧ rect M N rotated ∧
    ∀ a b, (a < M)%nat → (b < N)%nat →
      entry rotated a b = entry matrix (N - 1 - b) a.
Proof.
  intros HN [Hlen Hrows].
  destruct matrix as [|row0 rows]; [simpl in Hlen; lia|].
  assert (Hrow0 : length row0 = M) by (by apply Forall_cons in Hrows as [? _]).
  destruct (rotate_entries row0 rows) as (rotated & Heq & Hrect & Hentry).
  rewrite Hlen, Hrow0 in Hrect, Hentry.
  exists rotated. split; [done|]. split; [done|].
  intros a b Ha Hb. rewrite <- (Hentry (N - 1 - b)%nat a) by lia.
  by replace (N - 1 - (N - 1 - b))%nat with b by lia.
Qed.

(** X1. Four rotations of any rectangular matrix with at least one row and
    one column give the matrix back. *)
Theorem rotate_four_times N M (matrix : Matrix) :
  (0 < N)%nat → (0 < M)%nat → rect N M matrix →
  rotateTimes 4 matrix = Return matrix.
Proof.
  intros HN HM Hrect. cbn [rotateTimes].
  destruct (rotate_rect N M matrix HN Hrect) as (r1 & -> & Hrect1 & He1).
  cbn [bind].
  destruct (rotate_rect M N r1 HM Hrect1) as (r2 & -> & Hrect2 & He2).
  cbn [bind].
  destruct (rotate_rect N M r2 HN Hrect2) as (r3 & -> & Hrect3 & He3).
  cbn [bind].
  destruct (rotate_rect M N r3 HM Hrect3) as (r4 & -> & Hrect4 & He4).
  cbn [bind]. f_equal.
  apply (rect_ext N M); [done | done |].
  intros i j Hi Hj.
  rewrite He4, He3, He2, He1 by lia. f_equal; lia.
Qed.

Lemma rotate_four_times_witness :
  (0 < 2)%nat ∧ (0 < 3)%nat ∧
  rect 2 3 (literal [[1; 2; 3]; [4; 5; 6]]) ∧
  rotateTimes 4 (literal [[1; 2; 3]; [4; 5; 6]])
  = Return (literal [[1; 2; 3]; [4; 5; 6]]).
Proof.
  assert (Hrect : rect 2 3 (literal [[1; 2; 3]; [4; 5; 6]])).
  { split; [reflexivity|]. by repeat constructor. }
  split; [lia|]. split; [lia|]. split; [exact Hrect|].
  apply (rotate_four_times 2 3); [lia | lia | exact Hrect].
Defined.

(** X2. [rotate] throws on the empty matrix and on no other; for a matrix
    with a first row it returns as many rows as that row has entries, each
    as long as the matrix is tall, so a matrix whose first row is empty
    rotates to the empty matrix, which cannot be rotated again. *)
Theorem rotate_throws_iff (matrix : Matrix) :
  (rotate matrix = Throw ↔ matrix = []) ∧
  rotate matrix ≠ Hang ∧
  ∀ row0 rows, matrix = row0 :: rows →
    ∃ rotated, rotate matrix = Return rotated ∧
      rect (length row0) (length matrix) rotated ∧
      (row0 = [] → rotated = [] ∧ rotateTimes 2 matrix = Throw).
Proof.
  split; [|split].
  - split; [|by intros ->]. by destruct matrix.
  - by destruct matrix.
  - intros row0 rows ->.
    destruct (rotate_entries row0 rows) as (rotated & Heq & Hrect & _).
    exists rotated. split; [done|]. split; [done|].
    intros ->. destruct Hrect as [Hlen _].
    assert (rotated = []) as -> by (by destruct rotated).
    split; [done|]. cbn [rotateTimes]. by rewrite Heq.
Qed.

(** ** deepCopy *)

Lemma deepCopyH_layout h matrixRef (matrix : Matrix) :
  readTable h matrixRef = Some matrix →
  deepCopyH h matrixRef
  = Return (layout h matrix, (length h + length matrix)%nat).
Proof.
  unfold readTable, deepCopyH.
  destruct (h !! matrixRef) as [[cells|refs]|]; try done. intros Hread.
  rewrite (copyRows_layout refs h matrix Hread). cbn [bind]. unfold alloc, layout.
  by rewrite <- app_assoc, length_app, length_fmap.
Qed.

Lemma readTable_ref_lt {E} (h : heap E) ref table :
  readTable h ref = Some table → (ref < length h)%nat.
Proof.
  unfold readTable. destruct (h !! ref) as [a|] eqn:Href; [|done].
  intros _. by eapply lookup_lt_Some.
Qed.

(** A write to a row of a table of the old heap leaves the new array
    alone. *)
Lemma updateRowH_old_layout {E} (h0 : heap E) (table new : list (list E))
    ref j f h' :
  readTable h0 ref = Some table →
  updateRowH (layout h0 new) ref j f = Return h' →
  ∃ h0', length h0' = length h0 ∧ h' = layout h0' new.
Proof.
  intros Hread. apply readTable_refs in Hread as (refs & Href & Hrows).
  unfold updateRowH. rewrite (lookup_layout_old _ _ _ _ Href).
  destruct (refs !! j) as [r|] eqn:Hj; [|done].
  destruct (Forall2_lookup_l _ _ _ _ _ Hrows Hj) as (cells & _ & Hr).
  rewrite (lookup_layout_old _ _ _ _ Hr). intros [= <-].
  exists (<[r := Cells (f cells)]> h0). split; [by rewrite length_insert|].
  unfold layout. rewrite insert_app_l by (by eapply lookup_lt_Some).
  by rewrite length_insert.
Qed.

(** X3. [deepCopy] returns a new matrix with the entries of its argument
    that shares no array with it: the argument and every other array of the
    heap are left as they were, and a later write to a row of either of the
    two matrices leaves the other one as it was. *)
Theorem deepCopy_independent h matrixRef (matrix : Matrix) :
  readTable h matrixRef = Some matrix →
  ∃ h' copyRef,
    deepCopyH h matrixRef = Return (h', copyRef) ∧
    h !! copyRef = None ∧
    readTable h' copyRef = Some (deepCopy matrix) ∧
    deepCopy matrix = matrix ∧
    readTable h' matrixRef = Some matrix ∧
    (∀ ref a, h !! ref = Some a → h' !! ref = Some a) ∧
    (∀ j f h'', updateRowH h' copyRef j f = Return h'' →
       readTable h'' matrixRef = Some matrix) ∧
    (∀ j f h'', updateRowH h' matrixRef j f = Return h'' →
       readTable h'' copyRef = Some matrix).
Proof.
  intros Hread.
  assert (Hid : deepCopy matrix = matrix) by apply map_id.
  exists (layout h matrix), (length h + length matrix)%nat.
  split; [by apply deepCopyH_layout|].
  split; [apply lookup_ge_None; lia|].
  split; [rewrite Hid; apply readTable_layout|]. split; [done|].
  split; [by apply readTable_app|].
  split; [intros ref a; apply lookup_layout_old|]. split.
  - intros j f h'' Hwrite. rewrite updateRowH_layout in Hwrite.
    destruct (matrix !! j); [|done]. injection Hwrite as <-.
    by apply readTable_app.
  - intros j f h'' Hwrite.
    destruct (updateRowH_old_layout h matrix matrix matrixRef j f h'' Hread Hwrite)
      as (h0' & Hlen & ->).
    rewrite <- Hlen. apply readTable_layout.
Qed.

Lemma deepCopy_independent_witness :
  readTable heapT refT = Some shapeT ∧
  ∃ h' copyRef,
    deepCopyH heapT refT = Return (h', copyRef) ∧
    heapT !! copyRef = None ∧
    readTable h' copyRef = Some (deepCopy shapeT) ∧
    deepCopy shapeT = shapeT ∧
    readTable h' refT = Some shapeT ∧
    (∀ ref a, heapT !! ref = Some a → h' !! ref = Some a) ∧
    (∀ j f h'', updateRowH h' copyRef j f = Return h'' →
       readTable h'' refT = Some shapeT) ∧
    (∀ j f h'', updateRowH h' refT j f = Return h'' →
       readTable h'' copyRef = Some shapeT).
Proof.
  assert (Hread : readTable heapT refT = Some shapeT) by reflexivity.
  split; [exact Hread|].
  exact (deepCopy_independent heapT refT shapeT Hread).
Defined.

(** ** createEmptyBoard and canPlaceTetromino on any board *)

Lemma boardCell_createEmptyBoard boardX boardY :
  inBounds boardX boardY → boardCell createEmptyBoard boardX boardY = Null.
Proof.
  intros [HX HY]. unfold boardCell, createEmptyBoard, cellOf.
  unfold GRID_WIDTH, GRID_HEIGHT in *.
  rewrite lookup_replicate_2 by lia.
  by rewrite lookup_replicate_2 by lia.
Qed.

(** X4. [createEmptyBoard] is a board of [GRID_HEIGHT] rows of
    [GRID_WIDTH] cells, all [null]; on it [canPlaceTetromino] returns, and
    returns [true] exactly when every truthy entry of the shape maps inside
    the bounds. *)
Theorem createEmptyBoard_placement tetromino posX posY :
  hasHeight createEmptyBoard ∧ hasWidth createEmptyBoard ∧
  (∀ row cell, cell ∈ row → row ∈ createEmptyBoard → cell = Null) ∧
  ∃ fits, canPlaceTetromino createEmptyBoard tetromino posX posY = Return fits ∧
    (fits = true ↔
     ∀ row col : nat, occupiedAt (shape tetromino) row col →
       inBounds (posX + Z.of_nat col) (posY + Z.of_nat row)).
Proof.
  split; [reflexivity|]. split; [by apply Forall_replicate|]. split.
  { intros row cell Hcell Hrow. apply elem_of_replicate in Hrow as [-> _].
    by apply elem_of_replicate in Hcell as [-> _]. }
  destruct (canPlaceRows_spec createEmptyBoard posX posY (shape tetromino)
              eq_refl 0) as (fits & Heq & Hiff).
  exists fits. split; [done|]. split.
  - intros -> row col Hocc.
    destruct (decide (inBounds (posX + Z.of_nat col) (posY + Z.of_nat row)))
      as [|Hout]; [done|].
    assert (true = false); [|done]. apply Hiff. exists row, col.
    split; [done|]. left. by rewrite Z.add_0_l.
  - intros Hall. destruct fits; [done|].
    destruct Hiff as [Hex _].
    destruct (Hex eq_refl) as (row & col & Hocc & [Hout | Hcell]).
    + rewrite Z.add_0_l in Hout. by specialize (Hall row col Hocc).
    + rewrite Z.add_0_l in Hcell. specialize (Hall row col Hocc).
      by rewrite boardCell_createEmptyBoard in Hcell.
Qed.

Lemma canPlaceCols_true_cell board posX posY row cells :
  ∀ col (k : nat) v,
  canPlaceCols board posX posY row col cells = Return true →
  cells !! k = Some v → truthy v = true →
  boardCell board (posX + (col + Z.of_nat k)) (posY + row) = Null.
Proof.
  induction cells as [|w cells IH]; intros col k v Hfit Hk Hv; [done|].
  simpl in Hfit. destruct k as [|k]; simpl in Hk.
  - simplify_eq. rewrite Hv in Hfit.
    destruct (_ || _); [done|].
    replace (col + Z.of_nat 0) with col by lia. unfold boardCell.
    destruct (board !! Z.to_nat (posY + row)) as [boardRow|]; [|done].
    destruct (cellOf boardRow (posX + col)); done.
  - replace (col + Z.of_nat (S k)) with (col + 1 + Z.of_nat k) by lia.
    apply (IH (col + 1) k v); [|done|done].
    destruct (truthy w); [|done].
    destruct (_ || _); [done|].
    destruct (board !! Z.to_nat (posY + row)); [|done].
    by destruct (notNull _).
Qed.

Lemma canPlaceRows_true_cell board posX posY rows :
  ∀ row (r c : nat),
  canPlaceRows board posX posY row rows = Return true →
  occupiedAt rows r c →
  boardCell board (posX + Z.of_nat c) (posY + (row + Z.of_nat r)) = Null.
Proof.
  induction rows as [|cells rows IH]; intros row r c Hfit (cs & v & Hr & Hc & Hv);
    [done|].
  simpl in Hfit. apply bind_Return in Hfit as (fits0 & Hcols & Hrest).
  destruct fits0; [|done].
  destruct r as [|r]; simpl in Hr.
  - simplify_eq. replace (row + Z.of_nat 0) with row by lia.
    by apply (canPlaceCols_true_cell _ _ _ _ _ 0 c v Hcols).
  - replace (row + Z.of_nat (S r)) with (row + 1 + Z.of_nat r) by lia.
    apply IH; [done|]. by exists cs, v.
Qed.

Lemma canPlaceCols_Throw board posX posY row cells :
  ∀ col, canPlaceCols board posX posY row col cells = Throw →
  Z.of_nat (length board) < GRID_HEIGHT.
Proof.
  induction cells as [|v cells IH]; intros col Hthrow; [done|].
  simpl in Hthrow. destruct (truthy v); [|by eapply IH].
  destruct (_ || _) eqn:Hb; [done|]. apply inBounds_test in Hb as [_ HY].
  destruct (board !! Z.to_nat (posY + row)) eqn:Hrow.
  - destruct (notNull _); [done | by eapply IH].
  - apply lookup_ge_None in Hrow. lia.
Qed.

Lemma canPlaceRows_Throw board posX posY rows :
  ∀ row, canPlaceRows board posX posY row rows = Throw →
  Z.of_nat (length board) < GRID_HEIGHT.
Proof.
  induction rows as [|cells rows IH]; intros row Hthrow; [done|].
  simpl in Hthrow.
  destruct (canPlaceCols board posX posY row 0 cells) as [[|]| |] eqn:Hcols;
    simpl in Hthrow; try done.
  - by eapply IH.
  - by eapply canPlaceCols_Throw.
Qed.

(** X5. On any board whatever, [canPlaceTetromino] ends; it throws only on
    a board with fewer than [GRID_HEIGHT] rows (a truthy entry maps inside
    the bounds to a row that the board does not have); and when it returns
    [true], every truthy entry of the shape maps inside the bounds onto a
    [null] cell. *)
Theorem canPlaceTetromino_any_board board tetromino posX posY :
  canPlaceTetromino board tetromino posX posY ≠ Hang ∧
  (canPlaceTetromino board tetromino posX posY = Throw →
   Z.of_nat (length board) < GRID_HEIGHT) ∧
  (canPlaceTetromino board tetromino posX posY = Return true →
   ∀ row col : nat, occupiedAt (shape tetromino) row col →
     inBounds (posX + Z.of_nat col) (posY + Z.of_nat row) ∧
     boardCell board (posX + Z.of_nat col) (posY + Z.of_nat row) = Null).
Proof.
  split; [apply canPlaceTetromino_not_Hang|]. split.
  - apply canPlaceRows_Throw.
  - intros Hfits row col Hocc. split.
    + by eapply canPlaceTetromino_true_inBounds.
    + by apply (canPlaceRows_true_cell _ _ _ _ 0 row col Hfits Hocc).
Qed.

(** A board too short for the piece: the T piece at the bottom of a board
    of 19 rows makes [canPlaceTetromino] throw. *)
Example canPlaceTetromino_short_board :
  canPlaceTetromino (replicate 19 (replicate 10 Null)) (TETROMINOES Key.T) 3 18
  = Throw.
Proof. reflexivity. Qed.

(** ** mergeTetromino after canPlaceTetromino *)

(** X6. When [canPlaceTetromino] accepts a block on a board of
    [GRID_HEIGHT] rows, [mergeTetromino] returns a board in which exactly
    the cells under the truthy entries of the block have changed: they lie
    inside the bounds, were [null] and now hold the colour of the block.
    On the merged board the same placement is refused, as soon as the block
    has a truthy entry at all. *)
Theorem mergeTetromino_after_placement board block :
  hasHeight board →
  canPlaceTetromino board (tetromino block) (x block) (y block) = Return true →
  ∃ newBoard,
    mergeTetromino board block = Return newBoard ∧
    hasHeight newBoard ∧
    (∀ boardX boardY, coveredBy block boardX boardY →
       inBounds boardX boardY ∧
       boardCell board boardX boardY = Null ∧
       boardCell newBoard boardX boardY = Color (color (tetromino block))) ∧
    (∀ boardX boardY, 0 ≤ boardX → 0 ≤ boardY →
       ¬ coveredBy block boardX boardY →
       boardCell newBoard boardX boardY = boardCell board boardX boardY) ∧
    (hasOccupied (shape (tetromino block)) = true →
     canPlaceTetromino newBoard (tetromino block) (x block) (y block)
     = Return false).
Proof.
  intros Hh Hfits.
  destruct (mergeTetromino_cells board block Hh)
    as (newBoard & Heq & Hlen & _ & Hcells).
  assert (Hh' : hasHeight newBoard) by (unfold hasHeight in *; by rewrite Hlen).
  assert (Hcovered : ∀ boardX boardY, coveredBy block boardX boardY →
            inBounds boardX boardY ∧
            boardCell board boardX boardY = Null ∧
            boardCell newBoard boardX boardY = Color (color (tetromino block))).
  { intros boardX boardY Hcov. pose proof Hcov as (row & col & Hocc & -> & ->).
    destruct (canPlaceTetromino_true_cells _ _ _ _ _ _ Hh Hfits Hocc)
      as [Hin Hnull].
    split; [done|]. split; [done|].
    apply Hcells; [apply Hin | apply Hin | done]. }
  exists newBoard. split; [done|]. split; [done|]. split; [done|]. split.
  - intros boardX boardY HX HY Hnot. apply Hcells; [done | done | tauto].
  - intros Hocc. apply hasOccupied_true in Hocc as (row & col & Hocc).
    destruct (canPlaceRows_spec newBoard (x block) (y block)
                (shape (tetromino block)) Hh' 0) as (fits & Hfits' & Hiff).
    unfold canPlaceTetromino. rewrite Hfits'. f_equal. apply Hiff.
    exists row, col. split; [done|]. right. rewrite Z.add_0_l.
    destruct (Hcovered (x block + Z.of_nat col) (y block + Z.of_nat row))
      as (_ & _ & ->); [by exists row, col | done].
Qed.

Lemma mergeTetromino_after_placement_witness :
  hasHeight createEmptyBoard ∧
  canPlaceTetromino createEmptyBoard (tetromino (currentBlock landedO))
    (x (currentBlock landedO)) (y (currentBlock landedO)) = Return true ∧
  ∃ newBoard,
    mergeTetromino createEmptyBoard (currentBlock landedO) = Return newBoard ∧
    hasHeight newBoard ∧
    (∀ boardX boardY, coveredBy (currentBlock landedO) boardX boardY →
       inBounds boardX boardY ∧
       boardCell createEmptyBoard boardX boardY = Null ∧
       boardCell newBoard boardX boardY
       = Color (color (tetromino (currentBlock landedO)))) ∧
    (∀ boardX boardY, 0 ≤ boardX → 0 ≤ boardY →
       ¬ coveredBy (currentBlock landedO) boardX boardY →
       boardCell newBoard boardX boardY
       = boardCell createEmptyBoard boardX boardY) ∧
    (hasOccupied (shape (tetromino (currentBlock landedO))) = true →
     canPlaceTetromino newBoard (tetromino (currentBlock landedO))
       (x (currentBlock landedO)) (y (currentBlock landedO))
     = Return false).
Proof.
  split; [reflexivity|]. split; [reflexivity|].
  apply (mergeTetromino_after_placement createEmptyBoard (currentBlock landedO));
    reflexivity.
Defined.

(** ** clearRows on any board *)

Lemma emptyRow_not_full : ¬ fullRow (replicate (Z.to_nat GRID_WIDTH) Null).
Proof. intros Hfull. apply Hfull. by left. Qed.

Lemma filter_all {A} (P : A → Prop) `{!∀ a, Decision (P a)} (l : list A) :
  Forall P l → filter P l = l.
Proof.
  induction 1 as [|a l Ha _ IH]; [done|].
  by rewrite filter_cons_True, IH.
Qed.

(** X7. On any board, [clearRows] reports [GRID_HEIGHT] minus the number of
    rows that are not full, which is negative for a board with more than
    [GRID_HEIGHT] such rows; the board it returns has [GRID_HEIGHT] rows or
    that number of rows, whichever is larger, and none of them is full.
    Clearing the returned board again changes nothing, and reports 0 when
    the board had at most [GRID_HEIGHT] rows. *)
Theorem clearRows_any_board board :
  let remaining := filter (fun row => ¬ fullRow row) board in
  let cleared := clearRows board in
  cleared.2 = GRID_HEIGHT - Z.of_nat (length remaining) ∧
  length cleared.1 = Nat.max (Z.to_nat GRID_HEIGHT) (length remaining) ∧
  Forall (fun row => ¬ fullRow row) cleared.1 ∧
  clearRows cleared.1 = (cleared.1, GRID_HEIGHT - Z.of_nat (length cleared.1)) ∧
  ((length board ≤ Z.to_nat GRID_HEIGHT)%nat → clearRows cleared.1 = (cleared.1, 0)).
Proof.
  intros remaining cleared.
  assert (Hcleared : cleared
    = (replicate (Z.to_nat (GRID_HEIGHT - Z.of_nat (length remaining)))
         (replicate (Z.to_nat GRID_WIDTH) Null) ++ remaining,
       GRID_HEIGHT - Z.of_nat (length remaining))).
  { unfold cleared, clearRows. by rewrite remainingRows_filter. }
  rewrite Hcleared. cbn [fst snd].
  assert (Hlen : length (replicate (Z.to_nat (GRID_HEIGHT - Z.of_nat (length remaining)))
                   (replicate (Z.to_nat GRID_WIDTH) Null) ++ remaining)
                 = Nat.max (Z.to_nat GRID_HEIGHT) (length remaining)).
  { rewrite length_app, length_replicate. unfold GRID_HEIGHT. lia. }
  assert (Hnone : Forall (fun row => ¬ fullRow row)
            (replicate (Z.to_nat (GRID_HEIGHT - Z.of_nat (length remaining)))
               (replicate (Z.to_nat GRID_WIDTH) Null) ++ remaining)).
  { apply Forall_app. split.
    - apply Forall_replicate, emptyRow_not_full.
    - apply Forall_forall. intros row Hrow.
      by apply list_elem_of_filter in Hrow as [? _]. }
  split; [done|]. split; [done|]. split; [done|].
  assert (Hsecond : clearRows
      (replicate (Z.to_nat (GRID_HEIGHT - Z.of_nat (length remaining)))
         (replicate (Z.to_nat GRID_WIDTH) Null) ++ remaining)
    = (replicate (Z.to_nat (GRID_HEIGHT - Z.of_nat (length remaining)))
         (replicate (Z.to_nat GRID_WIDTH) Null) ++ remaining,
       GRID_HEIGHT - Z.of_nat (length
         (replicate (Z.to_nat (GRID_HEIGHT - Z.of_nat (length remaining)))
            (replicate (Z.to_nat GRID_WIDTH) Null) ++ remaining)))).
  { unfold clearRows at 1. rewrite remainingRows_filter.
    rewrite (filter_all _ _ Hnone). rewrite Hlen.
    replace (Z.to_nat (GRID_HEIGHT - Z.of_nat
               (Nat.max (Z.to_nat GRID_HEIGHT) (length remaining)))) with 0%nat
      by (unfold GRID_HEIGHT; lia).
    done. }
  split; [done|]. intros Hshort. rewrite Hsecond, Hlen. f_equal.
  pose proof (length_filter (fun row => ¬ fullRow row) board) as Hle.
  fold remaining in Hle. unfold GRID_HEIGHT in *. lia.
Qed.

(** A board of 21 rows that are not full: [clearRows] returns it as it is
    and reports -1. *)
Example clearRows_tall_board :
  clearRows (replicate 21 (replicate 10 Null))
  = (replicate 21 (replicate 10 Null), -1).
Proof. reflexivity. Qed.

(** ** spawnNewBlock *)

(** X8. [spawnNewBlock] throws exactly when the shape has no first row, and
    looks at nothing of the board. Otherwise the block it returns holds the
    piece at [y = 0], centred: the margin on the right of its first row is
    the margin on the left or one more, and when the row is at most
    [GRID_WIDTH] wide it lies inside the board. *)
Theorem spawnNewBlock_centered board piece :
  (spawnNewBlock board piece = Throw ↔ shape piece = []) ∧
  (∀ board', spawnNewBlock board' piece = spawnNewBlock board piece) ∧
  ∀ row0 rows, shape piece = row0 :: rows →
    ∃ block, spawnNewBlock board piece = Return block ∧
      tetromino block = piece ∧ y block = 0 ∧
      let width := Z.of_nat (length row0) in
      let right := GRID_WIDTH - width - x block in
      x block ≤ right ≤ x block + 1 ∧
      (width ≤ GRID_WIDTH → 0 ≤ x block ∧ x block + width ≤ GRID_WIDTH).
Proof.
  unfold spawnNewBlock. split; [|split].
  - destruct (shape piece); [done|]. split; done.
  - done.
  - intros row0 rows ->. eexists. split; [done|]. split; [done|]. split; [done|].
    cbn [x]. unfold GRID_WIDTH.
    pose proof (Z.div_mod (10 - Z.of_nat (length row0)) 2 ltac:(lia)) as Hdm.
    pose proof (Z.mod_pos_bound (10 - Z.of_nat (length row0)) 2 ltac:(lia)) as Hm.
    lia.
Qed.

(** ** updateState: the moves *)

Lemma named_false action name : named action name = false ↔ type action ≠ name.
Proof. unfold named. apply String.eqb_neq. Qed.

Lemma withY_same block : withY block (y block) = block.
Proof. by destruct block. Qed.

Lemma withX_same block : withX block (x block) = block.
Proof. by destruct block. Qed.

Lemma withBlock_same state : withBlock state (currentBlock state) = state.
Proof. by destruct state. Qed.

Lemma updateState_left state randKey :
  gameOver state = false →
  updateState state (mkAction "left") randKey
  = let* fits := canPlaceTetromino (board state) (tetromino (currentBlock state))
                   (x (currentBlock state) - 1) (y (currentBlock state)) in
    if fits then
      Return (withBlock state
                (withX (currentBlock state) (x (currentBlock state) - 1)))
    else Return state.
Proof. intros Hover. unfold updateState. by rewrite Hover. Qed.

Lemma updateState_right state randKey :
  gameOver state = false →
  updateState state (mkAction "right") randKey
  = let* fits := canPlaceTetromino (board state) (tetromino (currentBlock state))
                   (x (currentBlock state) + 1) (y (currentBlock state)) in
    if fits then
      Return (withBlock state
                (withX (currentBlock state) (x (currentBlock state) + 1)))
    else Return state.
Proof. intros Hover. unfold updateState. by rewrite Hover. Qed.

(** What a transition of a running game can be: nothing, a move of the
    block to a place that [canPlaceTetromino] accepts, or the lock sequence
    for the block at some row. *)
Lemma updateState_inv state action randKey state' :
  gameOver state = false →
  updateState state action randKey = Return state' →
  state' = state ∨
  (∃ block',
     state' = withBlock state block' ∧
     canPlaceTetromino (board state) (tetromino block') (x block') (y block')
     = Return true ∧
     color (tetromino block') = color (tetromino (currentBlock state)) ∧
     (shape (tetromino block') = shape (tetromino (currentBlock state)) ∨
      rotate (shape (tetromino (currentBlock state)))
      = Return (shape (tetromino block')))) ∨
  (∃ dropY,
     lockSequence state (withY (currentBlock state) dropY) randKey
     = Return state').
Proof.
  intros Hover Hstep.
  destruct (named action "tick" || named action "down") eqn:Htick.
  { rewrite updateState_tick in Hstep by done.
    apply bind_Return in Hstep as ([|] & Hfits & Hstep).
    - injection Hstep as <-. right; left. eexists. split; [done|].
      split; [exact Hfits|]. split; [done|]. by left.
    - right; right. exists (y (currentBlock state)). by rewrite withY_same. }
  unfold updateState in Hstep. rewrite Hover, Htick in Hstep.
  destruct (named action "left").
  { apply bind_Return in Hstep as ([|] & Hfits & Hstep); injection Hstep as <-.
    - right; left. eexists. split; [done|].
      split; [exact Hfits|]. split; [done|]. by left.
    - by left. }
  destruct (named action "right").
  { apply bind_Return in Hstep as ([|] & Hfits & Hstep); injection Hstep as <-.
    - right; left. eexists. split; [done|].
      split; [exact Hfits|]. split; [done|]. by left.
    - by left. }
  destruct (named action "rotate").
  { apply bind_Return in Hstep as (rotated & Hrot & Hstep).
    apply bind_Return in Hstep as ([|] & Hfits & Hstep); injection Hstep as <-.
    - right; left. eexists. split; [done|].
      split; [exact Hfits|]. split; [done|]. by right.
    - by left. }
  destruct (named action "drop").
  { apply bind_Return in Hstep as (dropY & Hloop & Hstep).
    right; right. by exists dropY. }
  left. by injection Hstep as <-.
Qed.

Ltac frame_finish :=
  cbn; repeat split; intros; try done; try lia;
  try (match goal with
       | H : type _ ≠ _ |- _ => apply named_false in H; congruence
       end).

(** X9. An action that is neither "tick" nor "down" nor "drop" never locks:
    whatever state [updateState] returns for it has the board, the score,
    the preview and the [gameOver] flag of the state it was given, and a
    block of the same colour in the same row, at most one column away. An
    action that is none of the six known ones returns the state itself.
    None of this depends on the draw. The block's column is taken with
    both its neighbours among the safe integers, where the program's
    [x - 1] and [x + 1] are the differences and sums of [Z]; the column of
    the block that comes back is then a safe integer as well. *)
Theorem nonlocking_actions_frame state action randKey state' :
  type action ≠ "tick" → type action ≠ "down" → type action ≠ "drop" →
  safeInteger (x (currentBlock state) - 1) →
  safeInteger (x (currentBlock state) + 1) →
  updateState state action randKey = Return state' →
  board state' = board state ∧
  score state' = score state ∧
  nextTetromino state' = nextTetromino state ∧
  gameOver state' = gameOver state ∧
  color (tetromino (currentBlock state'))
  = color (tetromino (currentBlock state)) ∧
  y (currentBlock state') = y (currentBlock state) ∧
  x (currentBlock state) - 1 ≤ x (currentBlock state')
  ≤ x (currentBlock state) + 1 ∧
  safeInteger (x (currentBlock state')) ∧
  (type action ≠ "rotate" →
   tetromino (currentBlock state') = tetromino (currentBlock state)) ∧
  (type action ≠ "left" → type action ≠ "right" → type action ≠ "rotate" →
   state' = state) ∧
  ∀ randKey', updateState state action randKey' = Return state'.
Proof.
  intros Htick%named_false Hdown%named_false Hdrop%named_false.
  unfold safeInteger, MAX_SAFE_INTEGER. intros Hbelow Habove.
  unfold updateState.
  destruct (gameOver state) eqn:Hover.
  { intros [= <-]. frame_finish. }
  rewrite Htick, Hdown, Hdrop. cbn [orb].
  destruct (named action "left") eqn:Hleft.
  { destruct (canPlaceTetromino _ _ _ _) as [[|]| |]; cbn [bind]; try done;
      intros [= <-]; frame_finish. }
  destruct (named action "right") eqn:Hright.
  { destruct (canPlaceTetromino _ _ _ _) as [[|]| |]; cbn [bind]; try done;
      intros [= <-]; frame_finish. }
  destruct (named action "rotate") eqn:Hrotate.
  { destruct (rotate _) as [rotated| |]; cbn [bind]; try done.
    destruct (canPlaceTetromino _ _ _ _) as [[|]| |]; cbn [bind]; try done;
      intros [= <-]; frame_finish. }
  intros [= <-]. frame_finish.
Qed.

Lemma nonlocking_actions_frame_witness :
  type (mkAction "left") ≠ "tick" ∧ type (mkAction "left") ≠ "down" ∧
  type (mkAction "left") ≠ "drop" ∧
  safeInteger (x (currentBlock startT) - 1) ∧
  safeInteger (x (currentBlock startT) + 1) ∧
  updateState startT (mkAction "left") Key.J
  = Return (stateOf createEmptyBoard Key.T 2 0 Key.I) ∧
  board (stateOf createEmptyBoard Key.T 2 0 Key.I) = board startT ∧
  score (stateOf createEmptyBoard Key.T 2 0 Key.I) = score startT.
Proof.
  assert (Hbelow : safeInteger (x (currentBlock startT) - 1))
    by (vm_compute; split; discriminate).
  assert (Habove : safeInteger (x (currentBlock startT) + 1))
    by (vm_compute; split; discriminate).
  assert (Hstep : updateState startT (mkAction "left") Key.J
                  = Return (stateOf createEmptyBoard Key.T 2 0 Key.I))
    by reflexivity.
  assert (H1 : type (mkAction "left") ≠ "tick") by discriminate.
  assert (H2 : type (mkAction "left") ≠ "down") by discriminate.
  assert (H3 : type (mkAction "left") ≠ "drop") by discriminate.
  pose proof (nonlocking_actions_frame startT (mkAction "left") Key.J _
                H1 H2 H3 Hbelow Habove Hstep) as (Hboard & Hscore & _).
  repeat (split; [assumption|]). exact Hscore.
Defined.

(** X10. In a running game, a "left" that is accepted is undone by the
    "right" that follows it when the block was validly placed to begin
    with, and likewise a "right" by a "left": the two actions bring back
    the very state. The block's column is taken with both its neighbours
    among the safe integers, where the program's [x - 1] and [x + 1] are
    exact, so that the column in between is a safe integer too and
    [x - 1 + 1] and [x + 1 - 1] are [x] in the program as they are in
    [Z]. *)
Theorem left_right_round_trip state key1 key2 :
  gameOver state = false →
  safeInteger (x (currentBlock state) - 1) →
  safeInteger (x (currentBlock state) + 1) →
  canPlaceTetromino (board state) (tetromino (currentBlock state))
    (x (currentBlock state)) (y (currentBlock state)) = Return true →
  (canPlaceTetromino (board state) (tetromino (currentBlock state))
     (x (currentBlock state) - 1) (y (currentBlock state)) = Return true →
   ∃ moved,
     updateState state (mkAction "left") key1 = Return moved ∧
     x (currentBlock moved) = x (currentBlock state) - 1 ∧
     safeInteger (x (currentBlock moved)) ∧
     safeInteger (x (currentBlock moved) + 1) ∧
     updateState moved (mkAction "right") key2 = Return state ∧
     run state [(mkAction "left", key1); (mkAction "right", key2)]
     = Return state) ∧
  (canPlaceTetromino (board state) (tetromino (currentBlock state))
     (x (currentBlock state) + 1) (y (currentBlock state)) = Return true →
   ∃ moved,
     updateState state (mkAction "right") key1 = Return moved ∧
     x (currentBlock moved) = x (currentBlock state) + 1 ∧
     safeInteger (x (currentBlock moved)) ∧
     safeInteger (x (currentBlock moved) - 1) ∧
     updateState moved (mkAction "left") key2 = Return state ∧
     run state [(mkAction "right", key1); (mkAction "left", key2)]
     = Return state).
Proof.
  intros Hover Hbelow Habove Hhere.
  destruct state as [grid [piece posX posY] next over total].
  cbn [gameOver board currentBlock tetromino x y] in *. subst over.
  assert (Hmiddle : safeInteger posX).
  { unfold safeInteger in *. lia. }
  split; intros Hthere.
  - set (moved := withBlock (mkState grid (mkFallingBlock piece posX posY)
                               next false total)
                    (mkFallingBlock piece (posX - 1) posY)).
    assert (Hleft : updateState (mkState grid (mkFallingBlock piece posX posY)
                                   next false total)
                      (mkAction "left") key1 = Return moved).
    { rewrite updateState_left by done.
      cbn [gameOver board currentBlock tetromino x y].
      by rewrite Hthere. }
    assert (Hright : updateState moved (mkAction "right") key2
                     = Return (mkState grid (mkFallingBlock piece posX posY)
                                 next false total)).
    { rewrite updateState_right by done. unfold moved.
      cbn [withBlock withX gameOver board currentBlock tetromino x y
           nextTetromino score].
      replace (posX - 1 + 1) with posX by lia. by rewrite Hhere. }
    exists moved. split; [exact Hleft|].
    cbn [moved withBlock currentBlock x].
    split; [reflexivity|]. split; [exact Hbelow|].
    split; [by replace (posX - 1 + 1) with posX by lia|].
    split; [exact Hright|].
    cbn [run]. rewrite Hleft. cbn [bind]. by rewrite Hright.
  - set (moved := withBlock (mkState grid (mkFallingBlock piece posX posY)
                               next false total)
                    (mkFallingBlock piece (posX + 1) posY)).
    assert (Hright : updateState (mkState grid (mkFallingBlock piece posX posY)
                                    next false total)
                       (mkAction "right") key1 = Return moved).
    { rewrite updateState_right by done.
      cbn [gameOver board currentBlock tetromino x y].
      by rewrite Hthere. }
    assert (Hleft : updateState moved (mkAction "left") key2
                    = Return (mkState grid (mkFallingBlock piece posX posY)
                                next false total)).
    { rewrite updateState_left by done. unfold moved.
      cbn [withBlock withX gameOver board currentBlock tetromino x y
           nextTetromino score].
      replace (posX + 1 - 1) with posX by lia. by rewrite Hhere. }
    exists moved. split; [exact Hright|].
    cbn [moved withBlock currentBlock x].
    split; [reflexivity|]. split; [exact Habove|].
    split; [by replace (posX + 1 - 1) with posX by lia|].
    split; [exact Hleft|].
    cbn [run]. rewrite Hright. cbn [bind]. by rewrite Hleft.
Qed.

Lemma left_right_round_trip_witness :
  gameOver startT = false ∧
  safeInteger (x (currentBlock startT) - 1) ∧
  safeInteger (x (currentBlock startT) + 1) ∧
  canPlaceTetromino (board startT) (tetromino (currentBlock startT))
    (x (currentBlock startT)) (y (currentBlock startT)) = Return true ∧
  canPlaceTetromino (board startT) (tetromino (currentBlock startT))
    (x (currentBlock startT) - 1) (y (currentBlock startT)) = Return true ∧
  canPlaceTetromino (board startT) (tetromino (currentBlock startT))
    (x (currentBlock startT) + 1) (y (currentBlock startT)) = Return true ∧
  run startT [(mkAction "left", Key.S); (mkAction "right", Key.Z)]
  = Return startT ∧
  run startT [(mkAction "right", Key.S); (mkAction "left", Key.Z)]
  = Return startT.
Proof.
  assert (Hover : gameOver startT = false) by reflexivity.
  assert (Hbelow : safeInteger (x (currentBlock startT) - 1))
    by (vm_compute; split; discriminate).
  assert (Habove : safeInteger (x (currentBlock startT) + 1))
    by (vm_compute; split; discriminate).
  assert (Hhere : canPlaceTetromino (board startT)
                    (tetromino (currentBlock startT))
                    (x (currentBlock startT)) (y (currentBlock startT))
                  = Return true) by reflexivity.
  assert (Hleft : canPlaceTetromino (board startT)
                    (tetromino (currentBlock startT))
                    (x (currentBlock startT) - 1) (y (currentBlock startT))
                  = Return true) by reflexivity.
  assert (Hright : canPlaceTetromino (board startT)
                     (tetromino (currentBlock startT))
                     (x (currentBlock startT) + 1) (y (currentBlock startT))
                   = Return true) by reflexivity.
  destruct (left_right_round_trip startT Key.S Key.Z Hover Hbelow Habove Hhere)
    as [Hthere Hback].
  destruct (Hthere Hleft) as (moved1 & _ & _ & _ & _ & _ & Hrun1).
  destruct (Hback Hright) as (moved2 & _ & _ & _ & _ & _ & Hrun2).
  repeat (split; [assumption|]). exact Hrun2.
Defined.

(** ** "drop" and "tick" *)

(** As long as the row below accepts the block, ticks only move it down. *)
Lemma ticks_fall randKeys :
  ∀ state,
  gameOver state = false →
  (∀ y', y (currentBlock state) < y'
         ≤ y (currentBlock state) + Z.of_nat (length randKeys) →
     canPlaceTetromino (board state) (tetromino (currentBlock state))
       (x (currentBlock state)) y' = Return true) →
  run state (ticks randKeys)
  = Return (withBlock state
              (withY (currentBlock state)
                 (y (currentBlock state) + Z.of_nat (length randKeys)))).
Proof.
  induction randKeys as [|randKey randKeys IH]; intros state Hover Hfall.
  - cbn. by rewrite Z.add_0_r, withY_same, withBlock_same.
  - cbn [ticks map run length]. fold (ticks randKeys).
    rewrite updateState_tick by done.
    rewrite Hfall by (cbn [length]; lia). cbn [bind].
    rewrite IH.
    + destruct state as [board [piece posX posY] next over total]. cbn.
      do 3 f_equal. lia.
    + done.
    + intros y' Hy'. cbn in *. apply Hfall. lia.
Qed.

(** X11. A "drop" is a run of ticks: in a running game on a board of
    [GRID_HEIGHT] rows, with a block that has a truthy entry, there is a
    number [n <= GRID_HEIGHT] such that [n] ticks followed by one more tick
    return what the "drop" returns, the last tick making the draw of the
    "drop" (the ticks before it draw nothing, so their keys do not matter). *)
Theorem drop_is_a_run_of_ticks state randKey :
  gameOver state = false →
  hasHeight (board state) →
  hasOccupied (shape (tetromino (currentBlock state))) = true →
  ∃ n : nat, Z.of_nat n ≤ GRID_HEIGHT ∧
    ∀ randKeys, length randKeys = n →
      run state (ticks randKeys ++ [(mkAction "tick", randKey)])
      = updateState state (mkAction "drop") randKey.
Proof.
  intros Hover Hh Hocc. apply hasOccupied_true in Hocc as (row & col & Hocc).
  destruct (dropLoop_returns (board state) (currentBlock state) row col
              (y (currentBlock state)) Hocc Hh)
    as (restY & Hloop & Hle & Hstop & Hfall).
  exists (Z.to_nat (restY - y (currentBlock state))). split.
  - destruct (decide (restY = y (currentBlock state))) as [-> | Hne].
    + unfold GRID_HEIGHT. lia.
    + pose proof (canPlaceTetromino_true_inBounds _ _ _ _ _ _
                    (Hfall restY ltac:(lia)) Hocc) as [_ Hlast].
      pose proof (canPlaceTetromino_true_inBounds _ _ _ _ _ _
                    (Hfall (y (currentBlock state) + 1) ltac:(lia)) Hocc)
        as [_ Hfirst].
      unfold GRID_HEIGHT in *. lia.
  - intros randKeys Hlen.
    rewrite run_app, ticks_fall; [|done|].
    2: { intros y' Hy'. apply Hfall. lia. }
    cbn [bind run]. rewrite Hlen.
    replace (y (currentBlock state)
             + Z.of_nat (Z.to_nat (restY - y (currentBlock state))))
      with restY by lia.
    rewrite updateState_tick by done.
    cbn [withBlock withY board currentBlock tetromino x y].
    rewrite Hstop. cbn [bind].
    rewrite updateState_drop by done. rewrite Hloop. cbn [bind].
    by destruct (lockSequence _ _ _).
Qed.

Lemma drop_is_a_run_of_ticks_witness :
  gameOver startT = false ∧ hasHeight (board startT) ∧
  hasOccupied (shape (tetromino (currentBlock startT))) = true ∧
  ∃ n : nat, Z.of_nat n ≤ GRID_HEIGHT ∧
    ∀ randKeys, length randKeys = n →
      run startT (ticks randKeys ++ [(mkAction "tick", Key.O)])
      = updateState startT (mkAction "drop") Key.O.
Proof.
  split; [reflexivity|]. split; [reflexivity|]. split; [reflexivity|].
  apply (drop_is_a_run_of_ticks startT Key.O); reflexivity.
Defined.

(** ** Which transitions do not end *)

Lemma mergeCols_not_Hang block row cells :
  ∀ newBoard col, mergeCols newBoard block row col cells ≠ Hang.
Proof.
  induction cells as [|v cells IH]; intros newBoard col; simpl; [done|].
  destruct (truthy v); [|apply IH].
  destruct (_ && _); [|apply IH].
  unfold setBoard. destruct (newBoard !! _); [|done]. cbn [bind]. apply IH.
Qed.

Lemma mergeTetromino_not_Hang board block : mergeTetromino board block ≠ Hang.
Proof.
  unfold mergeTetromino. generalize (map (fun row : list Cell => row) board) 0.
  induction (shape (tetromino block)) as [|cells rows IH]; intros newBoard row;
    simpl; [done|].
  pose proof (mergeCols_not_Hang block row cells newBoard 0) as Hcols.
  destruct (mergeCols newBoard block row 0 cells); cbn [bind]; [apply IH | done | done].
Qed.

Lemma lockSequence_not_Hang state block randKey :
  lockSequence state block randKey ≠ Hang.
Proof.
  unfold lockSequence.
  pose proof (mergeTetromino_not_Hang (board state) block) as Hmerge.
  destruct (mergeTetromino (board state) block) as [newBoard| |]; cbn [bind];
    [|done|done].
  destruct (clearRows newBoard) as [clearedBoard rowsCleared].
  unfold spawnNewBlock.
  destruct (shape (nextTetromino state)) as [|row0 rows]; [done|].
  cbn [bind tetromino x y].
  pose proof (canPlaceTetromino_not_Hang clearedBoard (nextTetromino state)
                ((GRID_WIDTH - Z.of_nat (length row0)) `div` 2) 0) as Hfits.
  by destruct (canPlaceTetromino _ _ _ _) as [[|]| |].
Qed.

Lemma dropLoop_dropFuel_not_Hang board block dropY :
  hasOccupied (shape (tetromino block)) = true →
  dropLoop dropFuel board block dropY ≠ Hang.
Proof.
  intros Hocc. apply hasOccupied_true in Hocc as (row & col & Hocc).
  unfold dropFuel. change (Z.to_nat GRID_HEIGHT) with 20%nat. rewrite dropLoop_S.
  pose proof (canPlaceTetromino_not_Hang board (tetromino block) (x block)
                (dropY + 1)) as HnH.
  destruct (canPlaceTetromino board (tetromino block) (x block) (dropY + 1))
    as [[|]| |] eqn:Hfits; cbn [bind]; try done.
  pose proof (canPlaceTetromino_true_inBounds _ _ _ _ _ _ Hfits Hocc) as [_ Hin].
  apply (dropLoop_not_Hang board block row col Hocc).
  unfold GRID_HEIGHT in *. lia.
Qed.

(** X12. [updateState] fails to end in one case only: a "drop" in a running
    game on a block whose shape has no truthy entry, for which the condition
    of the loop holds at every row. Every other call returns or throws. *)
Theorem updateState_loops_iff state action randKey :
  updateState state action randKey = Hang ↔
  gameOver state = false ∧ type action = "drop" ∧
  hasOccupied (shape (tetromino (currentBlock state))) = false.
Proof.
  split.
  - unfold updateState. destruct (gameOver state); [done|].
    destruct (named action "tick" || named action "down").
    { intros Hhang. exfalso.
      pose proof (canPlaceTetromino_not_Hang (board state)
                    (tetromino (currentBlock state)) (x (currentBlock state))
                    (y (currentBlock state) + 1)) as Hfits.
      destruct (canPlaceTetromino _ _ _ _) as [[|]| |]; cbn [bind] in Hhang;
        try done.
      by apply (lockSequence_not_Hang state (currentBlock state) randKey). }
    destruct (named action "left").
    { intros Hhang. exfalso.
      pose proof (canPlaceTetromino_not_Hang (board state)
                    (tetromino (currentBlock state)) (x (currentBlock state) - 1)
                    (y (currentBlock state))) as Hfits.
      by destruct (canPlaceTetromino _ _ _ _) as [[|]| |]. }
    destruct (named action "right").
    { intros Hhang. exfalso.
      pose proof (canPlaceTetromino_not_Hang (board state)
                    (tetromino (currentBlock state)) (x (currentBlock state) + 1)
                    (y (currentBlock state))) as Hfits.
      by destruct (canPlaceTetromino _ _ _ _) as [[|]| |]. }
    destruct (named action "rotate").
    { intros Hhang. exfalso.
      destruct (shape (tetromino (currentBlock state))) as [|row0 rows];
        [done|].
      cbn [rotate bind] in Hhang.
      match type of Hhang with
      | context [canPlaceTetromino ?b ?t ?px ?py] =>
          pose proof (canPlaceTetromino_not_Hang b t px py) as Hfits;
          by destruct (canPlaceTetromino b t px py) as [[|]| |]
      end. }
    destruct (named action "drop") eqn:Hdrop; [|done].
    intros Hhang. split; [done|]. split; [by apply named_true|].
    destruct (hasOccupied (shape (tetromino (currentBlock state)))) eqn:Hocc;
      [|done].
    exfalso.
    pose proof (dropLoop_dropFuel_not_Hang (board state) (currentBlock state)
                  (y (currentBlock state)) Hocc) as Hloop.
    destruct (dropLoop _ _ _ _) as [dropY| |]; cbn [bind] in Hhang; try done.
    by apply (lockSequence_not_Hang state
                (withY (currentBlock state) dropY) randKey).
  - intros (Hover & Hdrop & Hocc). destruct action as [name]. cbn in Hdrop.
    subst name. rewrite updateState_drop by done.
    by rewrite dropLoop_Hang.
Qed.

(** A block without a truthy entry: the "drop" does not end, whatever the
    fuel given to its loop. *)
Example drop_of_blank_piece :
  let blank :=
    {| board := createEmptyBoard;
       currentBlock := {| tetromino := {| shape := literal [[0; 0]; [0; 0]];
                                          color := "grey" |};
                          x := 4; y := 0 |};
       nextTetromino := randomTetromino Key.T;
       gameOver := false;
       score := 0 |} in
  updateState blank (mkAction "drop") Key.O = Hang ∧
  ∀ fuel, dropLoop fuel (board blank) (currentBlock blank) 0 = Hang.
Proof.
  intros blank. split; [reflexivity|].
  intros fuel. by apply dropLoop_Hang.
Qed.

(** ** The board and the score of the states that the game reaches *)

Lemma boardCell_lookup (board : Board) (i j : nat) row cell :
  board !! i = Some row → row !! j = Some cell →
  boardCell board (Z.of_nat j) (Z.of_nat i) = cell.
Proof.
  intros Hi Hj. unfold boardCell, cellOf. by rewrite !Nat2Z.id, Hi, Hj.
Qed.

Lemma coveredBy_band block boardX boardY :
  coveredBy block boardX boardY →
  y block ≤ boardY < y block + Z.of_nat (length (shape (tetromino block))).
Proof.
  intros (row & col & (cells & v & Hrow & _) & _ & ->).
  apply lookup_lt_Some in Hrow. lia.
Qed.

(** The rows of the board outside the band of the block are those of the
    board before the merge. *)
Lemma mergeTetromino_rows_outside board block newBoard (i : nat) :
  hasHeight board → hasWidth board →
  mergeTetromino board block = Return newBoard →
  ¬ (y block ≤ Z.of_nat i
     < y block + Z.of_nat (length (shape (tetromino block)))) →
  newBoard !! i = board !! i.
Proof.
  intros Hh Hw Hmerge Hout.
  destruct (mergeTetromino_cells board block Hh)
    as (newBoard' & Heq & Hlen & Hwidth & Hcells).
  rewrite Hmerge in Heq. injection Heq as <-. specialize (Hwidth Hw).
  destruct (board !! i) as [row|] eqn:Hrow.
  - destruct (lookup_lt_is_Some_2 newBoard i) as [row' Hrow'].
    { rewrite Hlen. by eapply lookup_lt_Some. }
    rewrite Hrow'. f_equal.
    pose proof (Forall_lookup_1 _ _ _ _ Hw Hrow) as Hrowlen.
    pose proof (Forall_lookup_1 _ _ _ _ Hwidth Hrow') as Hrowlen'.
    simpl in Hrowlen, Hrowlen'.
    apply list_eq. intros j.
    destruct (row !! j) as [cell|] eqn:Hcell.
    + destruct (lookup_lt_is_Some_2 row' j) as [cell' Hcell'].
      { rewrite Hrowlen', <- Hrowlen. by eapply lookup_lt_Some. }
      rewrite Hcell'. f_equal.
      rewrite <- (boardCell_lookup newBoard i j row' cell' Hrow' Hcell').
      rewrite <- (boardCell_lookup board i j row cell Hrow Hcell).
      apply Hcells; [lia | lia |].
      intros [Hcov _]. apply coveredBy_band in Hcov. lia.
    + apply lookup_ge_None in Hcell. apply lookup_ge_None. lia.
  - apply lookup_ge_None in Hrow. apply lookup_ge_None. lia.
Qed.

Lemma mergeTetromino_solid board block newBoard :
  hasHeight board → hasWidth board →
  Forall (fun row => NoCell ∉ row) board →
  mergeTetromino board block = Return newBoard →
  Forall (fun row => NoCell ∉ row) newBoard.
Proof.
  intros Hh Hw Hsolid Hmerge.
  destruct (mergeTetromino_cells board block Hh)
    as (newBoard' & Heq & Hlen & Hwidth & Hcells).
  rewrite Hmerge in Heq. injection Heq as <-. specialize (Hwidth Hw).
  apply Forall_lookup. intros i row' Hrow' Hin.
  apply list_elem_of_lookup in Hin as [j Hcell'].
  destruct (lookup_lt_is_Some_2 board i) as [row Hrow].
  { rewrite <- Hlen. by eapply lookup_lt_Some. }
  pose proof (Forall_lookup_1 _ _ _ _ Hw Hrow) as Hrowlen.
  pose proof (Forall_lookup_1 _ _ _ _ Hwidth Hrow') as Hrowlen'.
  simpl in Hrowlen, Hrowlen'.
  destruct (lookup_lt_is_Some_2 row j) as [cell Hcell].
  { rewrite Hrowlen, <- Hrowlen'. by eapply lookup_lt_Some. }
  pose proof (boardCell_lookup newBoard i j row' NoCell Hrow' Hcell') as Hnew.
  pose proof (boardCell_lookup board i j row cell Hrow Hcell) as Hold.
  destruct (Hcells (Z.of_nat j) (Z.of_nat i)) as [Hpainted Hkept]; [lia | lia |].
  assert (Hnot : ¬ (coveredBy block (Z.of_nat j) (Z.of_nat i)
                    ∧ inBounds (Z.of_nat j) (Z.of_nat i))).
  { intros Hcov. rewrite (Hpainted Hcov) in Hnew. discriminate. }
  rewrite (Hkept Hnot), Hold in Hnew. subst cell.
  apply (Forall_lookup_1 _ _ _ _ Hsolid Hrow).
  apply list_elem_of_lookup. by exists j.
Qed.

(** Among lists that agree outside a band of [h] indices, one without any
    element of [P] and one with at most [h] of them. *)
Lemma filter_band {A} (P : A → Prop) `{!∀ a, Decision (P a)} (lo h : Z) :
  ∀ (l' l : list A) (off : Z),
  length l' = length l →
  (∀ i : nat, ¬ (lo ≤ off + Z.of_nat i < lo + h) → l' !! i = l !! i) →
  Forall (fun a => ¬ P a) l →
  Z.of_nat (length (filter P l'))
  ≤ Z.max 0 (Z.min (lo + h) (off + Z.of_nat (length l')) - Z.max lo off).
Proof.
  induction l' as [|a' l' IH]; intros l off Hlen Hsame Hnone; [simpl; lia|].
  destruct l as [|a l]; [done|]. apply Forall_cons in Hnone as [Ha Hnone].
  assert (Htail : Z.of_nat (length (filter P l'))
            ≤ Z.max 0 (Z.min (lo + h) (off + 1 + Z.of_nat (length l'))
                       - Z.max lo (off + 1))).
  { apply (IH l (off + 1)); [by injection Hlen | | done].
    intros i Hi. apply (Hsame (S i)). lia. }
  rewrite filter_cons. cbn [length] in *.
  destruct (decide (P a')) as [Hin | Hout]; cbn [length]; [|lia].
  assert (lo ≤ off < lo + h); [|lia].
  destruct (decide (lo ≤ off < lo + h)) as [|Hband]; [done|]. exfalso.
  specialize (Hsame 0%nat). cbn in Hsame.
  assert (Some a' = Some a) as [= ->] by (apply Hsame; lia). done.
Qed.

(** A merge into a board without full rows fills at most as many rows as
    the shape of the block has. *)
Lemma mergeTetromino_full_rows board block newBoard :
  hasHeight board → hasWidth board →
  Forall (fun row => ¬ fullRow row) board →
  mergeTetromino board block = Return newBoard →
  (length (filter fullRow newBoard) ≤ length (shape (tetromino block)))%nat.
Proof.
  intros Hh Hw Hnone Hmerge.
  destruct (mergeTetromino_cells board block Hh) as (newBoard' & Heq & Hlen & _).
  rewrite Hmerge in Heq. injection Heq as <-.
  pose proof (filter_band fullRow (y block)
                (Z.of_nat (length (shape (tetromino block))))
                newBoard board 0 Hlen) as Hband.
  cut (Z.of_nat (length (filter fullRow newBoard))
       ≤ Z.max 0 (Z.min (y block + Z.of_nat (length (shape (tetromino block))))
                    (0 + Z.of_nat (length newBoard)) - Z.max (y block) 0));
    [lia|].
  apply Hband; [|done].
  intros i Hi. eapply mergeTetromino_rows_outside; [done | done | done | lia].
Qed.

Lemma clearRows_tidy board :
  hasHeight board → hasWidth board →
  Forall (fun row => NoCell ∉ row) board →
  tidy (replicate (length (filter fullRow board))
          (replicate (Z.to_nat GRID_WIDTH) Null)
        ++ filter (fun row => ¬ fullRow row) board).
Proof.
  intros Hh Hw Hsolid.
  destruct (clearRows_filter board Hh) as [Heq Hheight].
  rewrite Heq in Hheight. cbn [fst] in Hheight.
  split; [done|]. split; [|split].
  - apply Forall_app. split.
    + apply Forall_replicate. by rewrite length_replicate.
    + apply Forall_forall. intros row Hrow.
      apply list_elem_of_filter in Hrow as [_ Hrow].
      by apply (proj1 (Forall_forall _ _) Hw).
  - apply Forall_app. split.
    + apply Forall_replicate, emptyRow_not_full.
    + apply Forall_forall. intros row Hrow.
      by apply list_elem_of_filter in Hrow as [? _].
  - apply Forall_app. split.
    + apply Forall_replicate. intros Hin.
      by apply elem_of_replicate in Hin as [? _].
    + apply Forall_forall. intros row Hrow.
      apply list_elem_of_filter in Hrow as [_ Hrow].
      by apply (proj1 (Forall_forall _ _) Hsolid).
Qed.

Lemma randomTetromino_boxed randKey : boxed (shape (randomTetromino randKey)).
Proof.
  destruct randKey.
  - exists 4%nat, 4%nat. split; [lia|]. split; [lia|].
    split; [done | by repeat constructor].
  - exists 2%nat, 2%nat. split; [lia|]. split; [lia|].
    split; [done | by repeat constructor].
  - exists 3%nat, 3%nat. split; [lia|]. split; [lia|].
    split; [done | by repeat constructor].
  - exists 3%nat, 3%nat. split; [lia|]. split; [lia|].
    split; [done | by repeat constructor].
  - exists 3%nat, 3%nat. split; [lia|]. split; [lia|].
    split; [done | by repeat constructor].
  - exists 3%nat, 3%nat. split; [lia|]. split; [lia|].
    split; [done | by repeat constructor].
  - exists 3%nat, 3%nat. split; [lia|]. split; [lia|].
    split; [done | by repeat constructor].
Qed.

Lemma rotate_boxed matrix rotated :
  boxed matrix → rotate matrix = Return rotated → boxed rotated.
Proof.
  intros (N & M & HN & HM & Hlen & Hrows) Hrot.
  destruct matrix as [|row0 rows]; [done|].
  destruct (rotate_entries row0 rows) as (rotated' & Heq & Hrect & _).
  rewrite Hrot in Heq. injection Heq as <-.
  assert (Hrow0 : length row0 = M) by (by apply Forall_cons in Hrows as [? _]).
  rewrite Hlen, Hrow0 in Hrect. by exists M, N.
Qed.

Lemma boxed_length matrix : boxed matrix → (length matrix ≤ 4)%nat.
Proof. intros (N & M & HN & _ & Hlen & _). lia. Qed.

Lemma housekeeping_initial key1 key2 state :
  initialState key1 key2 = Return state → housekeeping state.
Proof.
  intros Hinit. split; [by eapply invariant_initial|].
  unfold initialState in Hinit.
  apply bind_Return in Hinit as (block & Hspawn & [= <-]).
  assert (Hblock : tetromino block = randomTetromino key1).
  { unfold spawnNewBlock in Hspawn.
    destruct (shape (randomTetromino key1)); [done|]. by injection Hspawn as <-. }
  cbn [board currentBlock nextTetromino score]. rewrite Hblock.
  split; [|split; [apply randomTetromino_boxed|]].
  - split; [reflexivity|]. split; [by apply Forall_replicate|]. split.
    + apply Forall_replicate, emptyRow_not_full.
    + apply Forall_replicate. intros Hin.
      by apply elem_of_replicate in Hin as [? _].
  - split; [apply randomTetromino_boxed|]. split; [lia|]. by exists 0.
Qed.

(** A transition of a state in good order: the next state is in good order
    and the score has grown by 100 times a number of rows between 0 and 4. *)
Lemma housekeeping_step state action randKey state' :
  housekeeping state →
  updateState state action randKey = Return state' →
  housekeeping state' ∧
  ∃ k : nat, (k ≤ 4)%nat ∧ score state' = score state + 100 * Z.of_nat k.
Proof.
  intros Hkeep Hstep.
  pose proof Hkeep as (Hinv & Htidy & Hcur & Hnext & Hpos & Hdiv).
  assert (Hinv' : invariant state').
  { destruct (invariant_step state action randKey Hinv) as (state'' & Heq & ?).
    congruence. }
  assert (Hsame : state' = state →
            housekeeping state' ∧
            ∃ k : nat, (k ≤ 4)%nat ∧ score state' = score state + 100 * Z.of_nat k).
  { intros ->. split; [done|]. exists 0%nat. split; lia. }
  destruct (gameOver state) eqn:Hover.
  { apply Hsame. unfold updateState in Hstep. rewrite Hover in Hstep.
    by injection Hstep. }
  destruct (updateState_inv state action randKey state' Hover Hstep)
    as [-> | [(block' & -> & _ & _ & Hshape) | (dropY & Hlock)]].
  - by apply Hsame.
  - split; [|exists 0%nat; cbn; split; lia].
    split; [done|]. cbn [withBlock board currentBlock nextTetromino score].
    split; [done|]. split; [|done].
    destruct Hshape as [-> | Hrot]; [done | exact (rotate_boxed _ _ Hcur Hrot)].
  - destruct Hinv as (Hh & _ & Hnextshape & _).
    destruct (wellShaped_cons _ Hnextshape) as (row0 & rows & Hshape).
    destruct Htidy as (_ & Hw & Hnone & Hsolid).
    destruct (lockSequence_returns state (withY (currentBlock state) dropY)
                randKey row0 rows Hh Hshape)
      as (merged & fits & Hmerge & Hhm & _ & _ & Heq).
    rewrite Hlock in Heq. injection Heq as ->.
    destruct (mergeTetromino_cells (board state)
                (withY (currentBlock state) dropY) Hh)
      as (merged' & Hmerge' & _ & Hwm & _).
    rewrite Hmerge in Hmerge'. injection Hmerge' as <-. specialize (Hwm Hw).
    pose proof (mergeTetromino_solid _ _ _ Hh Hw Hsolid Hmerge) as Hsm.
    pose proof (mergeTetromino_full_rows _ _ _ Hh Hw Hnone Hmerge) as Hfull.
    cbn [withY tetromino] in Hfull. apply boxed_length in Hcur as Hcurlen.
    split.
    + split; [done|]. cbn [board currentBlock nextTetromino score tetromino].
      split; [by apply clearRows_tidy|]. split; [done|].
      split; [apply randomTetromino_boxed|]. split; [lia|].
      destruct Hdiv as [q Hq]. exists (q + Z.of_nat (length (filter fullRow merged))).
      lia.
    + exists (length (filter fullRow merged)). cbn [score]. split; lia.
Qed.

Lemma reachable_housekeeping state : reachable state → housekeeping state.
Proof.
  induction 1 as [key1 key2 state Hinit | state action randKey state' _ IH Hstep].
  - by eapply housekeeping_initial.
  - by destruct (housekeeping_step state action randKey state' IH Hstep).
Qed.

(** X13. In every state that the game reaches, the board has its
    [GRID_HEIGHT] rows of [GRID_WIDTH] cells, each cell is [null] or a
    colour (no row was ever extended or left with a hole), and no row is
    full: full rows never outlive the transition that completes them. *)
Theorem reachable_board_tidy state :
  reachable state →
  hasHeight (board state) ∧ hasWidth (board state) ∧
  (∀ row, row ∈ board state → ¬ fullRow row) ∧
  (∀ row cell, row ∈ board state → cell ∈ row → cell = Null ∨ ∃ c, cell = Color c).
Proof.
  intros Hreach.
  destruct (reachable_housekeeping state Hreach)
    as (_ & (Hh & Hw & Hnone & Hsolid) & _).
  split; [done|]. split; [done|]. split.
  - intros row Hrow. by apply (proj1 (Forall_forall _ _) Hnone).
  - intros row cell Hrow Hcell.
    pose proof (proj1 (Forall_forall _ _) Hsolid row Hrow) as Hno.
    destruct cell as [|c|]; [by left | right; by exists c | done].
Qed.

Lemma reachable_board_tidy_witness :
  reachable startT ∧
  hasHeight (board startT) ∧ hasWidth (board startT) ∧
  (∀ row, row ∈ board startT → ¬ fullRow row) ∧
  (∀ row cell, row ∈ board startT → cell ∈ row → cell = Null ∨ ∃ c, cell = Color c).
Proof.
  assert (Hreach : reachable startT).
  { apply (reachable_initial Key.T Key.I). reflexivity. }
  split; [exact Hreach|]. exact (reachable_board_tidy startT Hreach).
Defined.



(** ** The stream of states *)

(** X15. From a state that the game has reached, the stream hands the
    subscriber one state per action for as long as the game runs: the
    [i]-th state is the one that the first [i + 1] actions lead to, no
    transition throws, only the last state handed over can have [gameOver]
    set, and when there are fewer states than actions the last one has it
    set: the actions after the end of the game are never applied. *)
Theorem emitted_until_gameOver state actions :
  reachable state →
  ∃ states,
    emitted state actions = Return states ∧
    (length states ≤ length actions)%nat ∧
    (∀ (i : nat) s, states !! i = Some s →
       reachable s ∧
       run state (take (S i) actions) = Return s ∧
       (gameOver s = true → S i = length states)) ∧
    ((length states < length actions)%nat →
     ∃ s, last states = Some s ∧ gameOver s = true).
Proof.
  revert state.
  induction actions as [|[action randKey] actions IH]; intros state Hreach.
  - exists []. split; [done|]. split; [done|]. split; [done|]. cbn. lia.
  - destruct (invariant_step state action randKey
                (reachable_invariant state Hreach)) as (state' & Hstep & _).
    assert (Hreach' : reachable state') by (by eapply reachable_step).
    cbn [emitted]. rewrite Hstep. cbn [bind].
    destruct (gameOver state') eqn:Hover.
    + exists [state']. split; [done|]. split; [cbn; lia|]. split.
      * intros [|i] s Hs; [|done]. injection Hs as <-.
        split; [done|]. split; [|done]. cbn. by rewrite Hstep.
      * intros _. by exists state'.
    + destruct (IH state' Hreach') as (states & Heq & Hlen & Hstates & Hshort).
      rewrite Heq. cbn [bind]. exists (state' :: states).
      split; [done|]. split; [cbn; lia|]. split.
      * intros [|i] s Hs.
        -- injection Hs as <-. split; [done|]. split; [|congruence].
           cbn. by rewrite Hstep.
        -- destruct (Hstates i s Hs) as (Hr & Hrun & Hlast).
           split; [done|]. split.
           ++ cbn [take run]. rewrite Hstep. cbn [bind]. exact Hrun.
           ++ intros Hs_over. cbn [length]. by rewrite (Hlast Hs_over).
      * intros Hlt. cbn [length] in Hlt.
        destruct Hshort as (s & Hs & Hs_over); [lia|].
        exists s. split; [|done].
        destruct states as [|s0 states]; [done|]. exact Hs.
Qed.

Lemma emitted_until_gameOver_witness :
  reachable startT ∧
  ∃ states,
    emitted startT (ticks [Key.O; Key.O]) = Return states ∧
    (length states ≤ length (ticks [Key.O; Key.O]))%nat ∧
    (∀ (i : nat) s, states !! i = Some s →
       reachable s ∧
       run startT (take (S i) (ticks [Key.O; Key.O])) = Return s ∧
       (gameOver s = true → S i = length states)) ∧
    ((length states < length (ticks [Key.O; Key.O]))%nat →
     ∃ s, last states = Some s ∧ gameOver s = true).
Proof.
  assert (Hreach : reachable startT).
  { apply (reachable_initial Key.T Key.I). reflexivity. }
  split; [exact Hreach|].
  exact (emitted_until_gameOver startT (ticks [Key.O; Key.O]) Hreach).
Defined.

(** Ten O pieces dropped one on another reach the top of the board: of
    twelve "drop" actions the stream applies ten, and ends. *)
Example stream_stops_at_gameOver :
  ∃ start states,
    initialState Key.O Key.O = Return start ∧
    emitted start (replicate 12 (mkAction "drop", Key.O)) = Return states ∧
    length states = 10%nat ∧
    (gameOver <$> last states) = Some true.
Proof.
  eexists _, _. split; [reflexivity|]. split; [vm_compute; reflexivity|].
  split; reflexivity.
Qed.

(** ** Four rotations in the game *)

Lemma rotate_cycle N M (matrix : Matrix) :
  (0 < N)%nat → (0 < M)%nat → rect N M matrix →
  ∃ r1 r2 r3,
    rotate matrix = Return r1 ∧ rotate r1 = Return r2 ∧
    rotate r2 = Return r3 ∧ rotate r3 = Return matrix.
Proof.
  intros HN HM Hrect.
  destruct (rotate_rect N M matrix HN Hrect) as (r1 & Heq1 & Hrect1 & He1).
  destruct (rotate_rect M N r1 HM Hrect1) as (r2 & Heq2 & Hrect2 & He2).
  destruct (rotate_rect N M r2 HN Hrect2) as (r3 & Heq3 & Hrect3 & He3).
  destruct (rotate_rect M N r3 HM Hrect3) as (r4 & Heq4 & Hrect4 & He4).
  exists r1, r2, r3. split; [done|]. split; [done|]. split; [done|].
  rewrite Heq4. f_equal. apply (rect_ext N M); [done | done |].
  intros i j Hi Hj. rewrite He4, He3, He2, He1 by lia. f_equal; lia.
Qed.

Lemma updateState_rotate state randKey :
  gameOver state = false →
  updateState state (mkAction "rotate") randKey
  = let* rotatedShape := rotate (shape (tetromino (currentBlock state))) in
    let rotatedTetromino :=
      {| shape := rotatedShape;
         color := color (tetromino (currentBlock state)) |} in
    let* fits := canPlaceTetromino (board state) rotatedTetromino
                   (x (currentBlock state)) (y (currentBlock state)) in
    if fits then
      Return (withBlock state
                {| tetromino := rotatedTetromino;
                   x := x (currentBlock state); y := y (currentBlock state) |})
    else Return state.
Proof. intros Hover. unfold updateState. by rewrite Hover. Qed.

(** X16. In a running game whose block has a rectangular shape with at
    least one row and one column, four "rotate" actions in a row bring back
    the very state, provided each of the four orientations fits where the
    block is. *)
Theorem four_rotations_in_place state N M key1 key2 key3 key4 :
  gameOver state = false →
  (0 < N)%nat → (0 < M)%nat →
  rect N M (shape (tetromino (currentBlock state))) →
  (∀ (n : nat) rotated, (n < 4)%nat →
     rotateTimes n (shape (tetromino (currentBlock state))) = Return rotated →
     canPlaceTetromino (board state)
       {| shape := rotated; color := color (tetromino (currentBlock state)) |}
       (x (currentBlock state)) (y (currentBlock state)) = Return true) →
  run state (rotations [key1; key2; key3; key4]) = Return state.
Proof.
  intros Hover HN HM Hrect Hfit.
  destruct (rotate_cycle N M _ HN HM Hrect) as (r1 & r2 & r3 & H1 & H2 & H3 & H4).
  assert (Hfit0 := Hfit 0%nat _ ltac:(lia) eq_refl).
  assert (Hfit1 := Hfit 1%nat r1 ltac:(lia)).
  assert (Hfit2 := Hfit 2%nat r2 ltac:(lia)).
  assert (Hfit3 := Hfit 3%nat r3 ltac:(lia)).
  cbn [rotateTimes] in Hfit1, Hfit2, Hfit3.
  rewrite H1 in Hfit1, Hfit2, Hfit3. cbn [bind] in Hfit1, Hfit2, Hfit3.
  rewrite H2 in Hfit2, Hfit3. cbn [bind] in Hfit2, Hfit3.
  rewrite H3 in Hfit3. cbn [bind] in Hfit3.
  specialize (Hfit1 eq_refl). specialize (Hfit2 eq_refl).
  specialize (Hfit3 eq_refl).
  destruct state as [grid [[matrix paint] posX posY] next over total].
  cbn [gameOver board currentBlock tetromino x y shape color] in *. subst over.
  cbn [rotations map run].
  rewrite updateState_rotate by done.
  cbn [gameOver board currentBlock tetromino x y shape color].
  rewrite H1. cbn [bind]. rewrite Hfit1. cbn [bind].
  rewrite updateState_rotate by done.
  cbn [withBlock gameOver board currentBlock tetromino x y shape color
       nextTetromino score].
  rewrite H2. cbn [bind]. rewrite Hfit2. cbn [bind].
  rewrite updateState_rotate by done.
  cbn [withBlock gameOver board currentBlock tetromino x y shape color
       nextTetromino score].
  rewrite H3. cbn [bind]. rewrite Hfit3. cbn [bind].
  rewrite updateState_rotate by done.
  cbn [withBlock gameOver board currentBlock tetromino x y shape color
       nextTetromino score].
  rewrite H4. cbn [bind]. rewrite Hfit0. by cbn [bind].
Qed.

Lemma four_rotations_in_place_witness :
  gameOver (stateOf createEmptyBoard Key.T 3 5 Key.I) = false ∧
  rect 3 3 (shape (tetromino (currentBlock (stateOf createEmptyBoard Key.T 3 5 Key.I)))) ∧
  run (stateOf createEmptyBoard Key.T 3 5 Key.I)
    (rotations [Key.I; Key.O; Key.T; Key.S])
  = Return (stateOf createEmptyBoard Key.T 3 5 Key.I).
Proof.
  assert (Hrect : rect 3 3 (shape (tetromino (currentBlock
                    (stateOf createEmptyBoard Key.T 3 5 Key.I))))).
  { split; [reflexivity|]. by repeat constructor. }
  split; [reflexivity|]. split; [exact Hrect|].
  apply (four_rotations_in_place _ 3 3 Key.I Key.O Key.T Key.S);
    [reflexivity | lia | lia | exact Hrect |].
  intros n rotated Hn Hrot.
  destruct n as [|[|[|[|n]]]]; [| | | |lia];
    vm_compute in Hrot; injection Hrot as <-; reflexivity.
Defined.

(** ** mergeTetromino on any board *)

Lemma mergeCols_Throw block row cells :
  ∀ newBoard col, mergeCols newBoard block row col cells = Throw →
  Z.of_nat (length newBoard) < GRID_HEIGHT.
Proof.
  induction cells as [|v cells IH]; intros newBoard col Hthrow; [done|].
  simpl in Hthrow. destruct (truthy v); [|by eapply IH].
  destruct (_ && _) eqn:Hb; [|by eapply IH].
  rewrite !andb_true_iff in Hb. unfold setBoard in Hthrow.
  destruct (newBoard !! Z.to_nat (y block + row)) eqn:Hrow.
  - cbn [bind] in Hthrow. apply IH in Hthrow. by rewrite length_insert in Hthrow.
  - apply lookup_ge_None in Hrow. lia.
Qed.

Lemma mergeRows_Throw block rows :
  ∀ newBoard row, mergeRows newBoard block row rows = Throw →
  Z.of_nat (length newBoard) < GRID_HEIGHT.
Proof.
  induction rows as [|cells rows IH]; intros newBoard row Hthrow; [done|].
  simpl in Hthrow.
  destruct (mergeCols newBoard block row 0 cells) as [board1| |] eqn:Hcols;
    cbn [bind] in Hthrow.
  - apply IH in Hthrow. by rewrite (mergeCols_length _ _ _ _ _ _ Hcols) in Hthrow.
  - by eapply mergeCols_Throw.
  - done.
Qed.

(** X17. On any board whatever, [mergeTetromino] ends; it throws only on a
    board with fewer than [GRID_HEIGHT] rows (a truthy entry maps inside
    the bounds to a row that the board does not have); and the board it
    returns has as many rows as the one it was given. *)
Theorem mergeTetromino_any_board board block :
  mergeTetromino board block ≠ Hang ∧
  (mergeTetromino board block = Throw →
   Z.of_nat (length board) < GRID_HEIGHT) ∧
  (∀ newBoard, mergeTetromino board block = Return newBoard →
   length newBoard = length board).
Proof.
  split; [apply mergeTetromino_not_Hang|]. unfold mergeTetromino.
  rewrite map_id. split.
  - apply mergeRows_Throw.
  - intros newBoard. apply mergeRows_length.
Qed.

(** A row shorter than the board is wide: the write past its end extends
    it, and the cells in between read as [undefined]. *)
Example mergeTetromino_extends_short_row :
  mergeTetromino (replicate 19 (replicate 10 Null) ++ [[Null; Null; Null]])
    {| tetromino := TETROMINOES Key.O; x := 4; y := 18 |}
  = Return (replicate 18 (replicate 10 Null)
            ++ [rowWith "yellow" [4; 5]%nat;
                [Null; Null; Null; NoCell; Color "yellow"; Color "yellow"]]).
Proof. reflexivity. Qed.

(** ** Where a "drop" comes to rest, and what ends the game *)

(** X18. In a running game on a board of [GRID_HEIGHT] rows, a "drop" of a
    block that has a truthy entry is the lock sequence for the block at its
    resting row: the one row [restY >= y] such that every row from [y + 1]
    to [restY] accepts the block and row [restY + 1] does not. *)
Theorem drop_rests_at_first_blocked_row state randKey :
  gameOver state = false →
  hasHeight (board state) →
  hasOccupied (shape (tetromino (currentBlock state))) = true →
  ∃ restY,
    y (currentBlock state) ≤ restY ∧
    (∀ y', y (currentBlock state) < y' ≤ restY →
       canPlaceTetromino (board state) (tetromino (currentBlock state))
         (x (currentBlock state)) y' = Return true) ∧
    canPlaceTetromino (board state) (tetromino (currentBlock state))
      (x (currentBlock state)) (restY + 1) = Return false ∧
    updateState state (mkAction "drop") randKey
    = lockSequence state (withY (currentBlock state) restY) randKey ∧
    ∀ other,
      y (currentBlock state) ≤ other →
      (∀ y', y (currentBlock state) < y' ≤ other →
         canPlaceTetromino (board state) (tetromino (currentBlock state))
           (x (currentBlock state)) y' = Return true) →
      canPlaceTetromino (board state) (tetromino (currentBlock state))
        (x (currentBlock state)) (other + 1) = Return false →
      other = restY.
Proof.
  intros Hover Hh Hocc. apply hasOccupied_true in Hocc as (row & col & Hocc).
  destruct (dropLoop_returns (board state) (currentBlock state) row col
              (y (currentBlock state)) Hocc Hh)
    as (restY & Hloop & Hle & Hstop & Hfall).
  exists restY. split; [done|]. split; [done|]. split; [done|]. split.
  - rewrite updateState_drop by done. by rewrite Hloop.
  - intros other Hother Hfall' Hstop'.
    destruct (Z.lt_trichotomy other restY) as [Hlt | [-> | Hgt]]; [|done|].
    + rewrite Hfall in Hstop' by lia. discriminate.
    + rewrite Hfall' in Hstop by lia. discriminate.
Qed.

Lemma drop_rests_at_first_blocked_row_witness :
  gameOver startT = false ∧ hasHeight (board startT) ∧
  hasOccupied (shape (tetromino (currentBlock startT))) = true ∧
  ∃ restY,
    y (currentBlock startT) ≤ restY ∧
    (∀ y', y (currentBlock startT) < y' ≤ restY →
       canPlaceTetromino (board startT) (tetromino (currentBlock startT))
         (x (currentBlock startT)) y' = Return true) ∧
    canPlaceTetromino (board startT) (tetromino (currentBlock startT))
      (x (currentBlock startT)) (restY + 1) = Return false ∧
    updateState startT (mkAction "drop") Key.O
    = lockSequence startT (withY (currentBlock startT) restY) Key.O ∧
    ∀ other,
      y (currentBlock startT) ≤ other →
      (∀ y', y (currentBlock startT) < y' ≤ other →
         canPlaceTetromino (board startT) (tetromino (currentBlock startT))
           (x (currentBlock startT)) y' = Return true) →
      canPlaceTetromino (board startT) (tetromino (currentBlock startT))
        (x (currentBlock startT)) (other + 1) = Return false →
      other = restY.
Proof.
  split; [reflexivity|]. split; [reflexivity|]. split; [reflexivity|].
  apply (drop_rests_at_first_blocked_row startT Key.O); reflexivity.
Defined.

Lemma tidy_boardCell board boardX boardY :
  tidy board → inBounds boardX boardY →
  boardCell board boardX boardY ≠ NoCell.
Proof.
  intros (Hh & Hw & _ & Hsolid) [HX HY]. unfold boardCell, cellOf.
  destruct (hasHeight_lookup board boardY Hh HY) as [row Hrow].
  rewrite Hrow.
  pose proof (Forall_lookup_1 _ _ _ _ Hw Hrow) as Hlen. simpl in Hlen.
  destruct (lookup_lt_is_Some_2 row (Z.to_nat boardX)) as [cell Hcell].
  { rewrite Hlen. unfold GRID_WIDTH in *. lia. }
  rewrite Hcell. cbn. intros ->.
  apply (Forall_lookup_1 _ _ _ _ Hsolid Hrow).
  apply list_elem_of_lookup. by eexists.
Qed.

(** X19. When a transition from a state that the game has reached ends a
    running game, the block just spawned lies inside the board and sits on
    a landed cell: some truthy entry of its shape maps inside the bounds
    onto a cell that holds a colour. The game never ends for a piece that
    would stick out of the board. *)
Theorem gameOver_means_overlap state action randKey state' :
  reachable state →
  gameOver state = false →
  updateState state action randKey = Return state' →
  gameOver state' = true →
  (∀ row col : nat,
     occupiedAt (shape (tetromino (currentBlock state'))) row col →
     inBounds (x (currentBlock state') + Z.of_nat col)
              (y (currentBlock state') + Z.of_nat row)) ∧
  ∃ (row col : nat) c,
    occupiedAt (shape (tetromino (currentBlock state'))) row col ∧
    boardCell (board state') (x (currentBlock state') + Z.of_nat col)
              (y (currentBlock state') + Z.of_nat row) = Color c.
Proof.
  intros Hreach Hover Hstep Hover'.
  pose proof (reachable_housekeeping state Hreach)
    as (Hinv & Htidy & _ & Hnext & _).
  pose proof (reachable_housekeeping state'
                (reachable_step _ _ _ _ Hreach Hstep)) as (_ & Htidy' & _).
  destruct (updateState_inv state action randKey state' Hover Hstep)
    as [-> | [(block' & -> & _) | (dropY & Hlock)]]; [congruence | | ].
  { cbn [withBlock gameOver] in Hover'. congruence. }
  destruct Hinv as (Hh & _ & Hnextshape & _).
  destruct (wellShaped_cons _ Hnextshape) as (row0 & rows & Hshape).
  destruct (lockSequence_returns state (withY (currentBlock state) dropY)
              randKey row0 rows Hh Hshape)
    as (merged & fits & _ & _ & Hhc & Hfits & Heq).
  rewrite Hlock in Heq. injection Heq as ->.
  cbn [gameOver board currentBlock tetromino x y] in *.
  destruct fits; [discriminate|].
  destruct Hnext as (N & M & HN & HM & Hlen & Hrows).
  rewrite Hshape in Hlen, Hrows.
  assert (Hrow0 : length row0 = M) by (by apply Forall_cons in Hrows as [? _]).
  assert (Hbounds : ∀ row col : nat,
            occupiedAt (shape (nextTetromino state)) row col →
            inBounds ((GRID_WIDTH - Z.of_nat (length row0)) `div` 2 + Z.of_nat col)
                     (0 + Z.of_nat row)).
  { intros row col Hocc.
    destruct (occupiedAt_rect N M (shape (nextTetromino state)) row col)
      as [Hrow Hcol]; [rewrite Hshape; by split | done |].
    unfold inBounds, GRID_WIDTH, GRID_HEIGHT.
    pose proof (Z.div_mod (10 - Z.of_nat (length row0)) 2 ltac:(lia)) as Hdm.
    pose proof (Z.mod_pos_bound (10 - Z.of_nat (length row0)) 2 ltac:(lia)) as Hm.
    lia. }
  split; [done|].
  match type of Hfits with
  | canPlaceTetromino ?b _ ?px _ = _ =>
      destruct (canPlaceRows_spec b px 0 (shape (nextTetromino state)) Hhc 0)
        as (fits' & Hfits' & Hiff)
  end.
  unfold canPlaceTetromino in Hfits. rewrite Hfits in Hfits'.
  injection Hfits' as <-.
  destruct Hiff as [Hex _].
  destruct (Hex eq_refl) as (row & col & Hocc & Hblocked).
  rewrite Z.add_0_l in Hblocked.
  destruct Hblocked as [Hout | Hcell]; [by specialize (Hbounds row col Hocc)|].
  pose proof (tidy_boardCell _ _ _ Htidy' (Hbounds row col Hocc)) as Hsolid.
  match type of Hcell with
  | ?cell ≠ Null => destruct cell as [|c|] eqn:Hc; [done | | done]
  end.
  by exists row, col, c.
Qed.

Lemma run_reachable actions :
  ∀ state state', reachable state → run state actions = Return state' →
  reachable state'.
Proof.
  induction actions as [|[action randKey] actions IH]; intros state state' Hreach Hrun.
  - by injection Hrun as <-.
  - cbn [run] in Hrun. apply bind_Return in Hrun as (state1 & Hstep & Hrun).
    eapply IH; [|exact Hrun]. by eapply reachable_step.
Qed.

Lemma gameOver_means_overlap_witness :
  reachable stackedO ∧ gameOver stackedO = false ∧
  ∃ state',
    updateState stackedO (mkAction "drop") Key.O = Return state' ∧
    gameOver state' = true ∧
    (∀ row col : nat,
       occupiedAt (shape (tetromino (currentBlock state'))) row col →
       inBounds (x (currentBlock state') + Z.of_nat col)
                (y (currentBlock state') + Z.of_nat row)) ∧
    ∃ (row col : nat) c,
      occupiedAt (shape (tetromino (currentBlock state'))) row col ∧
      boardCell (board state') (x (currentBlock state') + Z.of_nat col)
                (y (currentBlock state') + Z.of_nat row) = Color c.
Proof.
  assert (Hreach : reachable stackedO).
  { apply (run_reachable (replicate 9 (mkAction "drop", Key.O))
             (stateOf createEmptyBoard Key.O 4 0 Key.O)).
    - apply (reachable_initial Key.O Key.O). reflexivity.
    - vm_compute. reflexivity. }
  split; [exact Hreach|]. split; [reflexivity|].
  eexists. split; [vm_compute; reflexivity|]. split; [reflexivity|].
  apply (gameOver_means_overlap stackedO (mkAction "drop") Key.O);
    [exact Hreach | reflexivity | vm_compute; reflexivity | reflexivity].
Defined.
